(** * EverMemoryArchive: retry policy, context manager and agent loop

    A shallow embedding of [packages/ema/src/retry.ts] and of the
    [ContextManager] and [Agent] classes of [packages/ema/src/agent.ts],
    followed by the properties of these components.

    Conventions.
    - JavaScript numbers that the code uses as counters are integers ([Z] or
      [nat]); the retry delays, which are fractional seconds, are IEEE 754
      binary64 numbers ([float]), as every JavaScript number is.
    - Everything outside the process (the LLM endpoint, the tools, the
      tokenizer) acts on an abstract world [W]; a call that may throw returns
      a sum whose right injection is the thrown value.
    - Emitted events and console output are recorded in logs; event
      handlers are outside the model.
    - A string is a list of characters and [.length] its length;
      [Math.floor(n / 2.5)] on a character count [n] is [(2 * n) / 5]. *)

From Stdlib Require Import ZArith QArith Qminmax Qpower Lia Lqa Floats.
From stdpp Require Import base option list strings gmap pretty sorting.

Local Open Scope string_scope.
Local Open Scope list_scope.
Local Open Scope nat_scope.

(** ** JavaScript values shared by the three components *)

(** JSON data: tool-call arguments, structured message content, schemas.
    An object lists its own properties in the order of their creation. *)
Local Unset Elimination Schemes.
Inductive Json : Type :=
| JNull
| JBool (b : bool)
| JNum (n : Z)
| JStr (s : string)
| JArr (items : list Json)
| JObj (fields : list (string * Json)).
Local Set Elimination Schemes.

(** [typeof v === "object" && v !== null] *)
Definition is_object (v : Json) : bool :=
  match v with
  | JArr _ | JObj _ => true
  | _ => false
  end.

(** Thrown values other than [null] and [undefined]. [Error_] is a plain
    [Error] (or any other value the code does not distinguish): [name] and
    [message] are what a template literal renders for its properties of
    these names, [stack] is its [stack] property when it is neither
    [undefined] nor [null]. [RetryExhaustedError] is the subclass declared
    in retry.ts. *)
Inductive JsError : Type :=
| Error_ (name message : string) (stack : option string)
| RetryExhaustedError (lastException : JsError) (attempts : Z).

(** What a [throw] statement or a rejected promise carries: any value,
    [null] and [undefined] included. *)
Inductive Thrown : Type :=
| thrown_null
| thrown_undefined
| thrown (e : JsError).

Coercion thrown : JsError >-> Thrown.

(** Template-literal rendering of an integer. *)
Definition num_to_string (n : Z) : string := pretty n.

Definition nl : string := String (Ascii.ascii_of_nat 10) EmptyString.

Fixpoint error_message (e : JsError) : string :=
  match e with
  | Error_ _ m _ => m
  | RetryExhaustedError last attempts =>
      "Retry failed after " +:+ num_to_string attempts +:+
      " attempts. Last error: " +:+ error_message last
  end.

Definition error_name (e : JsError) : string :=
  match e with
  | Error_ n _ _ => n
  | RetryExhaustedError _ _ => "RetryExhaustedError"
  end.

(** The engine-generated trace of a [RetryExhaustedError] is not modelled. *)
Definition error_stack (e : JsError) : option string :=
  match e with
  | Error_ _ _ s => s
  | RetryExhaustedError _ _ => None
  end.

(** The [TypeError] that the engine throws when the property [prop] of
    [null] or [undefined] is read. The message is V8's; the trace is not
    modelled. *)
Definition TypeError_reading (undefined : bool) (prop : string) : JsError :=
  Error_ "TypeError"
    ("Cannot read properties of " +:+ (if undefined then "undefined" else "null") +:+
     " (reading '" +:+ prop +:+ "')")
    None.

(** [v.prop] for a thrown value [v], where [read] gives the property of a
    value that is not [null] or [undefined]: the right injection is the
    error that the read itself throws. *)
Definition read_property {A : Type} (read : JsError -> A) (prop : string) (v : Thrown)
    : A + JsError :=
  match v with
  | thrown_null => inr (TypeError_reading false prop)
  | thrown_undefined => inr (TypeError_reading true prop)
  | thrown e => inl (read e)
  end.

(** ** Numbers *)
Module Number.

(** The number that an integer counter is. *)
Definition of_Z (z : Z) : float := SF2Prim (binary_normalize prec emax z 0 false).

(** One iteration of the loop of [Math.min] over its arguments, [lowest]
    starting at [+Infinity]; [None] once [NaN] has been returned. *)
Definition Math_min_step (lowest : option float) (number : float) : option float :=
  match lowest with
  | None => None
  | Some lowest =>
      if is_nan number then None
      else if is_zero number && get_sign number && is_zero lowest && negb (get_sign lowest)
      then Some number
      else if (number <? lowest)%float then Some number
      else Some lowest
  end.

(** [Math.min(...args)] *)
Definition Math_min (args : list float) : float :=
  default nan (foldl Math_min_step (Some infinity) args).

(** The real number that a finite number is. *)
Definition magnitude (m : positive) (e : Z) : Q := (inject_Z (Z.pos m) * 2 ^ e)%Q.

Definition SF2Q (x : spec_float) : option Q :=
  match x with
  | S754_zero _ => Some 0%Q
  | S754_finite s m e => Some (if s then (- magnitude m e)%Q else magnitude m e)
  | _ => None
  end.

Definition real (x : float) : option Q := SF2Q (Prim2SF x).

End Number.

(** ** retry.ts *)
Module Retry.
Local Open Scope Z_scope.

Record RetryConfig : Type := mkRetryConfig {
  enabled : bool;
  maxRetries : Z;
  initialDelay : float;
  maxDelay : float;
  exponentialBase : float;
  retryableExceptions : list string
}.

(** [new RetryConfig()] *)
Definition default_config : RetryConfig :=
  {| enabled := true; maxRetries := 3; initialDelay := 1%float; maxDelay := 60%float;
     exponentialBase := 2%float; retryableExceptions := ["Error"] |}.

Definition with_enabled (b : bool) (c : RetryConfig) : RetryConfig :=
  {| enabled := b; maxRetries := maxRetries c; initialDelay := initialDelay c;
     maxDelay := maxDelay c; exponentialBase := exponentialBase c;
     retryableExceptions := retryableExceptions c |}.

(** What the wrapped function does, in order. *)
Inductive RetryEffect : Type :=
| Invoked (thrown : option Thrown)
| ConsoleError (maxRetries : Z)
| ConsoleWarn (failed_call : Z) (message : string) (next_call : Z) (delay : float)
| OnRetry (exception : Thrown) (attempt : Z)
| Sleep (milliseconds : float).

(** [throw new RetryExhaustedError(lastException, attempts)]: the
    constructor reads [lastException.message] for its own message. *)
Definition throw_RetryExhaustedError (lastException : Thrown) (attempts : Z) : Thrown :=
  match lastException with
  | thrown e => thrown (RetryExhaustedError e attempts)
  | thrown_null => thrown (TypeError_reading false "message")
  | thrown_undefined => thrown (TypeError_reading true "message")
  end.

Section Engine.
(** [Math.pow] at an integral exponent. The language leaves its result
    implementation-approximated, so it is a parameter. *)
Variable Math_pow : float -> Z -> float.

(** [RetryConfig.calculateDelay] *)
Definition calculateDelay (c : RetryConfig) (attempt : Z) : float :=
  let delay := (initialDelay c * Math_pow (exponentialBase c) attempt)%float in
  Number.Math_min [delay; maxDelay c].

Section AsyncRetry.
Context {W A : Type}.
Variable config : RetryConfig.
(** The callback returns, or throws the value in its result. *)
Variable onRetry : option (Thrown -> Z -> W -> W * option Thrown).
Variable originalMethod : W -> W * (A + Thrown).

(** The statements after the [for] loop, which are reached only when the
    loop has not run: [lastException] is still [undefined] then. *)
Definition after_loop (lastException : option Thrown) : A + Thrown :=
  match lastException with
  | Some (thrown e) => inr (thrown e)
  | _ => inr (thrown (Error_ "Error" "Unknown error" None))
  end.

(** The [for] loop of the wrapped function, from the test of its
    condition; [fuel] bounds the number of iterations. An error thrown
    inside the [catch] block leaves the function. *)
Fixpoint retry_loop (fuel : nat) (attempt : Z) (lastException : option Thrown)
    (w : W) (log : list RetryEffect) : W * list RetryEffect * (A + Thrown) :=
  match fuel with
  | O => (w, log, after_loop lastException)
  | S fuel' =>
      if attempt <=? maxRetries config then
        match originalMethod w with
        | (w1, inl v) => (w1, log ++ [Invoked None], inl v)
        | (w1, inr exception) =>
            let log := log ++ [Invoked (Some exception)] in
            if attempt >=? maxRetries config then
              (w1, log ++ [ConsoleError (maxRetries config)],
               inr (throw_RetryExhaustedError exception (attempt + 1)))
            else
              let delay := calculateDelay config attempt in
              match read_property error_message "message" exception with
              | inl message =>
                  let log :=
                    log ++ [ConsoleWarn (attempt + 1) message (attempt + 2) delay] in
                  let '(w2, cb, thrownByCallback) :=
                    match onRetry with
                    | Some f =>
                        let '(w2, r) := f exception (attempt + 1) w1 in
                        (w2, [OnRetry exception (attempt + 1)], r)
                    | None => (w1, [], None)
                    end in
                  match thrownByCallback with
                  | Some t => (w2, log ++ cb, inr t)
                  | None =>
                      retry_loop fuel' (attempt + 1) (Some exception) w2
                        (log ++ cb ++ [Sleep (delay * 1000)%float])
                  end
              | inr typeError => (w1, log, inr (thrown typeError))
              end
        end
      else (w, log, after_loop lastException)
  end.

(** The function that [asyncRetry(config, onRetry)] installs in place of
    [descriptor.value]. *)
Definition asyncRetry (w : W) : W * list RetryEffect * (A + Thrown) :=
  retry_loop (Z.to_nat (maxRetries config + 1)) 0 None w [].
End AsyncRetry.
End Engine.

(** The values thrown by the calls of the original method, in order. *)
Definition thrown_errors (log : list RetryEffect) : list Thrown :=
  omap (fun ef => match ef with Invoked (Some e) => Some e | _ => None end) log.

(** How many times the original method was called. *)
Definition invocations (log : list RetryEffect) : nat :=
  length (omap (fun ef => match ef with Invoked r => Some r | _ => None end) log).

(** The waits between attempts, converted back to seconds. *)
Definition delays (log : list RetryEffect) : list float :=
  omap (fun ef => match ef with Sleep ms => Some (ms / 1000)%float | _ => None end) log.

(** The backoff rule in the words of the specification, over the real
    numbers: [min(initialDelay * exponentialBase^i, maxDelay)]. *)
Fixpoint Qpow_nat (b : Q) (i : nat) : Q :=
  match i with
  | O => 1%Q
  | S k => (b * Qpow_nat b k)%Q
  end.

Definition spec_delay (initialDelay exponentialBase maxDelay : Q) (i : nat) : Q :=
  let d := (initialDelay * Qpow_nat exponentialBase i)%Q in
  if Qle_bool d maxDelay then d else maxDelay.

End Retry.

(** ** schema.ts and tools/base.ts *)
Module Schema.

(** A plain object, as [JSON.parse] or an object literal builds it: its
    own properties in the order of their creation, the keys distinct. Its
    prototype is [Object.prototype]. *)
Definition JsObject : Type := list (string * Json).

(** What reading a property of such an object yields: [undefined], a
    value of its own, or the property that [Object.prototype] has under
    that name. *)
Inductive JsValue : Type :=
| Undefined
| Value (v : Json)
| Inherited (key : string).

(** The names of the properties of [Object.prototype]. *)
Definition Object_prototype_keys : list string :=
  ["constructor"; "__defineGetter__"; "__defineSetter__"; "hasOwnProperty";
   "__lookupGetter__"; "__lookupSetter__"; "isPrototypeOf"; "propertyIsEnumerable";
   "toString"; "valueOf"; "__proto__"; "toLocaleString"].

(** The own property [key] of [obj]; [None] when it has none. *)
Fixpoint own_property (key : string) (obj : JsObject) : option Json :=
  match obj with
  | [] => None
  | (k, v) :: rest => if String.eqb k key then Some v else own_property key rest
  end.

(** [obj[key]]: the lookup goes on to the prototype when [obj] has no own
    property [key]. *)
Definition js_get (key : string) (obj : JsObject) : JsValue :=
  match own_property key obj with
  | Some v => Value v
  | None => if bool_decide (key ∈ Object_prototype_keys) then Inherited key else Undefined
  end.

(** Array indices: the canonical numeric strings of the integers from 0
    to 2^32 - 2. *)
Definition digit_of (c : Ascii.ascii) : option N :=
  let n := Ascii.N_of_ascii c in
  if ((48 <=? n) && (n <=? 57))%N then Some (n - 48)%N else None.

Fixpoint parse_digits (acc : N) (s : string) : option N :=
  match s with
  | EmptyString => Some acc
  | String c s' =>
      match digit_of c with
      | Some d => parse_digits (10 * acc + d)%N s'
      | None => None
      end
  end.

Definition array_index (key : string) : option N :=
  match key with
  | EmptyString => None
  | String c rest =>
      match parse_digits 0 key with
      | Some n =>
          if (negb (Ascii.eqb c (Ascii.ascii_of_nat 48)) || String.eqb rest EmptyString) && (n <? 4294967295)%N
          then Some n else None
      | None => None
      end
  end.

(** The own keys that are array indices, with their numeric values, and
    the other own keys, each list in creation order. *)
Definition index_keys (obj : JsObject) : list (N * string) :=
  omap (fun p : string * Json => (fun n => (n, p.1)) <$> array_index p.1) obj.

Definition string_keys (obj : JsObject) : list string :=
  filter (fun key => array_index key = None) (map fst obj).

(** The order of two array indices. *)
Definition index_le (a b : N * string) : Prop := (a.1 <= b.1)%N.

#[global] Instance index_le_dec : RelDecision index_le :=
  fun a b => decide (a.1 <= b.1)%N.

(** [Object.keys(obj)]: the array indices in ascending numeric order, then
    the other keys in creation order. *)
Definition Object_keys (obj : JsObject) : list string :=
  map snd (merge_sort index_le (index_keys obj)) ++ string_keys obj.

(** [Object.values(obj)]: the own values in the order of [Object.keys]. *)
Definition Object_values (obj : JsObject) : list Json :=
  omap (fun key => own_property key obj) (Object_keys obj).


Record FunctionCall : Type := mkFunctionCall {
  fn_name : string;
  fn_arguments : JsObject
}.

Record ToolCall : Type := mkToolCall {
  id : string;
  type : string;
  function : FunctionCall
}.

(** [content: string | Record<string, unknown>[]] *)
Inductive Content : Type :=
| Text (s : string)
| Blocks (blocks : list Json).

Record Message : Type := mkMessage {
  role : string;
  content : Content;
  thinking : option string;
  tool_calls : option (list ToolCall);
  tool_call_id : option string;
  name : option string
}.

Record TokenUsage : Type := mkTokenUsage {
  prompt_tokens : Z;
  completion_tokens : Z;
  total_tokens : Z
}.

Record LLMResponse : Type := mkLLMResponse {
  resp_content : string;
  resp_thinking : option string;
  resp_tool_calls : option (list ToolCall);
  finish_reason : string;
  usage : option TokenUsage
}.

(** tools/base.ts: [ToolResult] *)
Record ToolResult : Type := mkToolResult {
  success : bool;
  result_content : string;
  error : option string
}.

(** The part of a tool's JSON schema that the agent reads. *)
Record ToolParameters : Type := mkToolParameters {
  properties : option JsObject;
  other_fields : JsObject
}.

(** tools/base.ts: [Tool]. [execute] receives the positional arguments;
    it returns a [ToolResult], as its type says, or throws a value, which
    no type restricts. *)
Record Tool (W : Type) : Type := mkTool {
  tool_name : string;
  description : string;
  parameters : ToolParameters;
  execute : list JsValue -> W -> W * (ToolResult + Thrown)
}.
Arguments mkTool {W}.
Arguments tool_name {W}.
Arguments description {W}.
Arguments parameters {W}.
Arguments execute {W}.

(** The value that [JSON.stringify] sees for a list of tool calls. *)
Definition ToolCall_json (tc : ToolCall) : Json :=
  JObj [("id", JStr (id tc)); ("type", JStr (type tc));
        ("function", JObj [("name", JStr (fn_name (function tc)));
                           ("arguments", JObj (fn_arguments (function tc)))])].

Definition tool_calls_json (tcs : list ToolCall) : Json :=
  JArr (map ToolCall_json tcs).

End Schema.

(** ** agent.ts *)
Module Agent.
Import Schema.

Inductive AgentEvent : Type :=
| tokenEstimationFallbacked
| summarizeMessagesStarted (localEstimatedTokens : nat) (apiReportedTokens tokenLimit : Z)
| summarizeMessagesFinished_ok (msg : string)
    (oldTokens newTokens userMessageCount summaryCount : nat)
| summarizeMessagesFinished_failed (msg : string)
| createSummaryFinished_ok (msg : string) (roundNum : nat) (summaryText : string)
| createSummaryFinished_failed (msg : string) (roundNum : nat) (error : Thrown)
| stepStarted (stepNumber maxSteps : nat)
| runFinished_ok (msg : string)
| runFinished_failed (msg : string) (error : Thrown)
| llmResponseReceived (response : LLMResponse)
| toolCallStarted (toolCallId functionName : string) (callArgs : JsObject)
| toolCallFinished (ok : bool) (toolCallId functionName : string) (result : ToolResult).

(** The collaborators of the agent. [get_encoding] is the tiktoken encoder
    for ["cl100k_base"], reduced to the length of the encoding: [None] at
    the outer level is a failing [get_encoding], [None] from the encoder a
    throwing [encode]. [generate] is [LLMClientBase.generate]. *)
Record Env (W : Type) : Type := mkEnv {
  get_encoding : option (string -> option nat);
  JSON_stringify : Json -> string;
  generate : list Message -> option (list (Tool W)) -> W -> W * (LLMResponse + Thrown)
}.
Arguments mkEnv {W}.
Arguments get_encoding {W}.
Arguments JSON_stringify {W}.
Arguments generate {W}.

(** The fields of [ContextManager] that the methods below use, the events
    emitted so far and the state of the outside world. *)
Record ContextManager (W : Type) : Type := mkContextManager {
  tokenLimit : Z;
  tools : list (Tool W);
  toolDict : gmap string (Tool W);
  messages : list Message;
  apiTotalTokens : Z;
  skipNextTokenCheck : bool;
  events : list AgentEvent;
  world : W
}.
Arguments mkContextManager {W}.
Arguments tokenLimit {W}.
Arguments tools {W}.
Arguments toolDict {W}.
Arguments messages {W}.
Arguments apiTotalTokens {W}.
Arguments skipNextTokenCheck {W}.
Arguments events {W}.
Arguments world {W}.

Section Methods.
Context {W : Type}.
Variable env : Env W.

Local Abbreviation CM := (ContextManager W).

Definition set_messages (ms : list Message) (cm : CM) : CM :=
  mkContextManager (tokenLimit cm) (tools cm) (toolDict cm) ms
    (apiTotalTokens cm) (skipNextTokenCheck cm) (events cm) (world cm).

Definition set_apiTotalTokens (n : Z) (cm : CM) : CM :=
  mkContextManager (tokenLimit cm) (tools cm) (toolDict cm) (messages cm)
    n (skipNextTokenCheck cm) (events cm) (world cm).

Definition set_skipNextTokenCheck (b : bool) (cm : CM) : CM :=
  mkContextManager (tokenLimit cm) (tools cm) (toolDict cm) (messages cm)
    (apiTotalTokens cm) b (events cm) (world cm).

Definition set_world (w : W) (cm : CM) : CM :=
  mkContextManager (tokenLimit cm) (tools cm) (toolDict cm) (messages cm)
    (apiTotalTokens cm) (skipNextTokenCheck cm) (events cm) w.

(** [this.events.emit(...)] *)
Definition emit (e : AgentEvent) (cm : CM) : CM :=
  mkContextManager (tokenLimit cm) (tools cm) (toolDict cm) (messages cm)
    (apiTotalTokens cm) (skipNextTokenCheck cm) (events cm ++ [e]) (world cm).

(** [this.messages.push(m)] *)
Definition push (m : Message) (cm : CM) : CM :=
  set_messages (messages cm ++ [m]) cm.

(** The constructor, after [path.resolve] and [fs.mkdirSync]. *)
Definition new_ContextManager (systemPrompt : string) (tools : list (Tool W))
    (workspaceDir : string) (tokenLimit : Z) (w : W) : CM :=
  let systemPrompt :=
    match String.index 0 "Current Workspace" systemPrompt with
    | Some _ => systemPrompt
    | None =>
        systemPrompt +:+ nl +:+ nl +:+ "## Current Workspace" +:+ nl +:+
        "You are currently working in: `" +:+ workspaceDir +:+ "`" +:+ nl +:+
        "All relative paths will be resolved relative to this directory."
    end in
  mkContextManager tokenLimit tools
    (foldl (fun m tool => <[tool_name tool := tool]> m) ∅ tools)
    [mkMessage "system" (Text systemPrompt) None None None None]
    0%Z false [] w.

Definition addUserMessage (content : string) (cm : CM) : CM :=
  push (mkMessage "user" (Text content) None None None None) cm.

Definition addAssistantMessage (response : LLMResponse) (cm : CM) : CM :=
  push (mkMessage "assistant" (Text (resp_content response))
          (resp_thinking response) (resp_tool_calls response) None None) cm.

Definition addToolMessage (result : ToolResult) (toolCallId name : string)
    (cm : CM) : CM :=
  let content :=
    if success result then result_content result
    else "Error: " +:+ default "null" (error result) in
  push (mkMessage "tool" (Text content) None None (Some toolCallId) (Some name)) cm.

Definition updateApiTokens (response : LLMResponse) (cm : CM) : CM :=
  match usage response with
  | Some u => set_apiTotalTokens (total_tokens u) cm
  | None => cm
  end.

(** *** Token estimation *)

(** A thrown error aborts the count: the accumulator is an [option]. *)
Definition add_encoded (encode : string -> option nat) (s : string)
    (totalTokens : option nat) : option nat :=
  match totalTokens, encode s with
  | Some t, Some n => Some (t + n)
  | _, _ => None
  end.

(** One iteration of the loop over the messages in [estimateTokens]. *)
Definition count_message (encode : string -> option nat)
    (totalTokens : option nat) (msg : Message) : option nat :=
  let t1 :=
    match content msg with
    | Text s => add_encoded encode s totalTokens
    | Blocks blocks =>
        foldl (fun t block =>
                 if is_object block
                 then add_encoded encode (JSON_stringify env block) t
                 else t) totalTokens blocks
    end in
  let t2 :=
    match thinking msg with
    | Some s => if String.eqb s EmptyString then t1 else add_encoded encode s t1
    | None => t1
    end in
  let t3 :=
    match tool_calls msg with
    | Some tcs => add_encoded encode (JSON_stringify env (tool_calls_json tcs)) t2
    | None => t2
    end in
  (fun t => t + 4) <$> t3.

(** The [try] block of [estimateTokens]: [None] when it throws. *)
Definition tiktoken_count (msgs : list Message) : option nat :=
  match get_encoding env with
  | Some encode => foldl (count_message encode) (Some 0) msgs
  | None => None
  end.

(** One iteration of the loop in [estimateTokensFallback]. *)
Definition count_chars (totalChars : nat) (msg : Message) : nat :=
  let c1 :=
    match content msg with
    | Text s => totalChars + String.length s
    | Blocks blocks =>
        foldl (fun c block =>
                 if is_object block
                 then c + String.length (JSON_stringify env block)
                 else c) totalChars blocks
    end in
  let c2 :=
    match thinking msg with
    | Some s => if String.eqb s EmptyString then c1 else c1 + String.length s
    | None => c1
    end in
  match tool_calls msg with
  | Some tcs => c2 + String.length (JSON_stringify env (tool_calls_json tcs))
  | None => c2
  end.

(** [Math.floor(totalChars / 2.5)] *)
Definition estimateTokensFallback_of (msgs : list Message) : nat :=
  (2 * foldl count_chars 0 msgs) / 5.

Definition estimateTokensFallback (cm : CM) : nat :=
  estimateTokensFallback_of (messages cm).

Definition estimateTokens (cm : CM) : nat * CM :=
  match tiktoken_count (messages cm) with
  | Some totalTokens => (totalTokens, cm)
  | None =>
      let cm := emit tokenEstimationFallbacked cm in
      (estimateTokensFallback cm, cm)
  end.

(** *** Summarization *)

(** [this.messages.map(..).filter(..).map(..)]: the indices, after the
    first, of the messages with role ["user"]. *)
Definition userIndices_of (msgs : list Message) : list nat :=
  map snd
    (filter (fun p : Message * nat => role p.1 = "user" /\ 0 < p.2)
       (imap (fun index msg => (msg, index)) msgs)).

(** [arr.slice(start, end)] for indices within the array. *)
Definition slice {A : Type} (l : list A) (start stop : nat) : list A :=
  take (stop - start) (drop start l).

(** [typeof msg.content === "string" ? msg.content : JSON.stringify(msg.content)] *)
Definition content_text (c : Content) : string :=
  match c with
  | Text s => s
  | Blocks blocks => JSON_stringify env (JArr blocks)
  end.

(** One iteration of the loop that builds the transcript. *)
Definition transcript_step (summaryContent : string) (msg : Message) : string :=
  if String.eqb (role msg) "assistant" then
    let s1 := summaryContent +:+ "Assistant: " +:+ content_text (content msg) +:+ nl in
    match tool_calls msg with
    | Some tcs =>
        let toolNames := map (fun tc => fn_name (function tc)) tcs in
        s1 +:+ "  ‚Üí Called tools: " +:+ String.concat ", " toolNames +:+ nl
    | None => s1
    end
  else if String.eqb (role msg) "tool" then
    summaryContent +:+ "  ‚Üê Tool returned: " +:+ content_text (content msg) +:+
    "..." +:+ nl
  else summaryContent.

Definition transcript (msgs : list Message) (roundNum : nat) : string :=
  foldl transcript_step
    ("Round " +:+ pretty roundNum +:+ " execution process:" +:+ nl +:+ nl) msgs.

Definition summaryPrompt (summaryContent : string) : string :=
  "Please provide a concise summary of the following Agent execution process:" +:+
  nl +:+ nl +:+ summaryContent +:+ nl +:+ nl +:+ "Requirements:" +:+ nl +:+
  "1. Focus on what tasks were completed and which tools were called" +:+ nl +:+
  "2. Keep key execution results and important findings" +:+ nl +:+
  "3. Be concise and clear, within 1000 words" +:+ nl +:+
  "4. Use English" +:+ nl +:+
  "5. Do not include " +:+ String (Ascii.ascii_of_nat 34) "user" +:+
  String (Ascii.ascii_of_nat 34)
    " related content, only summarize the Agent's execution process".

Definition createSummary (msgs : list Message) (roundNum : nat) (cm : CM)
    : string * CM :=
  match msgs with
  | [] => (EmptyString, cm)
  | _ :: _ =>
      let summaryContent := transcript msgs roundNum in
      let summaryMsg :=
        mkMessage "user" (Text (summaryPrompt summaryContent)) None None None None in
      let system :=
        mkMessage "system"
          (Text "You are an assistant skilled at summarizing Agent execution processes.")
          None None None None in
      match generate env [system; summaryMsg] None (world cm) with
      | (w, inl response) =>
          let summaryText := resp_content response in
          (summaryText,
           emit (createSummaryFinished_ok "Summary generation succeeded."
                   roundNum summaryText) (set_world w cm))
      | (w, inr error) =>
          (summaryContent,
           emit (createSummaryFinished_failed "Summary generation failed."
                   roundNum error) (set_world w cm))
      end
  end.

Definition summaryMessage (summaryText : string) : Message :=
  mkMessage "user" (Text ("[Assistant Execution Summary]" +:+ nl +:+ nl +:+ summaryText))
    None None None None.

(** The loop over [userIndices], from iteration [i] on: [rest] is
    [userIndices.slice(i)], [msgs] is [this.messages], which the loop
    does not assign. *)
Fixpoint summarize_rounds (msgs : list Message) (rest : list nat) (i : nat)
    (newMessages : list Message) (summaryCount : nat) (cm : CM)
    : list Message * nat * CM :=
  match rest with
  | [] => (newMessages, summaryCount, cm)
  | userIdx :: rest' =>
      let newMessages := newMessages ++ option_list (msgs !! userIdx) in
      let nextUserIdx :=
        match rest' with
        | next :: _ => next
        | [] => length msgs
        end in
      let executionMessages := slice msgs (userIdx + 1) nextUserIdx in
      if 0 <? length executionMessages then
        let '(summaryText, cm) := createSummary executionMessages (i + 1) cm in
        if String.eqb summaryText EmptyString then
          summarize_rounds msgs rest' (i + 1) newMessages summaryCount cm
        else
          summarize_rounds msgs rest' (i + 1)
            (newMessages ++ [summaryMessage summaryText]) (summaryCount + 1) cm
      else summarize_rounds msgs rest' (i + 1) newMessages summaryCount cm
  end.

(** [estimatedTokens > this.tokenLimit || this.apiTotalTokens > this.tokenLimit] *)
Definition shouldSummarize (estimatedTokens : nat) (cm : CM) : bool :=
  (tokenLimit cm <? Z.of_nat estimatedTokens)%Z ||
  (tokenLimit cm <? apiTotalTokens cm)%Z.

(** [summarizeMessages] after the test of [skipNextTokenCheck]. *)
Definition check_and_summarize (cm : CM) : CM :=
  let '(estimatedTokens, cm) := estimateTokens cm in
  if negb (shouldSummarize estimatedTokens cm) then cm
  else
    let cm :=
      emit (summarizeMessagesStarted estimatedTokens (apiTotalTokens cm)
              (tokenLimit cm)) cm in
    let userIndices := userIndices_of (messages cm) in
    if length userIndices <? 1 then
      emit (summarizeMessagesFinished_failed
              "Insufficient messages, cannot summarize.") cm
    else
      let '(newMessages, summaryCount, cm) :=
        summarize_rounds (messages cm) userIndices 0
          (option_list (messages cm !! 0)) 0 cm in
      let cm := set_messages newMessages cm in
      let cm := set_skipNextTokenCheck true cm in
      let '(newTokens, cm) := estimateTokens cm in
      emit (summarizeMessagesFinished_ok
              "Summary completed and API token count will update on next LLM call."
              estimatedTokens newTokens (length userIndices) summaryCount) cm.

Definition summarizeMessages (cm : CM) : CM :=
  if skipNextTokenCheck cm then set_skipNextTokenCheck false cm
  else check_and_summarize cm.

Definition getHistory (cm : CM) : list Message := messages cm.

(** *** The agent loop *)

(** The argument list of [tool.execute(...positionalArgs)]. *)
Definition positionalArgs (tool : Tool W) (callArgs : JsObject) : list JsValue :=
  match properties (parameters tool) with
  | Some props => map (fun key => js_get key callArgs) (Object_keys props)
  | None => map Value (Object_values callArgs)
  end.

(** The [if (!tool) .. else try .. catch ..] statement: the world after
    one tool call and its result. The [catch] block starts by reading
    [err.name]; the right injection is the error that this read throws,
    which leaves the block and [run] with it. *)
Definition execute_tool (functionName : string) (callArgs : JsObject) (cm : CM)
    : W * (ToolResult + JsError) :=
  match toolDict cm !! functionName with
  | None =>
      (world cm,
       inl (mkToolResult false EmptyString (Some ("Unknown tool: " +:+ functionName))))
  | Some tool =>
      match execute tool (positionalArgs tool callArgs) (world cm) with
      | (w, inl result) => (w, inl result)
      | (w, inr err) =>
          match read_property (fun e => (error_name e, error_message e, error_stack e))
                  "name" err with
          | inl (name, message, stack) =>
              let errorDetail := name +:+ ": " +:+ message in
              let errorTrace := default EmptyString stack in
              (w,
               inl (mkToolResult false EmptyString
                      (Some ("Tool execution failed: " +:+ errorDetail +:+ nl +:+ nl +:+
                             "Traceback:" +:+ nl +:+ errorTrace))))
          | inr typeError => (w, inr typeError)
          end
      end
  end.

(** The body of the loop over [response.tool_calls]: the state after it,
    and the error that leaves it, if one does. *)
Definition dispatch_tool_call (cm : CM) (toolCall : ToolCall) : CM * option JsError :=
  let toolCallId := id toolCall in
  let functionName := fn_name (function toolCall) in
  let callArgs := fn_arguments (function toolCall) in
  let cm := emit (toolCallStarted toolCallId functionName callArgs) cm in
  match execute_tool functionName callArgs cm with
  | (w, inl result) =>
      let cm := set_world w cm in
      let cm := emit (toolCallFinished (success result) toolCallId functionName result) cm in
      (addToolMessage result toolCallId functionName cm, None)
  | (w, inr error) => (set_world w cm, Some error)
  end.

(** The loop over [response.tool_calls]. *)
Fixpoint dispatch_tool_calls (cm : CM) (tool_calls : list ToolCall)
    : CM * option JsError :=
  match tool_calls with
  | [] => (cm, None)
  | toolCall :: rest =>
      match dispatch_tool_call cm toolCall with
      | (cm, None) => dispatch_tool_calls cm rest
      | (cm, Some error) => (cm, Some error)
      end
  end.

(** How one iteration of the [while] loop ends. *)
Inductive StepEnd : Type :=
| Returned
| NextStep
| Threw (error : JsError).

(** The body of the [while] loop of [run], up to [step += 1]. *)
Definition run_step (maxSteps step : nat) (cm : CM) : StepEnd * CM :=
  let cm := summarizeMessages cm in
  let cm := emit (stepStarted (step + 1) maxSteps) cm in
  match generate env (messages cm) (Some (tools cm)) (world cm) with
  | (w, inr error) =>
      let cm := set_world w cm in
      match error with
      | thrown (RetryExhaustedError lastException attempts) =>
          (Returned,
           emit (runFinished_failed
                   ("LLM call failed after " +:+ num_to_string attempts +:+ " retries.")
                   error) cm)
      | _ => (Returned, emit (runFinished_failed "LLM call failed." error) cm)
      end
  | (w, inl response) =>
      let cm := set_world w cm in
      let cm := emit (llmResponseReceived response) cm in
      let cm := updateApiTokens response cm in
      let cm := addAssistantMessage response cm in
      match resp_tool_calls response with
      | None | Some [] => (Returned, emit (runFinished_ok (resp_content response)) cm)
      | Some tool_calls =>
          match dispatch_tool_calls cm tool_calls with
          | (cm, None) => (NextStep, cm)
          | (cm, Some error) => (Threw error, cm)
          end
      end
  end.

(** The [while (step < maxSteps)] loop and the statements after it: the
    state when the promise of [run] settles, and the error it is rejected
    with, if it is. [fuel] bounds the number of iterations. *)
Fixpoint run_loop (fuel : nat) (maxSteps step : nat) (cm : CM) : CM * option JsError :=
  let max_steps_reached :=
    let errorMsg :=
      "Task couldn't be completed after " +:+ pretty maxSteps +:+ " steps." in
    (emit (runFinished_failed errorMsg (Error_ "Error" errorMsg None)) cm, None) in
  match fuel with
  | O => max_steps_reached
  | S fuel' =>
      if step <? maxSteps then
        match run_step maxSteps step cm with
        | (Returned, cm') => (cm', None)
        | (NextStep, cm') => run_loop fuel' maxSteps (step + 1) cm'
        | (Threw error, cm') => (cm', Some error)
        end
      else max_steps_reached
  end.

(** [Agent.run] *)
Definition run (maxSteps : nat) (cm : CM) : CM * option JsError :=
  run_loop maxSteps maxSteps 0 cm.
End Methods.

(** The states of a context manager that its constructor and methods, the
    events and the calls to the outside world can produce. *)
Inductive reachable {W : Type} (env : Env W) : ContextManager W -> Prop :=
| reach_new systemPrompt tools workspaceDir tokenLimit w :
    reachable env (new_ContextManager systemPrompt tools workspaceDir tokenLimit w)
| reach_addUserMessage content cm :
    reachable env cm -> reachable env (addUserMessage content cm)
| reach_addAssistantMessage response cm :
    reachable env cm -> reachable env (addAssistantMessage response cm)
| reach_addToolMessage result toolCallId name cm :
    reachable env cm -> reachable env (addToolMessage result toolCallId name cm)
| reach_updateApiTokens response cm :
    reachable env cm -> reachable env (updateApiTokens response cm)
| reach_summarizeMessages cm :
    reachable env cm -> reachable env (summarizeMessages env cm)
| reach_emit e cm :
    reachable env cm -> reachable env (emit e cm)
| reach_set_world w cm :
    reachable env cm -> reachable env (set_world w cm).

(** The tool-role message that [addToolMessage] appends. *)
Definition tool_message (content toolCallId name : string) : Schema.Message :=
  mkMessage "tool" (Text content) None None (Some toolCallId) (Some name).

(** The LLM request wrapped by the retry policy: what [generate] is once
    [asyncRetry(config, onRetry)] decorates the request method. The console
    output and the waits of the retry loop are not part of the agent's
    state. *)
Definition retrying_generate {W : Type} (Math_pow : float -> Z -> float)
    (config : Retry.RetryConfig)
    (onRetry : option (Thrown -> Z -> W -> W * option Thrown))
    (request : list Message -> option (list (Tool W)) -> W -> W * (LLMResponse + Thrown))
    : list Message -> option (list (Tool W)) -> W -> W * (LLMResponse + Thrown) :=
  fun msgs tools w =>
    let '(w', _, r) := Retry.asyncRetry Math_pow config onRetry (request msgs tools) w in
    (w', r).

End Agent.

(** ** Rounds

    The description of summarization by rounds: the history after the
    system message is cut at every user message; a round is a user message
    with the messages that follow it up to the next user message. *)
Module Rounds.
Import Schema Agent.

(** [split_rounds l] is the part of [l] before its first user message and
    the rounds of [l]. *)
Fixpoint split_rounds (l : list Message) : list Message * list (Message * list Message) :=
  match l with
  | [] => ([], [])
  | m :: l' =>
      let '(tail, rounds) := split_rounds l' in
      if decide (role m = "user") then ([], (m, tail) :: rounds)
      else (m :: tail, rounds)
  end.

Definition rounds_of (msgs : list Message) : list (Message * list Message) :=
  (split_rounds (drop 1 msgs)).2.

(** The positions of the user messages of [l], counted from [k]. *)
Fixpoint user_positions (k : nat) (l : list Message) : list nat :=
  match l with
  | [] => []
  | m :: l' =>
      if decide (role m = "user") then k :: user_positions (S k) l'
      else user_positions (S k) l'
  end.

Section Rebuild.
Context {W : Type}.
Variable env : Env W.

(** The two messages sent to the LLM for a transcript. *)
Definition summary_request (summaryContent : string) : list Message :=
  [mkMessage "system"
     (Text "You are an assistant skilled at summarizing Agent execution processes.")
     None None None None;
   mkMessage "user" (Text (summaryPrompt summaryContent)) None None None None].

(** The summary of a round's tail: the LLM's text, or the raw transcript
    when the LLM call fails. *)
Definition round_summary (tail : list Message) (roundNum : nat) (w : W) : string * W :=
  let summaryContent := transcript env tail roundNum in
  match generate env (summary_request summaryContent) None w with
  | (w', inl response) => (resp_content response, w')
  | (w', inr _) => (summaryContent, w')
  end.

(** The rebuilt history after the system message as the specification
    describes it: each round's user message, followed by one summary
    message when the round's tail is not empty. *)
Fixpoint spec_rebuild (roundNum : nat) (rounds : list (Message * list Message)) (w : W)
    : list Message :=
  match rounds with
  | [] => []
  | (user, []) :: rounds' => user :: spec_rebuild (S roundNum) rounds' w
  | (user, tail) :: rounds' =>
      let '(summaryText, w') := round_summary tail roundNum w in
      user :: summaryMessage summaryText :: spec_rebuild (S roundNum) rounds' w'
  end.

(** The rebuilt history after the system message as the loop of
    [summarizeMessages] builds it: an empty summary text adds no
    message. *)
Fixpoint rebuilt_rounds (roundNum : nat) (rounds : list (Message * list Message)) (w : W)
    : list Message :=
  match rounds with
  | [] => []
  | (user, []) :: rounds' => user :: rebuilt_rounds (S roundNum) rounds' w
  | (user, tail) :: rounds' =>
      let '(summaryText, w') := round_summary tail roundNum w in
      if String.eqb summaryText EmptyString
      then user :: rebuilt_rounds (S roundNum) rounds' w'
      else user :: summaryMessage summaryText :: rebuilt_rounds (S roundNum) rounds' w'
  end.
End Rebuild.

End Rounds.

(** ** Concrete collaborators used in the examples *)
Module Examples.
Import Schema Agent.

(** An engine that computes an integral power by repeated multiplication. *)
Definition repeated_product (base : float) (exponent : Z) : float :=
  match exponent with
  | Z0 => 1%float
  | Z.pos n => Pos.iter (fun x => (x * base)%float) 1%float n
  | Z.neg n => (1 / Pos.iter (fun x => (x * base)%float) 1%float n)%float
  end.

(** A first delay of a tenth of a second, tripled at every attempt. *)
Definition tenth_then_triple : Retry.RetryConfig :=
  Retry.mkRetryConfig true 3 0x1.999999999999ap-4%float 60%float 3%float ["Error"].

(** No first delay, and a base whose square is beyond the largest number. *)
Definition huge_base : Retry.RetryConfig :=
  Retry.mkRetryConfig true 3 0%float 60%float 0x1p1000%float ["Error"].

(** An LLM request that always throws, counting its calls in the world. *)
Definition failing_request {A : Type} (message : string) (w : nat) : nat * (A + Thrown) :=
  (S w, inr (thrown (Error_ "Error" message None))).

(** A request that always rejects with [null], as [Promise.reject(null)]
    does. *)
Definition null_request {A : Type} (w : nat) : nat * (A + Thrown) :=
  (S w, inr thrown_null).

(** An LLM that answers every request with an empty text. *)
Definition silent_llm : Env unit :=
  mkEnv (Some (fun s => Some (String.length s))) (fun _ => "{}")
    (fun _ _ w => (w, inl (mkLLMResponse EmptyString None None "stop" None))).

(** A history of one round: the system prompt, a user message and the
    assistant's answer; the token limit is exceeded by any history. *)
Definition one_round : ContextManager unit :=
  mkContextManager 0%Z [] ∅
    [mkMessage "system" (Text "S") None None None None;
     mkMessage "user" (Text "hi") None None None None;
     mkMessage "assistant" (Text "hello") None None None None]
    0%Z false [] tt.

(** An LLM that answers every request with the text "done". *)
Definition terse_llm : Env unit :=
  mkEnv (Some (fun s => Some (String.length s))) (fun _ => "{}")
    (fun _ _ w => (w, inl (mkLLMResponse "done" None None "stop" None))).

(** A history without any user message. *)
Definition no_user_yet : ContextManager unit :=
  mkContextManager 0%Z [] ∅
    [mkMessage "system" (Text "S") None None None None;
     mkMessage "assistant" (Text "hello") None None None None]
    0%Z false [] tt.

(** An agent whose LLM request always throws and is retried with the
    default retry configuration; the world counts the requests. *)
Definition unreachable_llm : Env nat :=
  mkEnv (Some (fun s => Some (String.length s))) (fun _ => "{}")
    (retrying_generate repeated_product Retry.default_config None
       (fun _ _ => failing_request "boom")).

(** An agent whose LLM request always rejects with [null] and is retried
    with the default retry configuration. *)
Definition null_llm : Env nat :=
  mkEnv (Some (fun s => Some (String.length s))) (fun _ => "{}")
    (retrying_generate repeated_product Retry.default_config None (fun _ _ => null_request)).

Definition fresh_conversation : ContextManager nat :=
  mkContextManager 80000%Z [] ∅
    [mkMessage "system" (Text "S") None None None None;
     mkMessage "user" (Text "hi") None None None None]
    0%Z false [] 0.

(** A tool that throws, a tool that records the arguments it receives in
    the world, and a context manager that knows both. *)
Definition throwing_tool : Tool (list (list JsValue)) :=
  mkTool "explode" "always throws" (mkToolParameters None [])
    (fun _ w =>
       (w, inr (thrown (Error_ "TypeError" "bad input" (Some "at explode (tool.js:1)"))))).

(** A tool that throws [null]. *)
Definition null_tool : Tool (list (list JsValue)) :=
  mkTool "void" "throws null" (mkToolParameters None [])
    (fun _ w => (w, inr thrown_null)).

Definition recording_tool : Tool (list (list JsValue)) :=
  mkTool "write_file" "records its arguments"
    (mkToolParameters (Some [("path", JObj [("type", JStr "string")]);
                             ("content", JObj [("type", JStr "string")]);
                             ("mode", JObj [("type", JStr "string")])]) [])
    (fun args w => (args :: w, inl (mkToolResult true "ok" None))).

Definition workshop : ContextManager (list (list JsValue)) :=
  mkContextManager 80000%Z [throwing_tool; recording_tool]
    (<["write_file" := recording_tool]> (<["explode" := throwing_tool]> ∅))
    [mkMessage "system" (Text "S") None None None None;
     mkMessage "user" (Text "hi") None None None None]
    0%Z false [] [].

(** An LLM that asks for one call of the tool ["foo"]. *)
Definition foo_call : ToolCall :=
  mkToolCall "call_1" "function" (mkFunctionCall "foo" []).

Definition explode_call : ToolCall :=
  mkToolCall "call_2" "function" (mkFunctionCall "explode" []).

(** The arguments arrive in another order than the schema declares, and
    ["mode"] is missing. *)
Definition write_call : ToolCall :=
  mkToolCall "call_3" "function"
    (mkFunctionCall "write_file" [("content", JStr "x"); ("path", JStr "a.txt")]).








(** A conversation whose only tool throws [null]. *)
Definition careless_workshop : ContextManager (list (list JsValue)) :=
  new_ContextManager "S" [null_tool] "/work" 80000%Z [].

Definition void_call : ToolCall :=
  mkToolCall "call_4" "function" (mkFunctionCall "void" []).

(** An LLM that answers a request without tools, as a summary request
    is, with the text "done", and a request with tools with an empty text
    and a call of the tool ["foo"]. *)
Definition terse_summarizer : Env unit :=
  mkEnv (Some (fun s => Some (String.length s))) (fun _ => "{}")
    (fun _ tools w =>
       match tools with
       | None => (w, inl (mkLLMResponse "done" None None "stop" None))
       | Some _ =>
           (w, inl (mkLLMResponse EmptyString None (Some [foo_call]) "tool_calls" None))
       end).

Definition asks_for_foo : Env (list (list JsValue)) :=
  mkEnv (Some (fun s => Some (String.length s))) (fun _ => "{}")
    (fun _ _ w => (w, inl (mkLLMResponse EmptyString None (Some [foo_call]) "tool_calls" None))).

(** An LLM that asks for one call of the tool ["void"] and then one of
    ["foo"]. *)
Definition asks_for_void : Env (list (list JsValue)) :=
  mkEnv (Some (fun s => Some (String.length s))) (fun _ => "{}")
    (fun _ _ w =>
       (w, inl (mkLLMResponse EmptyString None (Some [void_call; foo_call])
                  "tool_calls" None))).

(** A tokenizer that, like tiktoken's [encode] with its default
    arguments, throws on a text that is a special token; elsewhere it
    counts one token for any text that is not empty. *)
Definition picky_tokenizer : Env unit :=
  mkEnv (Some (fun s => if String.eqb s "<|endoftext|>" then None
                        else Some (if String.eqb s EmptyString then 0 else 1)))
    (fun _ => "{}")
    (fun _ _ w => (w, inr (thrown (Error_ "Error" "offline" None)))).

Definition short_history : ContextManager unit :=
  mkContextManager 80000%Z [] ∅
    [mkMessage "system" (Text "S") None None None None;
     mkMessage "user" (Text "hi") None None None None]
    0%Z false [] tt.

Definition special_token_message : Message :=
  mkMessage "user" (Text "<|endoftext|>") None None None None.

End Examples.

(** ** What the logs show

    Readings of the retry log and of the event log, and the quantities the
    statements about them need. *)
Module Observations.
Import Schema Agent.

(** The waits of the retry loop, in milliseconds, as passed to
    [setTimeout]. *)
Definition sleeps (log : list Retry.RetryEffect) : list float :=
  omap (fun ef => match ef with Retry.Sleep ms => Some ms | _ => None end) log.

(** The calls of the [onRetry] callback: the error and the attempt number
    it receives. *)
Definition callbacks (log : list Retry.RetryEffect) : list (Thrown * Z) :=
  omap (fun ef => match ef with Retry.OnRetry e a => Some (e, a) | _ => None end) log.

(** The calls of the operation and the waits, in the order of the log. *)
Inductive Beat : Type :=
| Call
| Wait.

Definition beats (log : list Retry.RetryEffect) : list Beat :=
  omap (fun ef => match ef with
                  | Retry.Invoked _ => Some Call
                  | Retry.Sleep _ => Some Wait
                  | _ => None
                  end) log.

(** A log in which calls and waits alternate, from the first call to the
    last. *)
Definition alternation (calls : nat) : list Beat :=
  match calls with
  | O => []
  | S waits => Call :: concat (replicate waits [Wait; Call])
  end.

(** The calls of the callback and the waits, in the order of the log. *)
Definition protocol (log : list Retry.RetryEffect) : list (Thrown * Z + float) :=
  omap (fun ef => match ef with
                  | Retry.OnRetry e a => Some (inl (e, a))
                  | Retry.Sleep ms => Some (inr ms)
                  | _ => None
                  end) log.

(** Thrown values with the attempt numbers that follow [attempt]. *)
Definition numbered (attempt : Z) (thrown : list Thrown) : list (Thrown * Z) :=
  imap (fun i e => (e, (attempt + 1 + Z.of_nat i)%Z)) thrown.

(** Each callback followed by the wait of the same rank. *)
Definition callback_then_wait (cbs : list (Thrown * Z)) (waits : list float)
    : list (Thrown * Z + float) :=
  concat (zip_with (fun cb ms => [inl cb; inr ms]) cbs waits).

Definition is_runFinished (e : AgentEvent) : bool :=
  match e with
  | runFinished_ok _ | runFinished_failed _ _ => true
  | _ => false
  end.

Definition is_stepStarted (e : AgentEvent) : bool :=
  match e with
  | stepStarted _ _ => true
  | _ => false
  end.

(** The step numbers announced by the [stepStarted] events. *)
Definition step_numbers (evs : list AgentEvent) : list nat :=
  omap (fun e => match e with stepStarted n _ => Some n | _ => None end) evs.

(** The round numbers reported by the [createSummaryFinished] events. *)
Definition summary_round_numbers (evs : list AgentEvent) : list nat :=
  omap (fun e => match e with
                 | createSummaryFinished_ok _ n _
                 | createSummaryFinished_failed _ n _ => Some n
                 | _ => None
                 end) evs.

(** The numbers, counted from [roundNum], of the rounds whose tail is not
    empty. *)
Fixpoint nonempty_round_numbers (roundNum : nat)
    (rounds : list (Message * list Message)) : list nat :=
  match rounds with
  | [] => []
  | (_, []) :: rounds' => nonempty_round_numbers (S roundNum) rounds'
  | (_, _ :: _) :: rounds' => roundNum :: nonempty_round_numbers (S roundNum) rounds'
  end.

(** The events that [summarizeMessages] and the methods it calls emit. *)
Definition is_summarization_event (e : AgentEvent) : bool :=
  match e with
  | tokenEstimationFallbacked
  | summarizeMessagesStarted _ _ _
  | summarizeMessagesFinished_ok _ _ _ _ _
  | summarizeMessagesFinished_failed _
  | createSummaryFinished_ok _ _ _
  | createSummaryFinished_failed _ _ _ => true
  | _ => false
  end.

(** The events of tool dispatch. *)
Definition is_tool_event (e : AgentEvent) : bool :=
  match e with
  | toolCallStarted _ _ _ | toolCallFinished _ _ _ _ => true
  | _ => false
  end.

(** The events that neither start a step nor finish the run. *)
Definition is_quiet (e : AgentEvent) : bool :=
  negb (is_runFinished e) && negb (is_stepStarted e).

(** The fields of a context manager that only its constructor sets. *)
Definition same_setup {W : Type} (cm cm' : ContextManager W) : Prop :=
  tokenLimit cm' = tokenLimit cm /\ tools cm' = tools cm /\ toolDict cm' = toolDict cm.

(** A tool that throws neither [null] nor [undefined], and a registry of
    such tools. *)
Definition throws_objects {W : Type} (tool : Tool W) : Prop :=
  forall args w w',
    execute tool args w <> (w', inr thrown_null) /\
    execute tool args w <> (w', inr thrown_undefined).

Definition registry_throws_objects {W : Type} (cm : ContextManager W) : Prop :=
  forall name tool, toolDict cm !! name = Some tool -> throws_objects tool.

(** The tools of a list that carry a given name. *)
Definition tools_named {W : Type} (name : string) (tools : list (Tool W))
    : list (Tool W) :=
  filter (fun tool => tool_name tool = name) tools.

End Observations.

(** ** Further scenarios *)
Module Scenarios.
Import Schema Agent.

(** A request that throws at its first [failures] calls and answers from
    then on; the world counts the calls. *)
Definition flaky_request (failures : nat) (w : nat) : nat * (string + Thrown) :=
  if w <? failures then (S w, inr (thrown (Error_ "Error" ("timeout " +:+ pretty w) None)))
  else (S w, inl "pong").

(** An observer that leaves the world alone. *)
Definition quiet_observer : option (Thrown -> Z -> nat -> nat * option Thrown) :=
  Some (fun _ _ w => (w, None)).

(** A conversation right after its first user message. *)
Definition greeted : ContextManager nat :=
  addUserMessage "hi" (new_ContextManager "You are helpful." [] "/work" 80000%Z 0).

(** An LLM that answers "hello" and asks for no tool. *)
Definition hello_llm : Env nat :=
  mkEnv (Some (fun s => Some (String.length s))) (fun _ => "{}")
    (fun _ _ w => (S w, inl (mkLLMResponse "hello" (Some "greet back") None "stop"
                               (Some (mkTokenUsage 7 2 9))))).

End Scenarios.

(** * Properties *)

(** ** Numbers *)
Section NumberFacts.
Import Number.

Lemma SFcompare_refl (x : spec_float) : x <> S754_nan -> SFcompare x x = Some Eq.
Proof.
  destruct x as [s|s| |s m e]; intros Hx; try done.
  - by destruct s.
  - simpl. rewrite Z.compare_refl, Pos.compare_cont_refl. by destruct s.
Qed.

Lemma SFcompare_antisym (x y : spec_float) :
  SFcompare y x = CompOpp <$> SFcompare x y.
Proof.
  destruct x as [sx|sx| |sx mx ex], y as [sy|sy| |sy my ey]; simpl; try done;
    try (by destruct sx); try (by destruct sy); try (by destruct sx, sy).
  rewrite (Z.compare_antisym ex ey).
  replace (PosDef.Pos.compare_cont Eq my mx) with (CompOpp (PosDef.Pos.compare_cont Eq mx my))
    by (symmetry; apply (Pos.compare_antisym mx my)).
  destruct sx, sy; simpl; try done;
    by destruct (ex ?= ey)%Z, (PosDef.Pos.compare_cont Eq mx my).
Qed.

Lemma is_nan_spec (x : float) : is_nan x = true <-> Prim2SF x = S754_nan.
Proof.
  unfold is_nan. rewrite FloatAxioms.eqb_spec. unfold SFeqb. split.
  - intros H. destruct (Prim2SF x) as [s|s| |s m e] eqn:E; [| |done|];
      by rewrite SFcompare_refl in H.
  - by intros ->.
Qed.

Lemma is_nan_false (x : float) : is_nan x = false <-> Prim2SF x <> S754_nan.
Proof. rewrite <- is_nan_spec. by destruct (is_nan x). Qed.

Lemma leb_refl (x : float) : is_nan x = false -> (x <=? x)%float = true.
Proof.
  intros Hx. apply is_nan_false in Hx. rewrite FloatAxioms.leb_spec. unfold SFleb.
  by rewrite SFcompare_refl.
Qed.

Lemma not_ltb_leb (x y : float) :
  is_nan x = false -> is_nan y = false -> (y <? x)%float = false -> (x <=? y)%float = true.
Proof.
  intros Hx Hy. apply is_nan_false in Hx, Hy. rewrite FloatAxioms.ltb_spec, FloatAxioms.leb_spec.
  unfold SFltb, SFleb. rewrite (SFcompare_antisym (Prim2SF y) (Prim2SF x)).
  destruct (SFcompare (Prim2SF y) (Prim2SF x)) as [[]|] eqn:E; simpl; try done.
  by destruct (Prim2SF x) as [sx|sx| |sx mx ex], (Prim2SF y) as [sy|sy| |sy my ey].
Qed.

Lemma below_infinity (x : float) :
  is_nan x = false -> (x <? infinity)%float = false -> x = infinity.
Proof.
  intros Hx Hlt. apply is_nan_false in Hx. rewrite FloatAxioms.ltb_spec in Hlt.
  apply Prim2SF_inj. change (Prim2SF infinity) with (S754_infinity false).
  unfold SFltb in Hlt. change (Prim2SF infinity) with (S754_infinity false) in Hlt.
  destruct (Prim2SF x) as [sx|sx| |sx mx ex]; try done; simpl in Hlt.
  - by destruct sx.
Qed.

(** [Math.min] of two numbers: [NaN] when one of them is, else one of the
    two, which the other is not below. *)
Lemma Math_min_pair (x y : float) :
  if is_nan x || is_nan y then Math_min [x; y] = nan
  else (Math_min [x; y] = x /\ (y <? x)%float = false) \/
       (Math_min [x; y] = y /\ (y <=? x)%float = true).
Proof.
  unfold Math_min. simpl.
  change (is_zero infinity) with false. rewrite andb_false_r. simpl.
  destruct (is_nan x) eqn:Hx; [done|]. simpl.
  assert ((if (x <? infinity)%float then Some x else Some infinity) = Some x) as ->.
  { destruct (x <? infinity)%float eqn:E; [done|]. by rewrite (below_infinity x). }
  simpl. destruct (is_nan y) eqn:Hy; [done|].
  destruct (is_zero y && get_sign y && is_zero x && negb (get_sign x)) eqn:Hz.
  - right. split; [done|].
    apply andb_prop in Hz as [Hz _]. apply andb_prop in Hz as [Hz Hzx].
    apply andb_prop in Hz as [Hzy _]. unfold is_zero in *.
    rewrite FloatAxioms.eqb_spec in Hzy, Hzx. rewrite FloatAxioms.leb_spec. unfold SFeqb, SFleb in *.
    change (Prim2SF zero) with (S754_zero false) in *.
    destruct (Prim2SF x) as [sx|sx| |sx mx ex], (Prim2SF y) as [sy|sy| |sy my ey];
      simpl in *; try done; try (by destruct sx); try (by destruct sy).
  - destruct (y <? x)%float eqn:Hlt.
    + right. split; [done|]. rewrite FloatAxioms.ltb_spec in Hlt. rewrite FloatAxioms.leb_spec.
      unfold SFltb, SFleb in *. by destruct (SFcompare _ _) as [[]|].
    + by left.
Qed.

Lemma Math_min_capped (x y : float) :
  is_nan (Math_min [x; y]) = true \/ (Math_min [x; y] <=? y)%float = true.
Proof.
  pose proof (Math_min_pair x y) as H.
  destruct (is_nan x) eqn:Hx; [left; by rewrite H|].
  destruct (is_nan y) eqn:Hy; [left; by rewrite H|].
  simpl in H. right. destruct H as [[-> Hlt] | [-> _]].
  - by apply not_ltb_leb.
  - by apply leb_refl.
Qed.

(** *** Finite numbers as real numbers *)

Lemma digits2_pos_bounds (m : positive) :
  (2 ^ (Z.pos (digits2_pos m) - 1) <= Z.pos m < 2 ^ Z.pos (digits2_pos m))%Z.
Proof.
  induction m as [m IH|m IH|]; simpl digits2_pos; [| |done].
  - rewrite Pos2Z.inj_succ. replace (Z.succ (Z.pos (digits2_pos m)) - 1)%Z
      with (Z.succ (Z.pos (digits2_pos m) - 1)) by lia.
    rewrite !Z.pow_succ_r by lia. lia.
  - rewrite Pos2Z.inj_succ. replace (Z.succ (Z.pos (digits2_pos m)) - 1)%Z
      with (Z.succ (Z.pos (digits2_pos m) - 1)) by lia.
    rewrite !Z.pow_succ_r by lia. lia.
Qed.

Lemma magnitude_pos (m : positive) (e : Z) : (0 < magnitude m e)%Q.
Proof.
  unfold magnitude. apply Qmult_lt_0_compat; [|by apply Qpower_0_lt].
  rewrite <- (Zlt_Qlt 0). lia.
Qed.

Lemma magnitude_shift (m : positive) (e d : Z) :
  (0 <= d)%Z -> (magnitude m (e + d) == inject_Z (Z.pos m * 2 ^ d) * 2 ^ e)%Q.
Proof.
  intros Hd. unfold magnitude. rewrite Qpower_plus by done.
  rewrite inject_Z_mult, (Zpower_Qpower 2 d) by done.
  change (inject_Z 2) with 2%Q.
  generalize (2 ^ e)%Q (2 ^ d)%Q (inject_Z (Z.pos m)). intros a b c. ring.
Qed.

Lemma magnitude_compare_same (m1 m2 : Z) (e : Z) :
  ((inject_Z m1 * 2 ^ e ?= inject_Z m2 * 2 ^ e)%Q) = (m1 ?= m2)%Z.
Proof.
  assert (0 < 2 ^ e)%Q as Hp by (by apply Qpower_0_lt).
  destruct (Z.compare_spec m1 m2) as [->|Hlt|Hgt].
  - by apply (proj1 (Qeq_alt _ _)).
  - apply (proj1 (Qlt_alt _ _)), Qmult_lt_r; [done|]. by rewrite <- Zlt_Qlt.
  - apply (proj1 (Qgt_alt _ _)), Qmult_lt_r; [done|]. by rewrite <- Zlt_Qlt.
Qed.

Lemma bounded_digits (m : positive) (e : Z) :
  bounded prec emax m e = true ->
  (Z.pos (digits2_pos m) <= prec)%Z /\
  (SpecFloat.emin prec emax <= e)%Z /\
  ((SpecFloat.emin prec emax < e)%Z -> Z.pos (digits2_pos m) = prec).
Proof.
  unfold bounded, canonical_mantissa, fexp. intros H.
  apply andb_prop in H as [H _]. apply Z.eqb_eq in H. lia.
Qed.

Lemma magnitude_lt (m1 m2 : positive) (e1 e2 : Z) :
  bounded prec emax m1 e1 = true -> bounded prec emax m2 e2 = true ->
  (e1 < e2)%Z -> (magnitude m1 e1 < magnitude m2 e2)%Q.
Proof.
  intros H1 H2 He.
  destruct (bounded_digits m1 e1 H1) as (Hd1 & Hm1 & _).
  destruct (bounded_digits m2 e2 H2) as (_ & _ & Hd2). specialize (Hd2 ltac:(lia)).
  pose proof (digits2_pos_bounds m1) as [_ Hu].
  pose proof (digits2_pos_bounds m2) as [Hl _]. rewrite Hd2 in Hl.
  replace e2 with (e1 + (e2 - e1))%Z by lia.
  rewrite magnitude_shift by lia. unfold magnitude.
  apply (proj2 (Qlt_alt _ _)). rewrite magnitude_compare_same. apply Z.compare_lt_iff.
  assert (2 ^ Z.pos (digits2_pos m1) <= 2 ^ prec)%Z by (apply Z.pow_le_mono_r; lia).
  assert (2 ^ 1 <= 2 ^ (e2 - e1))%Z by (apply Z.pow_le_mono_r; lia).
  change (2 ^ prec)%Z with (2 * 2 ^ (prec - 1))%Z in *. nia.
Qed.

Lemma magnitude_compare (m1 m2 : positive) (e1 e2 : Z) :
  bounded prec emax m1 e1 = true -> bounded prec emax m2 e2 = true ->
  (magnitude m1 e1 ?= magnitude m2 e2)%Q =
  match (e1 ?= e2)%Z with
  | Eq => PosDef.Pos.compare_cont Eq m1 m2
  | Lt => Lt
  | Gt => Gt
  end.
Proof.
  intros H1 H2. destruct (Z.compare_spec e1 e2) as [->|Hlt|Hgt].
  - unfold magnitude. by rewrite magnitude_compare_same.
  - by apply (proj1 (Qlt_alt _ _)), magnitude_lt.
  - by apply (proj1 (Qgt_alt _ _)), magnitude_lt.
Qed.

(** On finite numbers the comparison of the engine is the comparison of
    the real numbers. *)
Lemma SFcompare_real (x y : spec_float) (qx qy : Q) :
  valid_binary x = true -> valid_binary y = true ->
  SF2Q x = Some qx -> SF2Q y = Some qy ->
  SFcompare x y = Some (qx ?= qy)%Q.
Proof.
  intros Hvx Hvy Hx Hy.
  destruct x as [sx|sx| |sx mx ex], y as [sy|sy| |sy my ey]; try done;
    simpl in Hx, Hy; injection Hx as <-; injection Hy as <-; simpl; f_equal.
  - pose proof (magnitude_pos my ey) as Hp. fold (magnitude my ey).
    set (b := magnitude my ey) in *. clearbody b.
    destruct sy; symmetry; [apply (proj1 (Qgt_alt _ _)) | apply (proj1 (Qlt_alt _ _))]; lra.
  - pose proof (magnitude_pos mx ex) as Hp. fold (magnitude mx ex).
    set (a := magnitude mx ex) in *. clearbody a.
    destruct sx; symmetry; [apply (proj1 (Qlt_alt _ _)) | apply (proj1 (Qgt_alt _ _))]; lra.
  - pose proof (magnitude_pos mx ex) as Hpx. pose proof (magnitude_pos my ey) as Hpy.
    pose proof (magnitude_compare mx my ex ey Hvx Hvy) as Hc.
    fold (magnitude mx ex) (magnitude my ey).
    set (a := magnitude mx ex) in *. set (b := magnitude my ey) in *. clearbody a b.
    destruct sx, sy.
    + assert ((- a ?= - b)%Q = CompOpp (a ?= b)%Q) as ->.
      { destruct (Qcompare_spec a b) as [E|E|E]; simpl;
          [apply (proj1 (Qeq_alt _ _)) | apply (proj1 (Qgt_alt _ _))
          | apply (proj1 (Qlt_alt _ _))]; lra. }
      rewrite Hc. by destruct (ex ?= ey)%Z.
    + symmetry. apply (proj1 (Qlt_alt _ _)). lra.
    + symmetry. apply (proj1 (Qgt_alt _ _)). lra.
    + by rewrite Hc.
Qed.

Lemma ltb_real (x y : float) (qx qy : Q) :
  real x = Some qx -> real y = Some qy ->
  (x <? y)%float = true <-> (qx < qy)%Q.
Proof.
  intros Hx Hy. rewrite FloatAxioms.ltb_spec. unfold SFltb.
  rewrite (SFcompare_real _ _ qx qy (Prim2SF_valid x) (Prim2SF_valid y) Hx Hy).
  rewrite Qlt_alt. by destruct (qx ?= qy)%Q.
Qed.

Lemma leb_real (x y : float) (qx qy : Q) :
  real x = Some qx -> real y = Some qy ->
  (x <=? y)%float = true <-> (qx <= qy)%Q.
Proof.
  intros Hx Hy. rewrite FloatAxioms.leb_spec. unfold SFleb.
  rewrite (SFcompare_real _ _ qx qy (Prim2SF_valid x) (Prim2SF_valid y) Hx Hy).
  rewrite Qle_alt. by destruct (qx ?= qy)%Q.
Qed.

Lemma real_not_nan (x : float) (q : Q) : real x = Some q -> is_nan x = false.
Proof.
  intros Hx. apply is_nan_false. intros Hn. unfold real in Hx. by rewrite Hn in Hx.
Qed.

(** [Math.min] of two finite numbers is the minimum of the real numbers. *)
Lemma Math_min_real (x y : float) (qx qy : Q) :
  real x = Some qx -> real y = Some qy ->
  exists q, real (Math_min [x; y]) = Some q /\ (q == Qmin qx qy)%Q.
Proof.
  intros Hx Hy. pose proof (Math_min_pair x y) as H.
  rewrite (real_not_nan x qx Hx), (real_not_nan y qy Hy) in H. simpl in H.
  destruct H as [[-> Hlt] | [-> Hle]].
  - exists qx. split; [done|]. symmetry. apply Q.min_l.
    apply Qnot_lt_le. intros Hq. apply (ltb_real y x qy qx Hy Hx) in Hq. congruence.
  - exists qy. split; [done|]. symmetry. apply Q.min_r.
    by apply (leb_real y x qy qx Hy Hx).
Qed.
End NumberFacts.


(** ** The retry policy *)
Section RetryFacts.
Import Retry.
Local Open Scope Z_scope.
Context {W A : Type}.
Variable Math_pow : float -> Z -> float.
Variable config : RetryConfig.
Variable onRetry : option (Thrown -> Z -> W -> W * option Thrown).
Variable originalMethod : W -> W * (A + Thrown).

Lemma thrown_errors_app (l1 l2 : list RetryEffect) :
  thrown_errors (l1 ++ l2) = thrown_errors l1 ++ thrown_errors l2.
Proof. apply omap_app. Qed.

Lemma invocations_app (l1 l2 : list RetryEffect) :
  invocations (l1 ++ l2) = (invocations l1 + invocations l2)%nat.
Proof. unfold invocations. by rewrite omap_app, length_app. Qed.

(** Fuel beyond the number of iterations left is never used: the base
    case of [retry_loop] is reached only when the loop condition fails. *)
Lemma retry_loop_fuel (fuel : nat) :
  forall attempt lastException w log,
    (Z.to_nat (maxRetries config + 1 - attempt) <= fuel)%nat ->
    retry_loop Math_pow config onRetry originalMethod fuel attempt lastException w log =
    retry_loop Math_pow config onRetry originalMethod
      (Z.to_nat (maxRetries config + 1 - attempt)) attempt lastException w log.
Proof.
  induction fuel as [|fuel IH]; intros attempt lastException w log Hfuel.
  - by replace (Z.to_nat (maxRetries config + 1 - attempt)) with 0%nat by lia.
  - destruct (Z.to_nat (maxRetries config + 1 - attempt)) as [|k] eqn:Hk.
    + simpl. destruct (Z.leb_spec attempt (maxRetries config)); [lia | done].
    + simpl. destruct (Z.leb_spec attempt (maxRetries config)); [|done].
      destruct (originalMethod w) as [w1 [v|exception]]; [done|].
      destruct (Z.geb_spec attempt (maxRetries config)); [done|].
      destruct (read_property error_message "message" exception) as [message|typeError];
        [|done].
      destruct onRetry as [f|].
      * destruct (f exception (attempt + 1) w1) as [w2 [t|]]; [done|].
        rewrite IH by lia.
        by replace (Z.to_nat (maxRetries config + 1 - (attempt + 1))) with k by lia.
      * rewrite IH by lia.
        by replace (Z.to_nat (maxRetries config + 1 - (attempt + 1))) with k by lia.
Qed.

(** With a negative [maxRetries] the loop body never runs: the operation
    is not called and the statements after the loop throw. *)
Lemma asyncRetry_negative_maxRetries (w : W) :
  maxRetries config < 0 ->
  asyncRetry Math_pow config onRetry originalMethod w =
    (w, [], inr (thrown (Error_ "Error" "Unknown error" None))).
Proof.
  intros Hneg. unfold asyncRetry.
  destruct (Z.to_nat (maxRetries config + 1)) as [|fuel]; [done|].
  simpl. by destruct (Z.leb_spec 0 (maxRetries config)); [lia|].
Qed.
End RetryFacts.

Section BackoffFacts.
Import Retry.

(** The loop consults the configuration only through [maxRetries] and
    [calculateDelay]. *)
Lemma retry_loop_ignores_enabled {W A : Type} (Math_pow : float -> Z -> float)
    (c : RetryConfig) (b1 b2 : bool)
    (onRetry : option (Thrown -> Z -> W -> W * option Thrown))
    (originalMethod : W -> W * (A + Thrown)) (fuel : nat) :
  forall attempt lastException w log,
    retry_loop Math_pow (with_enabled b1 c) onRetry originalMethod fuel attempt
      lastException w log =
    retry_loop Math_pow (with_enabled b2 c) onRetry originalMethod fuel attempt
      lastException w log.
Proof.
  induction fuel as [|fuel IH]; intros attempt lastException w log; [done|].
  simpl. destruct (attempt <=? maxRetries c)%Z; [|done].
  destruct (originalMethod w) as [w1 [v|exception]]; [done|].
  destruct (attempt >=? maxRetries c)%Z; [done|].
  destruct (read_property error_message "message" exception) as [message|typeError];
    [|done].
  destruct onRetry as [f|].
  - destruct (f exception (attempt + 1)%Z w1) as [w2 [t|]]; [done|]. apply IH.
  - apply IH.
Qed.

Lemma with_enabled_id (c : RetryConfig) : with_enabled (enabled c) c = c.
Proof. by destruct c. Qed.
End BackoffFacts.

Section DelayFacts.
Import Retry Number.

Lemma spec_delay_min (initial base cap : Q) (i : nat) :
  (spec_delay initial base cap i == Qmin (initial * Qpow_nat base i) cap)%Q.
Proof.
  unfold spec_delay. cbv zeta.
  destruct (Qle_bool (initial * Qpow_nat base i) cap) eqn:E.
  - apply Qle_bool_iff in E. symmetry. by apply Q.min_l.
  - assert (~ (initial * Qpow_nat base i <= cap)%Q) as Hn.
    { intros Hle. apply Qle_bool_iff in Hle. congruence. }
    apply Qnot_le_lt in Hn. symmetry. apply Q.min_r. by apply Qlt_le_weak.
Qed.

(** The delay is never above [maxDelay]: it is [NaN] or at most
    [maxDelay]. *)
Lemma calculateDelay_capped (Math_pow : float -> Z -> float) (c : RetryConfig)
    (attempt : Z) :
  is_nan (calculateDelay Math_pow c attempt) = true \/
  (calculateDelay Math_pow c attempt <=? maxDelay c)%float = true.
Proof. apply Math_min_capped. Qed.

(** Where neither the power nor the product is rounded, the delay is the
    one of the backoff rule. *)
Lemma calculateDelay_exact (Math_pow : float -> Z -> float) (c : RetryConfig) (i : nat)
    (initial base cap power product : Q) :
  real (maxDelay c) = Some cap ->
  real (Math_pow (exponentialBase c) (Z.of_nat i)) = Some power ->
  (power == Qpow_nat base i)%Q ->
  real (initialDelay c * Math_pow (exponentialBase c) (Z.of_nat i))%float = Some product ->
  (product == initial * power)%Q ->
  exists delay,
    real (calculateDelay Math_pow c (Z.of_nat i)) = Some delay /\
    (delay == spec_delay initial base cap i)%Q.
Proof.
  intros Hcap Hpower Hexact Hproduct Hmul. unfold calculateDelay. cbv zeta.
  destruct (Math_min_real _ _ product cap Hproduct Hcap) as (delay & Hreal & Hmin).
  exists delay. split; [done|].
  by rewrite Hmin, spec_delay_min, Hmul, Hexact.
Qed.
End DelayFacts.

(** C5, as stated, fails where the product is rounded or is not a number.
    With [initialDelay = 0.1] and [exponentialBase = 3] the delay of
    attempt 1 is the number nearest to the product, which is not the
    product of the backoff rule; with [initialDelay = 0] and a base whose
    square is [Infinity] the delay of attempt 2 is [NaN], where the rule
    gives 0. *)
Lemma rounding_breaks_the_backoff_rule :
  let pow := Examples.repeated_product in
  (let c := Examples.tenth_then_triple in
   exists initial base cap delay : Q,
     Number.real (Retry.initialDelay c) = Some initial /\
     Number.real (Retry.exponentialBase c) = Some base /\
     Number.real (Retry.maxDelay c) = Some cap /\
     pow (Retry.exponentialBase c) 1%Z = Retry.exponentialBase c /\
     Retry.calculateDelay pow c 1%Z = 0x1.3333333333334p-2%float /\
     Number.real (Retry.calculateDelay pow c 1%Z) = Some delay /\
     ~ (delay == Retry.spec_delay initial base cap 1)%Q) /\
  (let c := Examples.huge_base in
   exists initial base cap : Q,
     Number.real (Retry.initialDelay c) = Some initial /\
     Number.real (Retry.exponentialBase c) = Some base /\
     Number.real (Retry.maxDelay c) = Some cap /\
     (Retry.spec_delay initial base cap 2 == 0)%Q /\
     pow (Retry.exponentialBase c) 2%Z = infinity /\
     Retry.calculateDelay pow c 2%Z = nan /\
     Number.real (Retry.calculateDelay pow c 2%Z) = None).
Proof.
  intros pow. split.
  - exists (Number.magnitude 7205759403792794 (-56)),
      (Number.magnitude 6755399441055744 (-51)),
      (Number.magnitude 8444249301319680 (-47)),
      (Number.magnitude 5404319552844596 (-54)).
    repeat split; try (vm_compute; reflexivity).
    intros H. vm_compute in H. discriminate H.
  - exists 0%Q, (Number.magnitude 4503599627370496 948),
      (Number.magnitude 8444249301319680 (-47)).
    repeat split; vm_compute; reflexivity.
Qed.

(** C5 (amended). The delay before retry [i] is
    [Math.min(initialDelay * Math.pow(exponentialBase, i), maxDelay)] in
    double precision: it equals [min(initialDelay * exponentialBase^i,
    maxDelay)] whenever the power that [Math.pow] returns and its product
    with [initialDelay] are exact. With [initialDelay = 1],
    [exponentialBase = 2] and [maxDelay = 60], on an engine whose [Math.pow]
    gives the powers of 2 up to 64, the delays for attempts 0 to 5 are 1, 2,
    4, 8, 16, 32 and the delay for attempt 6 is 60. *)
Theorem calculateDelay_exponential_backoff :
  forall (Math_pow : float -> Z -> float),
    (forall (c : Retry.RetryConfig) (i : nat) (initial base cap power product : Q),
        Number.real (Retry.initialDelay c) = Some initial ->
        Number.real (Retry.exponentialBase c) = Some base ->
        Number.real (Retry.maxDelay c) = Some cap ->
        Number.real (Math_pow (Retry.exponentialBase c) (Z.of_nat i)) = Some power ->
        (power == Retry.Qpow_nat base i)%Q ->
        Number.real
          (Retry.initialDelay c * Math_pow (Retry.exponentialBase c) (Z.of_nat i))%float =
          Some product ->
        (product == initial * power)%Q ->
        exists delay,
          Number.real (Retry.calculateDelay Math_pow c (Z.of_nat i)) = Some delay /\
          (delay == Retry.spec_delay initial base cap i)%Q) /\
    ((forall i, (0 <= i <= 6)%Z -> Math_pow 2%float i = Number.of_Z (2 ^ i)) ->
     forall (en : bool) (mr : Z) (rex : list string),
       let c := Retry.mkRetryConfig en mr 1%float 60%float 2%float rex in
       map (Retry.calculateDelay Math_pow c) [0; 1; 2; 3; 4; 5]%Z =
         [1; 2; 4; 8; 16; 32]%float /\
       Retry.calculateDelay Math_pow c 6%Z = 60%float).
Proof.
  intros Math_pow. split.
  - intros c i initial base cap power product _ _. apply calculateDelay_exact.
  - intros Hpow en mr rex c. subst c. unfold Retry.calculateDelay. simpl.
    rewrite !Hpow by lia. split; vm_compute; reflexivity.
Qed.

Lemma calculateDelay_exponential_backoff_witness :
  (exists delay,
      Number.real (Retry.calculateDelay Examples.repeated_product Retry.default_config 3%Z) =
        Some delay /\
      (delay == 8)%Q) /\
  map (Retry.calculateDelay Examples.repeated_product Retry.default_config)
    [0; 1; 2; 3; 4; 5]%Z = [1; 2; 4; 8; 16; 32]%float /\
  Retry.calculateDelay Examples.repeated_product Retry.default_config 6%Z = 60%float.
Proof.
  destruct (calculateDelay_exponential_backoff Examples.repeated_product) as [Hrule Hvalues].
  split.
  - destruct (Hrule Retry.default_config 3%nat
                (Number.magnitude 4503599627370496 (-52))
                (Number.magnitude 4503599627370496 (-51))
                (Number.magnitude 8444249301319680 (-47))
                (Number.magnitude 4503599627370496 (-49))
                (Number.magnitude 4503599627370496 (-49)))
      as (delay & Hreal & Hdelay); try (vm_compute; reflexivity).
    exists delay. split; [exact Hreal|]. rewrite Hdelay. vm_compute. reflexivity.
  - apply (Hvalues ltac:(intros i Hi;
                         assert (i = 0 \/ i = 1 \/ i = 2 \/ i = 3 \/ i = 4 \/ i = 5 \/ i = 6)%Z
                           as Hcases by lia;
                         repeat (destruct Hcases as [-> | Hcases]; [vm_compute; reflexivity|]);
                         subst i; vm_compute; reflexivity)
             true 3%Z ["Error"]).
Defined.

(** C10. A function wrapped by [asyncRetry] behaves the same whether
    [config.enabled] is true or false: the same calls of the operation, the
    same waits and callbacks, the same final world and the same result or
    error. *)
Theorem asyncRetry_ignores_enabled :
  forall (W A : Type) (Math_pow : float -> Z -> float) (c : Retry.RetryConfig)
         (onRetry : option (Thrown -> Z -> W -> W * option Thrown))
         (originalMethod : W -> W * (A + Thrown)) (w : W),
    let on :=
      Retry.asyncRetry Math_pow (Retry.with_enabled true c) onRetry originalMethod w in
    let off :=
      Retry.asyncRetry Math_pow (Retry.with_enabled false c) onRetry originalMethod w in
    on = off /\
    Retry.invocations on.1.2 = Retry.invocations off.1.2 /\
    Retry.delays on.1.2 = Retry.delays off.1.2 /\
    on.2 = off.2.
Proof.
  intros W A Math_pow c onRetry originalMethod w on off.
  assert (on = off) as ->; [|done].
  subst on off. unfold Retry.asyncRetry. simpl.
  apply retry_loop_ignores_enabled.
Qed.

(** ** Summarization *)
Section SummarizeFacts.
Import Schema Agent Rounds.
Context {W : Type}.
Variable env : Env W.

Local Abbreviation CM := (ContextManager W).

Lemma estimateTokens_state (cm : CM) :
  (estimateTokens env cm).2 = cm \/
  (estimateTokens env cm).2 = emit tokenEstimationFallbacked cm.
Proof. unfold estimateTokens. destruct (tiktoken_count _ _); auto. Qed.

Lemma estimateTokens_messages (cm : CM) :
  messages (estimateTokens env cm).2 = messages cm.
Proof. by destruct (estimateTokens_state cm) as [-> | ->]. Qed.

Lemma estimateTokens_world (cm : CM) :
  world (estimateTokens env cm).2 = world cm.
Proof. by destruct (estimateTokens_state cm) as [-> | ->]. Qed.

Lemma estimateTokens_skip (cm : CM) :
  skipNextTokenCheck (estimateTokens env cm).2 = skipNextTokenCheck cm.
Proof. by destruct (estimateTokens_state cm) as [-> | ->]. Qed.

Lemma estimateTokens_limits (cm : CM) :
  tokenLimit (estimateTokens env cm).2 = tokenLimit cm /\
  apiTotalTokens (estimateTokens env cm).2 = apiTotalTokens cm.
Proof. by destruct (estimateTokens_state cm) as [-> | ->]. Qed.

(** [createSummary] on a non-empty tail yields the round's summary and
    touches only the world and the event log. *)
Lemma createSummary_round (tail : list Message) (roundNum : nat) (cm : CM) :
  tail <> [] ->
  (createSummary env tail roundNum cm).1 = (round_summary env tail roundNum (world cm)).1 /\
  world (createSummary env tail roundNum cm).2 =
    (round_summary env tail roundNum (world cm)).2.
Proof.
  intros Hne. destruct tail as [|m tail]; [done|].
  unfold createSummary, round_summary, summary_request.
  by destruct (generate env _ None (world cm)) as [w' [response|error]].
Qed.

(** *** User indices and rounds *)

Lemma userIndices_shift (k : nat) (l : list Message) :
  0 < k ->
  map snd
    (filter (fun p : Message * nat => role p.1 = "user" /\ 0 < p.2)
       (imap (fun index msg => (msg, k + index)) l)) = user_positions k l.
Proof.
  revert k. induction l as [|m l IH]; intros k Hk; [done|].
  rewrite imap_cons. simpl user_positions.
  rewrite filter_cons. simpl.
  rewrite (imap_ext _ (fun index msg => (msg, S k + index)) l)
    by (intros i x _; simpl; f_equal; lia).
  pose proof (IH (S k) ltac:(lia)) as IH'. simpl in IH'.
  destruct (decide (role m = "user")) as [Hu|Hu].
  - rewrite decide_True by (split; [done|lia]). simpl.
    by rewrite IH', Nat.add_0_r.
  - rewrite decide_False by tauto. simpl. by rewrite IH'.
Qed.

Lemma userIndices_positions (msgs : list Message) :
  userIndices_of msgs = user_positions 1 (drop 1 msgs).
Proof.
  unfold userIndices_of. destruct msgs as [|m0 l]; [done|].
  rewrite imap_cons, filter_cons. simpl.
  rewrite decide_False by lia. rewrite drop_0.
  by rewrite <- (userIndices_shift 1 l) by lia.
Qed.

Lemma user_positions_hd (l : list Message) (j k d : nat) :
  j <= k -> j <= d -> j <= hd d (user_positions k l).
Proof.
  revert k. induction l as [|m l IH]; intros k Hk Hd; simpl; [done|].
  destruct (decide (role m = "user")); simpl; [done|].
  apply IH; lia.
Qed.

(** The messages from position [k] up to the next user message are the
    part of the list before its first user message. *)
Lemma take_to_next_user (l : list Message) (k : nat) :
  take (hd (k + length l) (user_positions k l) - k) l = (split_rounds l).1.
Proof.
  revert k. induction l as [|m l IH]; intros k; simpl; [by rewrite take_nil|].
  destruct (split_rounds l) as [tail rounds] eqn:Hs.
  destruct (decide (role m = "user")); simpl.
  - by rewrite Nat.sub_diag.
  - specialize (IH (S k)). simpl in IH.
    replace (k + S (length l)) with (S k + length l) by lia.
    pose proof (user_positions_hd l (S k) (S k) (S k + length l) ltac:(lia) ltac:(lia)) as Hle.
    replace (hd (S k + length l) (user_positions (S k) l) - k)
      with (S (hd (S k + length l) (user_positions (S k) l) - S k)) by lia.
    simpl. by rewrite IH.
Qed.

Lemma split_rounds_users (l : list Message) :
  map fst (split_rounds l).2 = filter (fun m => role m = "user") l.
Proof.
  induction l as [|m l IH]; [done|]. simpl.
  destruct (split_rounds l) as [tail rounds]. rewrite filter_cons.
  destruct (decide (role m = "user")); simpl in *; by rewrite IH.
Qed.

(** *** The loop of [summarizeMessages] *)

Lemma slice_round (msgs l : list Message) (k : nat) :
  drop k msgs = l -> k <= length msgs ->
  slice msgs k (hd (length msgs) (user_positions k l)) = (split_rounds l).1.
Proof.
  intros Hdrop Hk. unfold slice. rewrite Hdrop.
  replace (length msgs) with (k + length l); [apply take_to_next_user|].
  rewrite <- Hdrop, length_drop. lia.
Qed.

(** The messages built by the loop: the rounds of the rest of the
    history, each rebuilt in turn. *)
Lemma summarize_rounds_messages (msgs l : list Message) :
  forall (k i : nat) (newMessages : list Message) (summaryCount : nat) (cm : CM),
    drop k msgs = l -> k <= length msgs ->
    (summarize_rounds env msgs (user_positions k l) i newMessages summaryCount cm).1.1 =
    newMessages ++ rebuilt_rounds env (i + 1) (split_rounds l).2 (world cm).
Proof.
  induction l as [|m l IH]; intros k i newMessages summaryCount cm Hdrop Hk.
  - simpl. by rewrite app_nil_r.
  - assert (msgs !! k = Some m) as Hm.
    { rewrite <- (Nat.add_0_r k), <- lookup_drop, Hdrop. done. }
    assert (drop (S k) msgs = l) as Hdrop'.
    { rewrite (drop_S _ _ _ Hm) in Hdrop. by injection Hdrop. }
    assert (S k <= length msgs) as Hk' by (apply lookup_lt_Some in Hm; lia).
    pose proof (slice_round msgs l (S k) Hdrop' Hk') as Hslice.
    simpl user_positions. simpl split_rounds.
    destruct (split_rounds l) as [tail rounds] eqn:Hs. simpl in Hslice.
    destruct (decide (role m = "user")) as [Hu|Hu]; [|by apply IH].
    cbn [summarize_rounds]. rewrite Hm. cbn [option_list].
    replace (k + 1) with (S k) by lia.
    replace (match user_positions (S k) l with
             | [] => length msgs
             | next :: _ => next
             end) with (hd (length msgs) (user_positions (S k) l))
      by (by destruct (user_positions (S k) l)).
    rewrite Hslice. cbn [snd rebuilt_rounds].
    destruct tail as [|t tail]; cbn [length Nat.ltb Nat.leb].
    + rewrite IH by done. cbn [snd]. simpl option_list.
      rewrite <- app_assoc. by replace (S (i + 1)) with (i + 1 + 1) by lia.
    + destruct (createSummary_round (t :: tail) (i + 1) cm) as [Htext Hworld]; [done|].
      destruct (createSummary env (t :: tail) (i + 1) cm) as [summaryText cm1].
      destruct (round_summary env (t :: tail) (i + 1) (world cm)) as [text w'].
      simpl in Htext, Hworld. subst text w'.
      replace (S (i + 1)) with (i + 1 + 1) by lia.
      destruct (String.eqb summaryText EmptyString).
      * rewrite IH by done. cbn [snd]. simpl option_list. by rewrite <- app_assoc.
      * rewrite IH by done. cbn [snd]. simpl option_list. by rewrite <- !app_assoc.
Qed.

(** The history rebuilt by a pass that finds a user message. *)
Lemma check_and_summarize_rebuilt (cm : CM) :
  shouldSummarize (estimateTokens env cm).1 cm = true ->
  userIndices_of (messages cm) <> [] ->
  exists system,
    messages cm !! 0 = Some system /\
    messages (check_and_summarize env cm) =
      system :: rebuilt_rounds env 1 (rounds_of (messages cm)) (world cm) /\
    skipNextTokenCheck (check_and_summarize env cm) = true.
Proof.
  intros Hshould Hne. unfold check_and_summarize.
  pose proof (estimateTokens_messages cm) as Hmsgs.
  pose proof (estimateTokens_world cm) as Hw.
  pose proof (estimateTokens_limits cm) as [Hlim Hapi].
  destruct (estimateTokens env cm) as [estimatedTokens cm1] eqn:He.
  simpl in Hshould, Hmsgs, Hw, Hlim, Hapi.
  assert (shouldSummarize estimatedTokens cm1 = true) as ->.
  { unfold shouldSummarize in *. by rewrite Hlim, Hapi. }
  cbn [negb]. cbn [messages emit]. rewrite Hmsgs.
  destruct (userIndices_of (messages cm)) as [|u us] eqn:Hui; [done|].
  cbn [length Nat.ltb Nat.leb]. rewrite <- Hui.
  rewrite userIndices_positions.
  assert (exists system rest, messages cm = system :: rest) as (system & rest & Hcm).
  { rewrite userIndices_positions in Hui.
    destruct (messages cm) as [|system rest]; [done|]. eauto. }
  rewrite Hcm. change (drop 1 (system :: rest)) with rest.
  change ((system :: rest) !! 0) with (Some system).
  change (option_list (Some system)) with [system].
  exists system. split; [done|].
  set (cm2 := emit _ cm1).
  pose proof (summarize_rounds_messages (system :: rest) rest 1 0 [system] 0 cm2
                (drop_0 rest) ltac:(simpl; lia)) as Hloop.
  destruct (summarize_rounds env (system :: rest) (user_positions 1 rest) 0 [system] 0 cm2)
    as [[newMessages summaryCount] cm3].
  simpl in Hloop. subst newMessages.
  match goal with
  | |- context [estimateTokens env ?c] =>
      pose proof (estimateTokens_messages c) as Hm4;
      pose proof (estimateTokens_skip c) as Hs4;
      destruct (estimateTokens env c) as [newTokens cm5]
  end.
  simpl in Hm4, Hs4. cbn [messages skipNextTokenCheck emit].
  rewrite Hm4, Hs4. subst cm2. simpl. unfold rounds_of.
  change (drop 1 (system :: rest)) with rest. by rewrite Hw.
Qed.

Lemma check_no_trigger (cm : CM) :
  shouldSummarize (estimateTokens env cm).1 cm = false ->
  check_and_summarize env cm = (estimateTokens env cm).2.
Proof.
  intros Hshould. unfold check_and_summarize.
  pose proof (estimateTokens_limits cm) as [Hlim Hapi].
  destruct (estimateTokens env cm) as [estimatedTokens cm1].
  simpl in *.
  assert (shouldSummarize estimatedTokens cm1 = false) as ->; [|done].
  unfold shouldSummarize in *. by rewrite Hlim, Hapi.
Qed.

Lemma check_insufficient (cm : CM) :
  shouldSummarize (estimateTokens env cm).1 cm = true ->
  userIndices_of (messages cm) = [] ->
  check_and_summarize env cm =
    emit (summarizeMessagesFinished_failed "Insufficient messages, cannot summarize.")
      (emit (summarizeMessagesStarted (estimateTokens env cm).1
               (apiTotalTokens cm) (tokenLimit cm))
         (estimateTokens env cm).2).
Proof.
  intros Hshould Hui. unfold check_and_summarize.
  pose proof (estimateTokens_limits cm) as [Hlim Hapi].
  pose proof (estimateTokens_messages cm) as Hmsgs.
  destruct (estimateTokens env cm) as [estimatedTokens cm1].
  simpl in *.
  assert (shouldSummarize estimatedTokens cm1 = true) as ->.
  { unfold shouldSummarize in *. by rewrite Hlim, Hapi. }
  cbn [negb]. cbn [messages emit]. by rewrite Hmsgs, Hui, Hlim, Hapi.
Qed.

Lemma user_positions_none (l : list Message) (k : nat) :
  Forall (fun m => role m <> "user") l -> user_positions k l = [].
Proof.
  revert k. induction l as [|m l IH]; intros k Hall; [done|].
  inversion Hall; subst. simpl. rewrite decide_False by done. by apply IH.
Qed.

Lemma userIndices_none (msgs : list Message) :
  (forall i m, 0 < i -> msgs !! i = Some m -> role m <> "user") ->
  userIndices_of msgs = [].
Proof.
  intros Hno. rewrite userIndices_positions. apply user_positions_none.
  apply Forall_lookup. intros i m Hi. rewrite lookup_drop in Hi.
  apply (Hno (1 + i)); [lia | done].
Qed.

(** Every round's user message is kept, in order. *)
Lemma rebuilt_rounds_users (rounds : list (Message * list Message)) :
  forall roundNum w,
    map fst rounds `sublist_of` rebuilt_rounds env roundNum rounds w.
Proof.
  induction rounds as [|[user tail] rounds IH]; intros roundNum w; [constructor|].
  simpl. destruct tail as [|t tail].
  - apply sublist_skip, IH.
  - destruct (round_summary env (t :: tail) roundNum w) as [summaryText w'].
    destruct (String.eqb summaryText EmptyString).
    + apply sublist_skip, IH.
    + apply sublist_skip, sublist_cons, IH.
Qed.

Lemma append_nonempty (s t : string) : s <> EmptyString -> s +:+ t <> EmptyString.
Proof. by destruct s. Qed.

Lemma transcript_step_nonempty (s : string) (m : Message) :
  s <> EmptyString -> transcript_step env s m <> EmptyString.
Proof.
  intros Hs. unfold transcript_step.
  destruct (String.eqb (role m) "assistant").
  - destruct (tool_calls m); repeat apply append_nonempty; done.
  - destruct (String.eqb (role m) "tool"); [|done].
    repeat apply append_nonempty; done.
Qed.

(** The raw transcript, used when the LLM call fails, is never empty. *)
Lemma transcript_nonempty (msgs : list Message) (roundNum : nat) :
  transcript env msgs roundNum <> EmptyString.
Proof.
  unfold transcript.
  assert (forall s, s <> EmptyString -> foldl (transcript_step env) s msgs <> EmptyString)
    as Hfold.
  { induction msgs as [|m msgs IH]; intros s Hs; [done|].
    simpl. by apply IH, transcript_step_nonempty. }
  by apply Hfold.
Qed.

(** When the LLM never answers a summary request with an empty text, the
    loop builds what the specification describes. *)
Lemma rebuilt_rounds_spec (rounds : list (Message * list Message)) :
  (forall summaryContent w w' response,
      generate env (summary_request summaryContent) None w = (w', inl response) ->
      resp_content response <> EmptyString) ->
  forall roundNum w,
    rebuilt_rounds env roundNum rounds w = spec_rebuild env roundNum rounds w.
Proof.
  intros Hllm. induction rounds as [|[user tail] rounds IH]; intros roundNum w; [done|].
  simpl. destruct tail as [|t tail]; [by rewrite IH|].
  assert ((round_summary env (t :: tail) roundNum w).1 <> EmptyString) as Hne.
  { unfold round_summary.
    destruct (generate env _ None w) as [w' [response|error]] eqn:Hg; simpl.
    - by eapply Hllm.
    - apply transcript_nonempty. }
  destruct (round_summary env (t :: tail) roundNum w) as [summaryText w'].
  simpl in Hne. apply String.eqb_neq in Hne. by rewrite Hne, IH.
Qed.
End SummarizeFacts.

(** C1, as stated, fails when the LLM answers a summary request with an
    empty text: the round's tail is dropped and no summary message takes
    its place. *)
Lemma empty_summary_drops_the_round :
  let cm := Examples.one_round in
  let env := Examples.silent_llm in
  Agent.skipNextTokenCheck cm = false /\
  Agent.shouldSummarize (Agent.estimateTokens env cm).1 cm = true /\
  Agent.userIndices_of (Agent.messages cm) = [1] /\
  Rounds.rounds_of (Agent.messages cm) =
    [(Schema.mkMessage "user" (Schema.Text "hi") None None None None,
      [Schema.mkMessage "assistant" (Schema.Text "hello") None None None None])] /\
  Agent.messages (Agent.summarizeMessages env cm) =
    [Schema.mkMessage "system" (Schema.Text "S") None None None None;
     Schema.mkMessage "user" (Schema.Text "hi") None None None None] /\
  ~ (exists system,
        Agent.messages cm !! 0 = Some system /\
        Agent.messages (Agent.summarizeMessages env cm) =
          system :: Rounds.spec_rebuild env 1 (Rounds.rounds_of (Agent.messages cm))
                      (Agent.world cm)).
Proof.
  repeat split; try reflexivity.
  intros (system & _ & Heq). vm_compute in Heq. discriminate Heq.
Qed.

(** C1 (amended). When [summarizeMessages] triggers, the history has a user
    message after the first message and the LLM never answers a summary
    request with an empty text, the rebuilt history is the system message
    followed, for each round in order, by the round's user message and then
    one synthetic user-role summary message when the round's tail is not
    empty; the summary is the LLM's text, or the raw transcript when the LLM
    call fails. What the LLM answers to the requests of the agent loop does
    not matter. *)
Theorem summarizeMessages_rebuilds_by_rounds :
  forall (W : Type) (env : Agent.Env W) (cm : Agent.ContextManager W),
    Agent.skipNextTokenCheck cm = false ->
    Agent.shouldSummarize (Agent.estimateTokens env cm).1 cm = true ->
    Agent.userIndices_of (Agent.messages cm) <> [] ->
    (forall summaryContent w w' response,
        Agent.generate env (Rounds.summary_request summaryContent) None w =
          (w', inl response) ->
        Schema.resp_content response <> EmptyString) ->
    exists system,
      Agent.messages cm !! 0 = Some system /\
      Agent.messages (Agent.summarizeMessages env cm) =
        system :: Rounds.spec_rebuild env 1 (Rounds.rounds_of (Agent.messages cm))
                    (Agent.world cm).
Proof.
  intros W env cm Hskip Hshould Hne Hllm.
  unfold Agent.summarizeMessages. rewrite Hskip.
  destruct (check_and_summarize_rebuilt env cm Hshould Hne) as (system & H0 & Hmsgs & _).
  exists system. split; [done|].
  by rewrite Hmsgs, rebuilt_rounds_spec.
Qed.

Lemma summarizeMessages_rebuilds_by_rounds_witness :
  (Agent.generate Examples.terse_summarizer (Agent.messages Examples.one_round)
     (Some []) tt).2 =
    inl (Schema.mkLLMResponse EmptyString None (Some [Examples.foo_call]) "tool_calls" None) /\
  exists system,
    Agent.messages Examples.one_round !! 0 = Some system /\
    Agent.messages (Agent.summarizeMessages Examples.terse_summarizer Examples.one_round) =
      system :: Rounds.spec_rebuild Examples.terse_summarizer 1
                  (Rounds.rounds_of (Agent.messages Examples.one_round)) tt.
Proof.
  split; [reflexivity|].
  apply (summarizeMessages_rebuilds_by_rounds unit Examples.terse_summarizer
           Examples.one_round).
  - reflexivity.
  - reflexivity.
  - vm_compute. discriminate.
  - intros summaryContent w w' response H. simpl in H.
    injection H as _ <-. simpl. discriminate.
Defined.

(** C2. After [summarizeMessages] returns, every message that had role
    [user] before the call is still in the history, unchanged, and these
    messages keep their relative order. *)
Theorem summarizeMessages_keeps_user_messages :
  forall (W : Type) (env : Agent.Env W) (cm : Agent.ContextManager W),
    filter (fun m => Schema.role m = "user") (Agent.messages cm)
      `sublist_of` Agent.messages (Agent.summarizeMessages env cm).
Proof.
  intros W env cm. unfold Agent.summarizeMessages.
  destruct (Agent.skipNextTokenCheck cm); [apply sublist_filter|].
  destruct (Agent.shouldSummarize (Agent.estimateTokens env cm).1 cm) eqn:Hshould.
  - destruct (Agent.userIndices_of (Agent.messages cm)) as [|u us] eqn:Hui.
    + rewrite check_insufficient by done. simpl.
      rewrite estimateTokens_messages. apply sublist_filter.
    + destruct (check_and_summarize_rebuilt env cm Hshould) as (system & H0 & -> & _);
        [by rewrite Hui|].
      destruct (Agent.messages cm) as [|m0 rest] eqn:Hcm; [done|].
      injection H0 as ->. unfold Rounds.rounds_of. simpl drop. rewrite drop_0.
      rewrite filter_cons.
      assert (filter (fun m => Schema.role m = "user") rest `sublist_of`
              Rounds.rebuilt_rounds env 1 (Rounds.split_rounds rest).2 (Agent.world cm))
        as Hrest.
      { rewrite <- split_rounds_users. apply rebuilt_rounds_users. }
      destruct (decide (Schema.role system = "user")).
      * by apply sublist_skip.
      * by apply sublist_cons.
  - rewrite check_no_trigger by done.
    rewrite estimateTokens_messages. apply sublist_filter.
Qed.

(** ** The agent loop *)
Section AgentFacts.
Import Schema Agent.
Context {W : Type}.
Variable env : Env W.

Local Abbreviation CM := (ContextManager W).

Lemma execute_tool_emit (functionName : string) (callArgs : JsObject) (e : AgentEvent)
    (cm : CM) :
  execute_tool functionName callArgs (emit e cm) = execute_tool functionName callArgs cm.
Proof. done. Qed.

(** What one tool call does to the state: a result adds two events and
    one message, an error that leaves the [catch] block adds one event. *)
Lemma dispatch_tool_call_state (cm : CM) (tc : ToolCall) :
  let functionName := fn_name (function tc) in
  let callArgs := fn_arguments (function tc) in
  match (execute_tool functionName callArgs cm).2 with
  | inl result =>
      let content :=
        if success result then result_content result
        else "Error: " +:+ default "null" (error result) in
      (dispatch_tool_call cm tc).2 = None /\
      messages (dispatch_tool_call cm tc).1 =
        messages cm ++ [tool_message content (id tc) functionName] /\
      events (dispatch_tool_call cm tc).1 =
        events cm ++ [toolCallStarted (id tc) functionName callArgs;
                      toolCallFinished (success result) (id tc) functionName result]
  | inr error =>
      (dispatch_tool_call cm tc).2 = Some error /\
      messages (dispatch_tool_call cm tc).1 = messages cm /\
      events (dispatch_tool_call cm tc).1 =
        events cm ++ [toolCallStarted (id tc) functionName callArgs]
  end /\
  world (dispatch_tool_call cm tc).1 = (execute_tool functionName callArgs cm).1.
Proof.
  unfold dispatch_tool_call. rewrite execute_tool_emit.
  destruct (execute_tool _ _ cm) as [w [result|error]]; simpl; [|done].
  by rewrite <- app_assoc.
Qed.

(** A tool call leaves [run] only through a tool that throws [null] or
    [undefined]. *)
Lemma execute_tool_rejects (functionName : string) (callArgs : JsObject) (cm : CM)
    (error : JsError) :
  (execute_tool functionName callArgs cm).2 = inr error ->
  exists tool w undefined,
    toolDict cm !! functionName = Some tool /\
    execute tool (positionalArgs tool callArgs) (world cm) =
      (w, inr (if undefined : bool then thrown_undefined else thrown_null)) /\
    error = TypeError_reading undefined "name".
Proof.
  unfold execute_tool. destruct (toolDict cm !! functionName) as [tool|]; [|done].
  destruct (execute tool _ (world cm)) as [w [result|[| |err]]] eqn:Hex; simpl; try done.
  - intros [= <-]. by exists tool, w, false.
  - intros [= <-]. by exists tool, w, true.
Qed.

Lemma run_loop_next (fuel maxSteps step : nat) (cm cm' : CM) :
  step < maxSteps ->
  run_step env maxSteps step cm = (NextStep, cm') ->
  run_loop env (S fuel) maxSteps step cm = run_loop env fuel maxSteps (step + 1) cm'.
Proof.
  intros Hstep Hrun. simpl.
  destruct (Nat.ltb_spec step maxSteps); [|lia]. by rewrite Hrun.
Qed.

Lemma run_loop_returned (fuel maxSteps step : nat) (cm cm' : CM) :
  step < maxSteps ->
  run_step env maxSteps step cm = (Returned, cm') ->
  run_loop env (S fuel) maxSteps step cm = (cm', None).
Proof.
  intros Hstep Hrun. simpl.
  destruct (Nat.ltb_spec step maxSteps); [|lia]. by rewrite Hrun.
Qed.

(** Fuel beyond the number of steps left is never used. *)
Lemma run_loop_fuel (fuel : nat) :
  forall maxSteps step (cm : CM),
    maxSteps - step <= fuel ->
    run_loop env fuel maxSteps step cm = run_loop env (maxSteps - step) maxSteps step cm.
Proof.
  induction fuel as [|fuel IH]; intros maxSteps step cm Hfuel.
  - by replace (maxSteps - step) with 0 by lia.
  - destruct (maxSteps - step) as [|k] eqn:Hk.
    + simpl. destruct (Nat.ltb_spec step maxSteps); [lia | done].
    + simpl. destruct (Nat.ltb_spec step maxSteps); [|done].
      destruct (run_step env maxSteps step cm) as [[| |error] cm']; [done| |done].
      rewrite IH by lia. by replace (maxSteps - (step + 1)) with k by lia.
Qed.

(** *** Objects *)

Lemma own_property_missing (key : string) (obj : JsObject) :
  key ∉ map fst obj -> own_property key obj = None.
Proof.
  induction obj as [|[k v] obj IH]; intros Hnot; [done|].
  simpl in *. apply not_elem_of_cons in Hnot as [Hne Hnot].
  destruct (String.eqb_spec k key); [congruence | by apply IH].
Qed.

Lemma own_property_present (key : string) (obj : JsObject) (v : Json) :
  own_property key obj = Some v -> (key, v) ∈ obj.
Proof.
  induction obj as [|[k v'] obj IH]; intros Hget; [done|].
  simpl in Hget. destruct (String.eqb_spec k key) as [->|].
  - injection Hget as ->. apply list_elem_of_here.
  - apply list_elem_of_further, IH, Hget.
Qed.

Lemma own_property_first (key : string) (v : Json) (obj : JsObject) :
  own_property key ((key, v) :: obj) = Some v.
Proof. simpl. by rewrite String.eqb_refl. Qed.

Lemma index_keys_filter (obj : JsObject) :
  map snd (index_keys obj) = filter (fun key => ~ array_index key = None) (map fst obj).
Proof.
  unfold index_keys. induction obj as [|[k v] obj IH]; [done|].
  simpl. rewrite filter_cons.
  destruct (array_index k) as [n|]; simpl; [f_equal|]; exact IH.
Qed.

(** [Object.keys] lists every own key once. *)
Lemma Object_keys_Permutation (obj : JsObject) : Object_keys obj ≡ₚ map fst obj.
Proof.
  unfold Object_keys, string_keys.
  rewrite (merge_sort_Permutation index_le), index_keys_filter.
  rewrite Permutation_app_comm. apply filter_app_complement.
Qed.




Lemma own_property_app (key : string) (a b : JsObject) :
  own_property key (a ++ b) =
  match own_property key a with
  | Some v => Some v
  | None => own_property key b
  end.
Proof.
  induction a as [|[k v] a IH]; [done|]. simpl.
  by destruct (String.eqb k key).
Qed.

Lemma own_property_permutation (key : string) (a b : JsObject) :
  a ≡ₚ b -> NoDup (map fst a) -> own_property key a = own_property key b.
Proof.
  induction 1 as [|[k v] a b Hperm IH|[k1 v1] [k2 v2] a|a b c H1 IH1 H2 IH2];
    intros Hnd.
  - done.
  - simpl in *. apply NoDup_cons in Hnd as [_ Hnd]. by rewrite IH.
  - simpl in *. apply NoDup_cons in Hnd as [Hnotin _].
    destruct (String.eqb_spec k1 key), (String.eqb_spec k2 key); try done.
    subst. exfalso. apply Hnotin. left.
  - rewrite IH1 by done. apply IH2.
    assert (map fst a ≡ₚ map fst b) as Hkeys by (by apply fmap_Permutation).
    by rewrite <- Hkeys.
Qed.

End AgentFacts.

(** C3 fails on a tool that throws [null]: the [catch] block reads
    [err.name] and throws itself. The step emits [toolCallStarted] and
    nothing after it, no tool-role message is appended, the call that
    follows is not dispatched and [run] is rejected with a [TypeError]
    instead of going on to the next step. *)
Theorem thrown_null_leaves_the_run :
  let cm := Examples.careless_workshop in
  let env := Examples.asks_for_void in
  let response :=
    Schema.mkLLMResponse EmptyString None (Some [Examples.void_call; Examples.foo_call])
      "tool_calls" None in
  Agent.toolDict cm !! "void" = Some Examples.null_tool /\
  Schema.execute Examples.null_tool [] (Agent.world cm) = (Agent.world cm, inr thrown_null) /\
  (Agent.run env 3 cm).2 = Some (TypeError_reading false "name") /\
  Agent.messages (Agent.run env 3 cm).1 =
    Agent.messages cm ++
    [Schema.mkMessage "assistant" (Schema.Text EmptyString) None
       (Some [Examples.void_call; Examples.foo_call]) None None] /\
  Agent.events (Agent.run env 3 cm).1 =
    [Agent.stepStarted 1 3; Agent.llmResponseReceived response;
     Agent.toolCallStarted "call_4" "void" []].
Proof. repeat split; reflexivity. Qed.





(** C4 fails on an operation that rejects with [null]: the [catch] block
    reads [lastException.message] and throws itself. With [maxRetries = 3]
    the operation is called once, not four times, and a [TypeError] leaves
    the wrapped function, not [RetryExhaustedError]; [Agent.run] then
    reports ["LLM call failed."] without an attempt count. *)
Theorem null_rejection_leaves_asyncRetry :
  Retry.maxRetries Retry.default_config = 3%Z /\
  Retry.asyncRetry Examples.repeated_product Retry.default_config None
    (@Examples.null_request Schema.LLMResponse) 0 =
    (1, [Retry.Invoked (Some thrown_null)],
     inr (thrown (TypeError_reading false "message"))) /\
  Agent.run Examples.null_llm 5 Examples.fresh_conversation =
    (Agent.emit
       (Agent.runFinished_failed "LLM call failed."
          (thrown (TypeError_reading false "message")))
       (Agent.set_world 1
          (Agent.emit (Agent.stepStarted 1 5) Examples.fresh_conversation)),
     None).
Proof. repeat split; reflexivity. Qed.


(** ** Token estimation *)
Section TokenFacts.
Import Schema Agent.
Context {W : Type}.
Variable env : Env W.
Variable encode : string -> option nat.

Local Abbreviation CM := (ContextManager W).

Lemma add_encoded_none (s : string) : add_encoded encode s None = None.
Proof. done. Qed.

Lemma add_encoded_ge (s : string) (t t' : nat) :
  add_encoded encode s (Some t) = Some t' -> t <= t'.
Proof.
  unfold add_encoded. destruct (encode s); [|done]. intros [= <-]. lia.
Qed.

Lemma count_blocks_none (blocks : list Json) :
  foldl (fun t block =>
           if is_object block then add_encoded encode (JSON_stringify env block) t
           else t) None blocks = None.
Proof. induction blocks as [|b blocks IH]; [done|]. simpl. by destruct (is_object b). Qed.

Lemma count_blocks_ge (blocks : list Json) :
  forall t t',
    foldl (fun t block =>
             if is_object block then add_encoded encode (JSON_stringify env block) t
             else t) (Some t) blocks = Some t' -> t <= t'.
Proof.
  induction blocks as [|b blocks IH]; intros t t' Hfold; cbn [foldl] in Hfold.
  - injection Hfold as <-. lia.
  - destruct (is_object b); [|by apply IH].
    destruct (add_encoded encode (JSON_stringify env b) (Some t)) as [t1|] eqn:Hadd.
    + apply add_encoded_ge in Hadd. apply IH in Hfold. lia.
    + by rewrite count_blocks_none in Hfold.
Qed.

Lemma count_message_none (msg : Message) : count_message env encode None msg = None.
Proof.
  unfold count_message.
  assert (match content msg with
          | Text s => add_encoded encode s None
          | Blocks blocks =>
              foldl (fun t block =>
                       if is_object block
                       then add_encoded encode (JSON_stringify env block) t
                       else t) None blocks
          end = None) as ->.
  { destruct (content msg); [done | apply count_blocks_none]. }
  destruct (thinking msg) as [s|]; [destruct (String.eqb s EmptyString)|];
    by destruct (tool_calls msg).
Qed.

(** A message that is counted adds at least its overhead of 4. *)
Lemma count_message_ge (msg : Message) (t t' : nat) :
  count_message env encode (Some t) msg = Some t' -> t + 4 <= t'.
Proof.
  unfold count_message.
  set (t1 := match content msg with
             | Text s => add_encoded encode s (Some t)
             | Blocks blocks => foldl _ (Some t) blocks
             end).
  assert (forall n, t1 = Some n -> t <= n) as H1.
  { subst t1. destruct (content msg); intros n Hn.
    - by eapply add_encoded_ge.
    - by eapply count_blocks_ge. }
  destruct t1 as [n1|]; [specialize (H1 n1 eq_refl)|].
  2: { destruct (thinking msg) as [s|]; [destruct (String.eqb s EmptyString)|];
         by destruct (tool_calls msg). }
  set (t2 := match thinking msg with
             | Some s => if String.eqb s EmptyString then Some n1
                         else add_encoded encode s (Some n1)
             | None => Some n1
             end).
  assert (forall n, t2 = Some n -> n1 <= n) as H2.
  { subst t2. destruct (thinking msg) as [s|]; intros n Hn.
    - destruct (String.eqb s EmptyString);
        [injection Hn as <-; lia | by eapply add_encoded_ge].
    - injection Hn as <-. lia. }
  destruct t2 as [n2|]; [specialize (H2 n2 eq_refl)|by destruct (tool_calls msg)].
  destruct (tool_calls msg) as [tcs|].
  - destruct (add_encoded encode (JSON_stringify env (tool_calls_json tcs)) (Some n2))
      as [n3|] eqn:H3; simpl; [|done].
    apply add_encoded_ge in H3. intros [= <-]. lia.
  - simpl. intros [= <-]. lia.
Qed.

Lemma count_chars_ge (totalChars : nat) (msg : Message) :
  totalChars <= count_chars env totalChars msg.
Proof.
  unfold count_chars.
  set (c1 := match content msg with
             | Text s => totalChars + String.length s
             | Blocks blocks => foldl _ totalChars blocks
             end).
  assert (totalChars <= c1) as H1.
  { subst c1. destruct (content msg) as [s|blocks]; [lia|].
    generalize totalChars. induction blocks as [|b blocks IH]; intros c; simpl; [lia|].
    destruct (is_object b); [etrans; [|apply IH]; lia | apply IH]. }
  destruct (thinking msg) as [s|]; [destruct (String.eqb s EmptyString)|];
    destruct (tool_calls msg); lia.
Qed.
End TokenFacts.

Section EstimateFacts.
Import Schema Agent.
Context {W : Type}.
Variable env : Env W.

Lemma tiktoken_count_snoc (msgs : list Message) (m : Message) :
  tiktoken_count env (msgs ++ [m]) =
  match get_encoding env with
  | Some encode => count_message env encode (foldl (count_message env encode) (Some 0) msgs) m
  | None => None
  end.
Proof. unfold tiktoken_count. destruct (get_encoding env); [|done]. by rewrite foldl_app. Qed.

(** The tokenizer path: a count for the longer history gives a count,
    not larger, for the shorter one. *)
Lemma tiktoken_count_monotone (msgs : list Message) (m : Message) (t' : nat) :
  tiktoken_count env (msgs ++ [m]) = Some t' ->
  exists t, tiktoken_count env msgs = Some t /\ t + 4 <= t'.
Proof.
  rewrite tiktoken_count_snoc. unfold tiktoken_count.
  destruct (get_encoding env) as [encode|]; [|done].
  destruct (foldl (count_message env encode) (Some 0) msgs) as [t|].
  - intros Hm. apply count_message_ge in Hm. eauto.
  - by rewrite count_message_none.
Qed.

(** The fallback path. *)
Lemma estimateTokensFallback_monotone (msgs : list Message) (m : Message) :
  estimateTokensFallback_of env msgs <= estimateTokensFallback_of env (msgs ++ [m]).
Proof.
  unfold estimateTokensFallback_of. rewrite foldl_app. cbn [foldl].
  apply Nat.Div0.div_le_mono.
  pose proof (count_chars_ge env (foldl (count_chars env) 0 msgs) m). lia.
Qed.
End EstimateFacts.

(** C9, as stated, fails when appending the message makes the tokenizer
    throw: the estimate moves from the tokenizer's count, with its overhead
    of 4 per message, to the character heuristic. *)
Lemma estimate_drops_when_tokenizer_starts_failing :
  let env := Examples.picky_tokenizer in
  let cm := Examples.short_history in
  let m := Examples.special_token_message in
  (Agent.estimateTokens env cm).1 = 10 /\
  (Agent.estimateTokens env (Agent.push m cm)).1 = 6 /\
  ~ ((Agent.estimateTokens env cm).1 <= (Agent.estimateTokens env (Agent.push m cm)).1).
Proof.
  repeat split; try reflexivity.
  vm_compute. lia.
Qed.

(** C9 (amended). Appending a message cannot decrease [estimateTokens()]
    when both estimates are computed on the same path: the tokenizer
    succeeds on the extended history (and then on the original one too), or
    it already fails on the original history (and then on the extended one
    too). *)
Theorem estimateTokens_monotone_on_one_path :
  forall (W : Type) (env : Agent.Env W) (cm : Agent.ContextManager W)
         (m : Schema.Message),
    Agent.tiktoken_count env (Agent.messages cm ++ [m]) <> None \/
    Agent.tiktoken_count env (Agent.messages cm) = None ->
    (Agent.estimateTokens env cm).1 <= (Agent.estimateTokens env (Agent.push m cm)).1.
Proof.
  intros W env cm m Hpath. unfold Agent.estimateTokens. simpl.
  destruct (Agent.tiktoken_count env (Agent.messages cm ++ [m])) as [t'|] eqn:Hafter.
  - destruct (tiktoken_count_monotone env _ _ _ Hafter) as (t & -> & Hle). simpl. lia.
  - destruct Hpath as [Hpath | ->]; [done|]. simpl.
    apply estimateTokensFallback_monotone.
Qed.

Lemma estimateTokens_monotone_on_one_path_witness :
  (Agent.estimateTokens Examples.picky_tokenizer Examples.short_history).1 <=
  (Agent.estimateTokens Examples.picky_tokenizer
     (Agent.push (Schema.mkMessage "user" (Schema.Text "thanks") None None None None)
        Examples.short_history)).1.
Proof.
  apply estimateTokens_monotone_on_one_path.
  left. vm_compute. discriminate.
Defined.

(** ** The suppression flag *)
Section FlagFacts.
Import Schema Agent Rounds.
Context {W : Type}.
Variable env : Env W.

Local Abbreviation CM := (ContextManager W).

Lemma user_positions_app (l1 l2 : list Message) (k : nat) :
  user_positions k (l1 ++ l2) =
  user_positions k l1 ++ user_positions (k + length l1) l2.
Proof.
  revert k. induction l1 as [|m l1 IH]; intros k; simpl.
  - by rewrite Nat.add_0_r.
  - rewrite IH. replace (S k + length l1) with (k + S (length l1)) by lia.
    by destruct (decide (role m = "user")).
Qed.

Lemma userIndices_push (msgs : list Message) (m : Message) :
  userIndices_of msgs <> [] -> userIndices_of (msgs ++ [m]) <> [].
Proof.
  rewrite !userIndices_positions. destruct msgs as [|m0 l]; [done|].
  simpl. rewrite !drop_0, user_positions_app.
  intros Hne Happ. by apply app_eq_nil in Happ as [? _].
Qed.

Lemma user_positions_rounds (l : list Message) (k : nat) :
  user_positions k l <> [] ->
  exists user tail rounds,
    (split_rounds l).2 = (user, tail) :: rounds /\ role user = "user".
Proof.
  revert k. induction l as [|m l IH]; intros k Hne; [done|].
  simpl in *. destruct (split_rounds l) as [tail rounds] eqn:Hs.
  destruct (decide (role m = "user")); simpl; eauto.
Qed.

(** The flag is set only while the history has a user message after the
    first message. *)
Lemma reachable_flag (cm : CM) :
  reachable env cm ->
  skipNextTokenCheck cm = true -> userIndices_of (messages cm) <> [].
Proof.
  induction 1 as [| content cm _ IH | response cm _ IH | result id name cm _ IH
                  | response cm _ IH | cm _ IH | e cm _ IH | w cm _ IH]; try done.
  - intros Hskip. by apply userIndices_push, IH.
  - intros Hskip. by apply userIndices_push, IH.
  - intros Hskip. by apply userIndices_push, IH.
  - unfold updateApiTokens. by destruct (usage response).
  - unfold summarizeMessages.
    destruct (skipNextTokenCheck cm) eqn:Hold; [done|]. clear IH.
    destruct (shouldSummarize (estimateTokens env cm).1 cm) eqn:Hshould.
    + destruct (userIndices_of (messages cm)) as [|u us] eqn:Hui.
      * rewrite check_insufficient by done. simpl.
        by rewrite estimateTokens_skip, Hold.
      * destruct (check_and_summarize_rebuilt env cm Hshould)
          as (system & H0 & -> & _); [by rewrite Hui|].
        intros _. rewrite userIndices_positions. simpl. rewrite drop_0.
        unfold rounds_of. rewrite userIndices_positions in Hui.
        destruct (user_positions_rounds (drop 1 (messages cm)) 1)
          as (user & tail & rounds & -> & Huser); [by rewrite Hui|].
        simpl. destruct tail as [|t tail].
        -- simpl. by rewrite decide_True.
        -- destruct (round_summary env (t :: tail) 1 (world cm)) as [text w'].
           destruct (String.eqb text EmptyString); simpl; by rewrite decide_True.
    + rewrite check_no_trigger by done. by rewrite estimateTokens_skip, Hold.
Qed.

(** A run of the agent stays within the reachable states. *)
Lemma reachable_dispatch (cm : CM) (tc : ToolCall) :
  reachable env cm -> reachable env (dispatch_tool_call cm tc).1.
Proof.
  intros Hcm. unfold dispatch_tool_call.
  destruct (execute_tool _ _ _) as [w [result|error]]; simpl.
  - by apply reach_addToolMessage, reach_emit, reach_set_world, reach_emit.
  - by apply reach_set_world, reach_emit.
Qed.

Lemma reachable_dispatch_all (tcs : list ToolCall) :
  forall cm : CM, reachable env cm -> reachable env (dispatch_tool_calls cm tcs).1.
Proof.
  induction tcs as [|tc tcs IH]; intros cm Hcm; [done|].
  simpl. pose proof (reachable_dispatch cm tc Hcm) as Hone.
  destruct (dispatch_tool_call cm tc) as [cm' [error|]]; [done|]. by apply IH.
Qed.

Lemma reachable_run_step (maxSteps step : nat) (cm : CM) :
  reachable env cm -> reachable env (run_step env maxSteps step cm).2.
Proof.
  intros Hcm. unfold run_step.
  pose proof (reach_emit env (stepStarted (step + 1) maxSteps) _
                (reach_summarizeMessages env cm Hcm)) as H0.
  destruct (generate env _ _ _) as [w [response|error]].
  - assert (reachable env
              (addAssistantMessage response
                 (updateApiTokens response
                    (emit (llmResponseReceived response)
                       (set_world w
                          (emit (stepStarted (step + 1) maxSteps)
                             (summarizeMessages env cm))))))) as H1
      by (by apply reach_addAssistantMessage, reach_updateApiTokens,
                   reach_emit, reach_set_world).
    destruct (resp_tool_calls response) as [[|tc tcs]|];
      [by apply reach_emit | | by apply reach_emit].
    pose proof (reachable_dispatch_all (tc :: tcs) _ H1) as Hall.
    by destruct (dispatch_tool_calls _ (tc :: tcs)) as [cm' [error|]].
  - destruct error as [| |[n m st|lastException attempts]]; simpl;
      by apply reach_emit, reach_set_world.
Qed.

Lemma reachable_run_loop (maxSteps fuel : nat) :
  forall (step : nat) (cm : CM),
    reachable env cm -> reachable env (run_loop env fuel maxSteps step cm).1.
Proof.
  induction fuel as [|fuel IH]; intros step cm Hcm; simpl.
  - by apply reach_emit.
  - destruct (step <? maxSteps); [|by apply reach_emit].
    pose proof (reachable_run_step maxSteps step cm Hcm) as Hstep.
    destruct (run_step env maxSteps step cm) as [[| |error] cm']; [done| |done].
    by apply IH.
Qed.

Lemma reachable_run (maxSteps : nat) (cm : CM) :
  reachable env cm -> reachable env (run env maxSteps cm).1.
Proof. apply reachable_run_loop. Qed.
End FlagFacts.

(** C6. When the history has no user message after the first message and
    the trigger condition holds, [summarizeMessages] reports failure
    ([summarizeMessagesFinished] with [ok = false]) and leaves the message
    list, and the rest of the context manager's state, unchanged. The
    suppression flag is clear in such a state: it is so in every state that
    the constructor and the methods can produce. *)
Theorem summarizeMessages_without_user_message :
  forall (W : Type) (env : Agent.Env W) (cm : Agent.ContextManager W),
    Agent.skipNextTokenCheck cm = false \/ Agent.reachable env cm ->
    Agent.shouldSummarize (Agent.estimateTokens env cm).1 cm = true ->
    (forall i m, 0 < i -> Agent.messages cm !! i = Some m -> Schema.role m <> "user") ->
    let cm' := Agent.summarizeMessages env cm in
    Agent.messages cm' = Agent.messages cm /\
    Agent.events cm' =
      Agent.events (Agent.estimateTokens env cm).2 ++
      [Agent.summarizeMessagesStarted (Agent.estimateTokens env cm).1
         (Agent.apiTotalTokens cm) (Agent.tokenLimit cm);
       Agent.summarizeMessagesFinished_failed "Insufficient messages, cannot summarize."] /\
    Agent.skipNextTokenCheck cm' = false /\
    Agent.apiTotalTokens cm' = Agent.apiTotalTokens cm /\
    Agent.world cm' = Agent.world cm.
Proof.
  intros W env cm Hflag Hshould Hno cm'. subst cm'.
  pose proof (userIndices_none _ Hno) as Hui.
  assert (Agent.skipNextTokenCheck cm = false) as Hskip.
  { destruct Hflag as [Hclear | Hreach]; [done|].
    destruct (Agent.skipNextTokenCheck cm) eqn:Hset; [|done].
    by destruct (reachable_flag env cm Hreach Hset). }
  unfold Agent.summarizeMessages. rewrite Hskip.
  rewrite check_insufficient by done.
  simpl. rewrite estimateTokens_messages, estimateTokens_skip, estimateTokens_world.
  rewrite (proj2 (estimateTokens_limits env cm)), <- app_assoc. done.
Qed.

Lemma summarizeMessages_without_user_message_witness :
  let cm := Examples.no_user_yet in
  let cm' := Agent.summarizeMessages Examples.terse_llm cm in
  Agent.messages cm' = Agent.messages cm /\
  Agent.events cm' =
    [Agent.summarizeMessagesStarted 14 0%Z 0%Z;
     Agent.summarizeMessagesFinished_failed "Insufficient messages, cannot summarize."].
Proof.
  intros cm cm'.
  destruct (summarizeMessages_without_user_message unit Examples.terse_llm
              Examples.no_user_yet) as (Hm & He & _).
  - left. reflexivity.
  - reflexivity.
  - intros i m Hi Hlook. destruct i as [|[|i]]; [lia | | done].
    injection Hlook as <-. discriminate.
  - split; [exact Hm | exact He].
Defined.

(** C7. A pass that rebuilds the history sets the suppression flag. The
    next call of [summarizeMessages], on any state in which the flag is
    set and whatever the token estimates are, only clears the flag: no
    estimate is computed, no event is emitted, the history is not
    touched. The call after that one performs the trigger check. *)
Theorem skip_flag_is_consumed_once :
  forall (W : Type) (env : Agent.Env W) (cm : Agent.ContextManager W),
    Agent.skipNextTokenCheck cm = false ->
    Agent.shouldSummarize (Agent.estimateTokens env cm).1 cm = true ->
    Agent.userIndices_of (Agent.messages cm) <> [] ->
    Agent.skipNextTokenCheck (Agent.summarizeMessages env cm) = true /\
    (forall (env' : Agent.Env W) (cm1 : Agent.ContextManager W),
        Agent.skipNextTokenCheck cm1 = true ->
        let cm2 := Agent.summarizeMessages env' cm1 in
        cm2 = Agent.set_skipNextTokenCheck false cm1 /\
        Agent.messages cm2 = Agent.messages cm1 /\
        Agent.events cm2 = Agent.events cm1 /\
        Agent.world cm2 = Agent.world cm1 /\
        Agent.skipNextTokenCheck cm2 = false /\
        Agent.summarizeMessages env' cm2 = Agent.check_and_summarize env' cm2 /\
        (Agent.shouldSummarize (Agent.estimateTokens env' cm2).1 cm2 = false ->
         Agent.summarizeMessages env' cm2 = (Agent.estimateTokens env' cm2).2) /\
        (Agent.shouldSummarize (Agent.estimateTokens env' cm2).1 cm2 = true ->
         Agent.userIndices_of (Agent.messages cm2) <> [] ->
         Agent.skipNextTokenCheck (Agent.summarizeMessages env' cm2) = true)).
Proof.
  intros W env cm Hskip Hshould Hne. split.
  - unfold Agent.summarizeMessages. rewrite Hskip.
    by destruct (check_and_summarize_rebuilt env cm Hshould Hne) as (? & _ & _ & ?).
  - intros env' cm1 Hset cm2.
    assert (cm2 = Agent.set_skipNextTokenCheck false cm1) as Hcm2.
    { subst cm2. unfold Agent.summarizeMessages. by rewrite Hset. }
    rewrite Hcm2. repeat split.
    + intros Hno. by apply check_no_trigger.
    + intros Hyes Hne'.
      change (Agent.summarizeMessages env' (Agent.set_skipNextTokenCheck false cm1))
        with (Agent.check_and_summarize env' (Agent.set_skipNextTokenCheck false cm1)).
      by destruct (check_and_summarize_rebuilt env' _ Hyes Hne') as (? & _ & _ & ?).
Qed.

Lemma skip_flag_is_consumed_once_witness :
  let cm1 := Agent.summarizeMessages Examples.terse_llm Examples.one_round in
  Agent.skipNextTokenCheck cm1 = true /\
  Agent.summarizeMessages Examples.terse_llm cm1 = Agent.set_skipNextTokenCheck false cm1.
Proof.
  intros cm1.
  destruct (skip_flag_is_consumed_once unit Examples.terse_llm Examples.one_round)
    as [Hset Hnext].
  - reflexivity.
  - reflexivity.
  - vm_compute. discriminate.
  - split; [exact Hset|].
    by destruct (Hnext Examples.terse_llm cm1 Hset) as [Hclear _].
Defined.

(** * Further properties of the retry policy *)
Section RetryTrace.
Import Retry Observations.
Local Open Scope Z_scope.
Context {W A : Type}.
Variable Math_pow : float -> Z -> float.
Variable config : RetryConfig.
Variable onRetry : option (Thrown -> Z -> W -> W * option Thrown).
Variable originalMethod : W -> W * (A + Thrown).

Lemma sleeps_app (l1 l2 : list RetryEffect) :
  sleeps (l1 ++ l2) = sleeps l1 ++ sleeps l2.
Proof. apply omap_app. Qed.

Lemma callbacks_app (l1 l2 : list RetryEffect) :
  callbacks (l1 ++ l2) = callbacks l1 ++ callbacks l2.
Proof. apply omap_app. Qed.

Lemma beats_app (l1 l2 : list RetryEffect) : beats (l1 ++ l2) = beats l1 ++ beats l2.
Proof. apply omap_app. Qed.

Lemma protocol_app (l1 l2 : list RetryEffect) :
  protocol (l1 ++ l2) = protocol l1 ++ protocol l2.
Proof. apply omap_app. Qed.

(** The backoff schedule from attempt [attempt] on. *)
Lemma schedule_shift (attempt : Z) (n : nat) :
  map (fun i => (calculateDelay Math_pow config (attempt + Z.of_nat i) * 1000)%float)
    (seq 0 (S n)) =
  (calculateDelay Math_pow config attempt * 1000)%float ::
  map (fun i => (calculateDelay Math_pow config (attempt + 1 + Z.of_nat i) * 1000)%float)
    (seq 0 n).
Proof.
  simpl. rewrite Z.add_0_r. f_equal.
  rewrite <- seq_shift, map_map. apply map_ext. intros i.
  by replace (attempt + Z.of_nat (S i)) with (attempt + 1 + Z.of_nat i) by lia.
Qed.

Lemma numbered_cons (attempt : Z) (e : Thrown) (l : list Thrown) :
  numbered attempt (e :: l) = (e, attempt + 1) :: numbered (attempt + 1) l.
Proof.
  unfold numbered. rewrite imap_cons, Z.add_0_r. f_equal.
  apply imap_ext. intros i x _. simpl. f_equal. lia.
Qed.

(** What one run of the loop adds to the log. *)
Lemma retry_loop_trace (fuel : nat) :
  forall attempt lastException w log,
    fuel = Z.to_nat (maxRetries config + 1 - attempt) ->
    exists ext,
      (retry_loop Math_pow config onRetry originalMethod fuel attempt lastException w log).1.2 =
        log ++ ext /\
      (invocations ext <= fuel)%nat /\
      (attempt <= maxRetries config -> (1 <= invocations ext)%nat) /\
      beats ext = alternation (invocations ext) /\
      sleeps ext =
        map (fun i => (calculateDelay Math_pow config (attempt + Z.of_nat i) * 1000)%float)
          (seq 0 (invocations ext - 1)) /\
      match onRetry with
      | Some f =>
          callbacks ext =
            numbered attempt (take (length (callbacks ext)) (thrown_errors ext)) /\
          protocol ext =
            callback_then_wait (callbacks ext) (sleeps ext) ++
            map inl (drop (length (sleeps ext)) (callbacks ext)) /\
          (length (sleeps ext) <= length (callbacks ext) <= S (length (sleeps ext)))%nat /\
          ((forall e a w0, (f e a w0).2 = None) ->
           length (callbacks ext) = length (sleeps ext))
      | None => callbacks ext = [] /\ protocol ext = map inr (sleeps ext)
      end.
Proof.
  induction fuel as [|fuel IH]; intros attempt lastException w log Hfuel.
  - exists []. simpl. rewrite app_nil_r. repeat split; try done; try lia.
    destruct onRetry; repeat split; done || lia.
  - simpl. destruct (Z.leb_spec attempt (maxRetries config)); [|lia].
    destruct (originalMethod w) as [w1 [v|exception]].
    { exists [Invoked None]. repeat split; try done; try (vm_compute; lia).
      destruct onRetry; repeat split; done || (simpl; lia). }
    destruct (Z.geb_spec attempt (maxRetries config)).
    { exists [Invoked (Some exception); ConsoleError (maxRetries config)].
      split; [by rewrite <- app_assoc|].
      repeat split; try done; try (unfold invocations; simpl; lia).
      destruct onRetry; repeat split; done || (simpl; lia). }
    destruct (read_property error_message "message" exception) as [message|typeError].
    2: { exists [Invoked (Some exception)].
         repeat split; try done; try (unfold invocations; simpl; lia).
         destruct onRetry; repeat split; done || (simpl; lia). }
    set (delay := calculateDelay Math_pow config attempt).
    set (warn := ConsoleWarn (attempt + 1) message (attempt + 2) delay).
    destruct onRetry as [f|] eqn:Hon.
    + destruct (f exception (attempt + 1) w1) as [w2 [t|]] eqn:Hf.
      { exists [Invoked (Some exception); warn; OnRetry exception (attempt + 1)].
        split; [by rewrite <- !app_assoc|].
        repeat split; try done; try (unfold invocations; simpl; lia).
        - unfold numbered. simpl. by rewrite Z.add_0_r.
        - intros Hquiet. specialize (Hquiet exception (attempt + 1) w1).
          rewrite Hf in Hquiet. done. }
      edestruct (IH (attempt + 1) (Some exception) w2) as
        (ext & Heq & Hinv & Hone & Hbeats & Hsl & Hcb & Hproto & Hlen & Hquiet); [lia|].
      rewrite Heq. specialize (Hone ltac:(lia)).
      exists ([Invoked (Some exception); warn; OnRetry exception (attempt + 1);
               Sleep (delay * 1000)%float] ++ ext).
      split; [by rewrite <- !app_assoc|].
      assert (invocations ([Invoked (Some exception); warn; OnRetry exception (attempt + 1);
                            Sleep (delay * 1000)%float] ++ ext) = S (invocations ext)) as Hn
        by (by rewrite invocations_app).
      rewrite Hn, beats_app, sleeps_app, callbacks_app, protocol_app, thrown_errors_app.
      cbn [app]. change (beats [_; _; _; _]) with [Call; Wait].
      change (sleeps [_; _; _; _]) with [(delay * 1000)%float].
      change (callbacks [_; _; _; _]) with [(exception, attempt + 1)].
      change (protocol [_; _; _; _]) with
        [inl (exception, attempt + 1); inr (delay * 1000)%float
         : Thrown * Z + float].
      change (thrown_errors [_; _; _; _]) with [exception].
      repeat split; try lia.
      * rewrite Hbeats. destruct (invocations ext) as [|k]; [lia|]. done.
      * replace (S (invocations ext) - 1)%nat with (S (invocations ext - 1)) by lia.
        by rewrite schedule_shift, Hsl.
      * simpl. rewrite numbered_cons. f_equal. exact Hcb.
      * simpl. by rewrite Hproto.
      * simpl. lia.
      * simpl. lia.
      * intros Hq. simpl. by rewrite Hquiet.
    + edestruct (IH (attempt + 1) (Some exception) w1) as
        (ext & Heq & Hinv & Hone & Hbeats & Hsl & Hcb & Hproto); [lia|].
      rewrite Heq. specialize (Hone ltac:(lia)).
      exists ([Invoked (Some exception); warn; Sleep (delay * 1000)%float] ++ ext).
      split; [by rewrite <- !app_assoc|].
      assert (invocations ([Invoked (Some exception); warn;
                            Sleep (delay * 1000)%float] ++ ext) = S (invocations ext)) as Hn
        by (by rewrite invocations_app).
      rewrite Hn, beats_app, sleeps_app, callbacks_app, protocol_app.
      repeat split; try lia.
      * rewrite Hbeats. destruct (invocations ext) as [|k]; [lia|]. done.
      * replace (S (invocations ext) - 1)%nat with (S (invocations ext - 1)) by lia.
        by rewrite schedule_shift, Hsl.
      * by rewrite Hcb.
      * by rewrite Hproto.
Qed.

Lemma last_thrown_errors_cons (e : Thrown) (ext : list RetryEffect) (x : Thrown) :
  last (thrown_errors ext) = Some x -> last (e :: thrown_errors ext) = Some x.
Proof. destruct (thrown_errors ext); [done|]. by rewrite last_cons_cons. Qed.


(** An operation that throws an object at every call exhausts the loop,
    when the callback does not throw. *)
Lemma retry_loop_exhausted (fuel : nat) :
  (forall w, exists w' e, originalMethod w = (w', inr (thrown e))) ->
  match onRetry with
  | Some f => forall e a w, (f e a w).2 = None
  | None => True
  end ->
  forall attempt lastException w log,
    0 <= attempt <= maxRetries config ->
    fuel = Z.to_nat (maxRetries config + 1 - attempt) ->
    exists w' log' e,
      retry_loop Math_pow config onRetry originalMethod fuel attempt lastException w log =
        (w', log ++ log', inr (thrown (RetryExhaustedError e (maxRetries config + 1)))) /\
      invocations log' = fuel /\
      last (thrown_errors log') = Some (thrown e).
Proof.
  intros Hfail Hquiet. induction fuel as [|fuel IH];
    intros attempt lastException w log Hatt Hfuel; [lia|].
  simpl. destruct (Z.leb_spec attempt (maxRetries config)); [|lia].
  destruct (Hfail w) as (w1 & e & ->).
  destruct (Z.geb_spec attempt (maxRetries config)).
  - assert (attempt = maxRetries config) as -> by lia.
    exists w1, [Invoked (Some (thrown e)); ConsoleError (maxRetries config)], e.
    split; [by rewrite <- app_assoc|]. split; [|done]. unfold invocations; simpl. lia.
  - cbn [read_property].
    set (delay := calculateDelay Math_pow config attempt).
    set (warn := ConsoleWarn (attempt + 1) (error_message e) (attempt + 2) delay).
    destruct onRetry as [f|].
    + pose proof (Hquiet (thrown e) (attempt + 1) w1) as Hq.
      destruct (f (thrown e) (attempt + 1) w1) as [w2 r]. simpl in Hq. subst r.
      edestruct (IH (attempt + 1) (Some (thrown e)) w2) as (w' & log' & e' & Heq & Hinv & Hlast);
        [lia | lia |].
      rewrite Heq.
      exists w', ([Invoked (Some (thrown e)); warn; OnRetry (thrown e) (attempt + 1);
                   Sleep (delay * 1000)%float] ++ log'), e'.
      split; [by rewrite <- !app_assoc|]. split.
      * rewrite invocations_app, Hinv. done.
      * rewrite thrown_errors_app. by apply last_thrown_errors_cons.
    + edestruct (IH (attempt + 1) (Some (thrown e)) w1) as (w' & log' & e' & Heq & Hinv & Hlast);
        [lia | lia |].
      rewrite Heq.
      exists w', ([Invoked (Some (thrown e)); warn; Sleep (delay * 1000)%float] ++ log'), e'.
      split; [by rewrite <- !app_assoc|]. split.
      * rewrite invocations_app, Hinv. done.
      * rewrite thrown_errors_app. by apply last_thrown_errors_cons.
Qed.
End RetryTrace.


(** X1. Whatever the operation does, the function installed by
    [asyncRetry] calls it at most [maxRetries + 1] times, and at least once
    when [maxRetries] is not negative. Calls and waits alternate in the
    log: it waits once between two consecutive calls, never before the
    first call and never after the last one. *)
Theorem asyncRetry_call_budget :
  forall (W A : Type) (Math_pow : float -> Z -> float) (config : Retry.RetryConfig)
         (onRetry : option (Thrown -> Z -> W -> W * option Thrown))
         (originalMethod : W -> W * (A + Thrown)) (w : W),
    let log := (Retry.asyncRetry Math_pow config onRetry originalMethod w).1.2 in
    Retry.invocations log <= Z.to_nat (Retry.maxRetries config + 1) /\
    ((0 <= Retry.maxRetries config)%Z -> 1 <= Retry.invocations log) /\
    Observations.beats log = Observations.alternation (Retry.invocations log).
Proof.
  intros W A Math_pow config onRetry originalMethod w log. subst log.
  unfold Retry.asyncRetry.
  destruct (retry_loop_trace Math_pow config onRetry originalMethod
              (Z.to_nat (Retry.maxRetries config + 1)) 0%Z None w [])
    as (ext & Heq & Hinv & Hone & Hbeats & _); [f_equal; lia|].
  rewrite Heq. simpl. split; [done|]. split; done.
Qed.

Lemma asyncRetry_call_budget_witness :
  let log := (Retry.asyncRetry Examples.repeated_product Retry.default_config
                Scenarios.quiet_observer (Scenarios.flaky_request 2) 0).1.2 in
  Retry.invocations log <= 4 /\ 1 <= Retry.invocations log /\
  Observations.beats log =
    [Observations.Call; Observations.Wait; Observations.Call; Observations.Wait;
     Observations.Call].
Proof.
  intros log.
  destruct (asyncRetry_call_budget nat string Examples.repeated_product
              Retry.default_config Scenarios.quiet_observer (Scenarios.flaky_request 2) 0)
    as (Hmax & Hmin & Hbeats).
  split; [exact Hmax|]. split; [|exact Hbeats].
  apply Hmin. vm_compute. discriminate.
Defined.

(** X2. The waits of the retry loop follow the backoff rule: the wait
    after the failed attempt [i] (counted from 0) lasts
    [calculateDelay(i) * 1000] milliseconds, and no delay is above
    [maxDelay] seconds: it is [NaN] or at most [maxDelay]. *)
Theorem asyncRetry_backoff_schedule :
  forall (W A : Type) (Math_pow : float -> Z -> float) (config : Retry.RetryConfig)
         (onRetry : option (Thrown -> Z -> W -> W * option Thrown))
         (originalMethod : W -> W * (A + Thrown)) (w : W),
    let log := (Retry.asyncRetry Math_pow config onRetry originalMethod w).1.2 in
    Observations.sleeps log =
      map (fun i => (Retry.calculateDelay Math_pow config (Z.of_nat i) * 1000)%float)
        (seq 0 (Retry.invocations log - 1)) /\
    Forall (fun i =>
              let delay := Retry.calculateDelay Math_pow config (Z.of_nat i) in
              is_nan delay = true \/ (delay <=? Retry.maxDelay config)%float = true)
      (seq 0 (Retry.invocations log - 1)).
Proof.
  intros W A Math_pow config onRetry originalMethod w log. subst log.
  unfold Retry.asyncRetry.
  destruct (retry_loop_trace Math_pow config onRetry originalMethod
              (Z.to_nat (Retry.maxRetries config + 1)) 0%Z None w [])
    as (ext & Heq & _ & _ & _ & Hsl & _); [f_equal; lia|].
  rewrite Heq. simpl. rewrite Hsl. split; [done|].
  apply Forall_forall. intros i _. apply calculateDelay_capped.
Qed.

(** X3. The [onRetry] callback is called once before every wait, with
    the value thrown by the failed attempt and the attempt numbers 1, 2,
    ... in order: in the log each callback is followed by the wait of the
    same rank. A callback without a wait after it is the last one, and
    there is none when the callback never throws. Without a callback
    nothing is called. *)
Theorem asyncRetry_callback_protocol :
  forall (W A : Type) (Math_pow : float -> Z -> float) (config : Retry.RetryConfig)
         (onRetry : option (Thrown -> Z -> W -> W * option Thrown))
         (originalMethod : W -> W * (A + Thrown)) (w : W),
    let log := (Retry.asyncRetry Math_pow config onRetry originalMethod w).1.2 in
    let callbacks := Observations.callbacks log in
    let waits := Observations.sleeps log in
    match onRetry with
    | Some f =>
        callbacks =
          Observations.numbered 0 (take (length callbacks) (Retry.thrown_errors log)) /\
        Observations.protocol log =
          Observations.callback_then_wait callbacks waits ++
          map inl (drop (length waits) callbacks) /\
        length waits <= length callbacks <= S (length waits) /\
        ((forall e a w0, (f e a w0).2 = None) -> length callbacks = length waits)
    | None => callbacks = [] /\ Observations.protocol log = map inr waits
    end.
Proof.
  intros W A Math_pow config onRetry originalMethod w log. subst log.
  unfold Retry.asyncRetry.
  destruct (retry_loop_trace Math_pow config onRetry originalMethod
              (Z.to_nat (Retry.maxRetries config + 1)) 0%Z None w [])
    as (ext & Heq & _ & _ & _ & _ & Hcb); [f_equal; lia|].
  rewrite Heq. simpl. exact Hcb.
Qed.

Lemma asyncRetry_callback_protocol_witness :
  let log := (Retry.asyncRetry Examples.repeated_product Retry.default_config
                Scenarios.quiet_observer (Scenarios.flaky_request 2) 0).1.2 in
  Observations.protocol log =
    [inl (thrown (Error_ "Error" "timeout 0" None), 1%Z); inr 1000%float;
     inl (thrown (Error_ "Error" "timeout 1" None), 2%Z); inr 2000%float] /\
  length (Observations.callbacks log) = length (Observations.sleeps log).
Proof.
  intros log.
  pose proof (asyncRetry_callback_protocol nat string Examples.repeated_product
                Retry.default_config Scenarios.quiet_observer (Scenarios.flaky_request 2) 0)
    as H.
  cbv zeta in H. unfold Scenarios.quiet_observer in H at 1.
  destruct H as (_ & Hproto & _ & Hquiet).
  split; [exact Hproto|]. apply Hquiet. reflexivity.
Defined.



(** * Further properties of the context manager *)
Section ConstructorFacts.
Import Schema Agent Observations.
Context {W : Type}.

Lemma substring_skip (a s : string) (m n : nat) :
  String.substring (String.length a + m) n (a +:+ s) = String.substring m n s.
Proof. induction a as [|c a IH]; [done|]. simpl. exact IH. Qed.

(** A text found in [s] is found in [a ++ s]. *)
Lemma index_prepend (sub a s : string) :
  sub <> EmptyString ->
  String.index 0 sub s <> None -> String.index 0 sub (a +:+ s) <> None.
Proof.
  intros Hsub Hfound Hnone.
  destruct (String.index 0 sub s) as [m|] eqn:Hm; [|done].
  apply String.index_correct1 in Hm.
  apply (String.index_correct3 0 (String.length a + m)) in Hnone; [|done|lia].
  by rewrite substring_skip in Hnone.
Qed.

Lemma toolDict_fold (tools : list (Tool W)) :
  forall (m : gmap string (Tool W)) (name : string),
    foldl (fun m tool => <[tool_name tool := tool]> m) m tools !! name =
    match last (tools_named name tools) with
    | Some tool => Some tool
    | None => m !! name
    end.
Proof.
  unfold tools_named.
  induction tools as [|tool tools IH]; intros m name; [done|].
  simpl. rewrite IH, filter_cons.
  destruct (decide (tool_name tool = name)) as [<-|Hne].
  - rewrite last_cons. destruct (last (filter _ tools)); [done|].
    apply lookup_insert_eq.
  - destruct (last (filter _ tools)); [done|]. by rewrite lookup_insert_ne.
Qed.
End ConstructorFacts.

(** X6. A new context manager holds exactly one message, the system
    prompt. A prompt that mentions ["Current Workspace"] is stored as it
    is; any other is stored with the workspace section, which names
    [workspaceDir], appended to it. The stored prompt therefore starts with
    the caller's prompt and mentions the workspace, and building a context
    manager from it, with any workspace, stores it unchanged. The
    summarization flag is clear, the provider-reported total is 0 and no
    event has been emitted. *)
Theorem new_ContextManager_starts_with_system_prompt :
  forall (W : Type) (systemPrompt : string) (tools : list (Schema.Tool W))
         (workspaceDir : string) (tokenLimit : Z) (w : W),
    let cm := Agent.new_ContextManager systemPrompt tools workspaceDir tokenLimit w in
    exists prompt,
      Agent.messages cm = [Schema.mkMessage "system" (Schema.Text prompt) None None None None] /\
      String.index 0 "Current Workspace" prompt <> None /\
      (exists section, prompt = systemPrompt +:+ section) /\
      (String.index 0 "Current Workspace" systemPrompt <> None -> prompt = systemPrompt) /\
      (String.index 0 "Current Workspace" systemPrompt = None ->
       prompt =
         systemPrompt +:+ nl +:+ nl +:+ "## Current Workspace" +:+ nl +:+
         "You are currently working in: `" +:+ workspaceDir +:+ "`" +:+ nl +:+
         "All relative paths will be resolved relative to this directory.") /\
      (forall otherDir,
          Agent.messages (Agent.new_ContextManager prompt tools otherDir tokenLimit w) =
            Agent.messages cm) /\
      Agent.skipNextTokenCheck cm = false /\
      Agent.apiTotalTokens cm = 0%Z /\
      Agent.events cm = [].
Proof.
  intros W systemPrompt tools workspaceDir tokenLimit w cm. subst cm.
  unfold Agent.new_ContextManager.
  destruct (String.index 0 "Current Workspace" systemPrompt) as [m|] eqn:Hfound.
  - exists systemPrompt. rewrite Hfound.
    split; [done|]. split; [congruence|]. split; [|done].
    exists EmptyString. clear. induction systemPrompt as [|c s IH]; [done|].
    change (String c s = String c (s +:+ EmptyString)). by f_equal.
  - eexists. split; [reflexivity|].
    match goal with
    | |- ?P /\ _ => assert P as Hnew
    end.
    { apply index_prepend; [done|]. vm_compute. discriminate. }
    split; [exact Hnew|]. split; [by eexists|]. split; [done|]. split; [done|].
    split; [|done]. intros otherDir.
    match type of Hnew with
    | String.index 0 _ ?p <> None =>
        destruct (String.index 0 "Current Workspace" p); [done | by destruct Hnew]
    end.
Qed.

(** X7. The registry built by the constructor maps a name to the last
    tool of the list that carries it, and to nothing when no tool of the
    list carries it. *)
Theorem toolDict_finds_last_tool_of_a_name :
  forall (W : Type) (systemPrompt : string) (tools : list (Schema.Tool W))
         (workspaceDir : string) (tokenLimit : Z) (w : W) (name : string),
    Agent.toolDict (Agent.new_ContextManager systemPrompt tools workspaceDir tokenLimit w)
      !! name = last (Observations.tools_named name tools).
Proof.
  intros W systemPrompt tools workspaceDir tokenLimit w name.
  unfold Agent.new_ContextManager. simpl.
  rewrite toolDict_fold, lookup_empty.
  by destruct (last (Observations.tools_named name tools)).
Qed.

Section SummarizeEffects.
Import Schema Agent Rounds Observations.
Context {W : Type}.
Variable env : Env W.

Local Abbreviation CM := (ContextManager W).

Lemma summary_round_numbers_app (l1 l2 : list AgentEvent) :
  summary_round_numbers (l1 ++ l2) = summary_round_numbers l1 ++ summary_round_numbers l2.
Proof. apply omap_app. Qed.

(** What [createSummary] does to the context manager on a non-empty
    tail: one event, a new world, nothing else. *)
Lemma createSummary_effects (tail : list Message) (roundNum : nat) (cm : CM) :
  tail <> [] ->
  exists e w,
    (createSummary env tail roundNum cm).2 = emit e (set_world w cm) /\
    summary_round_numbers [e] = [roundNum] /\
    is_summarization_event e = true.
Proof.
  intros Hne. destruct tail as [|m tail]; [done|]. unfold createSummary.
  destruct (generate env _ None (world cm)) as [w [response|error]]; simpl; eauto.
Qed.

(** Everything the loop of [summarizeMessages] does besides building the
    new message list. *)
Lemma summarize_rounds_effects (msgs l : list Message) :
  forall (k i : nat) (newMessages : list Message) (summaryCount : nat) (cm : CM),
    drop k msgs = l -> k <= length msgs ->
    let out := summarize_rounds env msgs (user_positions k l) i newMessages summaryCount cm in
    exists evs,
      events out.2 = events cm ++ evs /\
      summary_round_numbers evs = nonempty_round_numbers (i + 1) (split_rounds l).2 /\
      Forall (fun e => is_summarization_event e = true) evs /\
      messages out.2 = messages cm /\
      skipNextTokenCheck out.2 = skipNextTokenCheck cm /\
      apiTotalTokens out.2 = apiTotalTokens cm /\
      same_setup cm out.2 /\
      summaryCount <= out.1.2 /\
      length out.1.1 =
        length newMessages + length (split_rounds l).2 + (out.1.2 - summaryCount) /\
      (Forall (fun round : Message * list Message => round.2 = []) (split_rounds l).2 ->
       world out.2 = world cm /\ evs = [] /\ out.1.2 = summaryCount).
Proof.
  induction l as [|m l IH]; intros k i newMessages summaryCount cm Hdrop Hk out.
  - subst out. exists []. simpl. rewrite app_nil_r.
    repeat split; try done; lia.
  - assert (msgs !! k = Some m) as Hm.
    { rewrite <- (Nat.add_0_r k), <- lookup_drop, Hdrop. done. }
    assert (drop (S k) msgs = l) as Hdrop'.
    { rewrite (drop_S _ _ _ Hm) in Hdrop. by injection Hdrop. }
    assert (S k <= length msgs) as Hk' by (apply lookup_lt_Some in Hm; lia).
    pose proof (slice_round msgs l (S k) Hdrop' Hk') as Hslice.
    subst out. simpl user_positions. simpl split_rounds.
    destruct (split_rounds l) as [tail rounds] eqn:Hs. simpl in Hslice.
    destruct (decide (role m = "user")) as [Hu|Hu]; [|by apply IH].
    cbn [summarize_rounds]. rewrite Hm. simpl option_list.
    replace (k + 1) with (S k) by lia.
    replace (match user_positions (S k) l with
             | [] => length msgs
             | next :: _ => next
             end) with (hd (length msgs) (user_positions (S k) l))
      by (by destruct (user_positions (S k) l)).
    rewrite Hslice. cbn [snd nonempty_round_numbers length].
    destruct tail as [|t tail]; cbn [length Nat.ltb Nat.leb].
    + destruct (IH (S k) (i + 1) (newMessages ++ [m]) summaryCount cm Hdrop' Hk')
        as (evs & He & Hn & Hall & Hmsg & Hsk & Hapi & Hset & Hcnt & Hlen & Hquiet).
      exists evs. replace (S (i + 1)) with (i + 1 + 1) by lia.
      rewrite length_app in Hlen. simpl in Hlen.
      repeat split; try done; try lia; try apply Hset.
      * apply Hquiet. by inversion H.
      * apply Hquiet. by inversion H.
      * apply Hquiet. by inversion H.
    + destruct (createSummary_effects (t :: tail) (i + 1) cm) as (e & w & Hcm1 & Hnum & Hkind);
        [done|].
      destruct (createSummary env (t :: tail) (i + 1) cm) as [summaryText cm1].
      simpl in Hcm1. subst cm1.
      replace (S (i + 1)) with (i + 1 + 1) by lia.
      destruct (String.eqb summaryText EmptyString).
      * destruct (IH (S k) (i + 1) (newMessages ++ [m]) summaryCount
                    (emit e (set_world w cm)) Hdrop' Hk')
          as (evs & He & Hn & Hall & Hmsg & Hsk & Hapi & Hset & Hcnt & Hlen & _).
        exists (e :: evs). rewrite length_app in Hlen. simpl in Hlen.
        repeat split; try done; try lia; try apply Hset.
        -- rewrite He. simpl. by rewrite <- app_assoc.
        -- change (e :: evs) with ([e] ++ evs).
           by rewrite summary_round_numbers_app, Hnum, Hn.
        -- by constructor.
        -- by inversion H.
        -- by inversion H.
        -- by inversion H.
      * destruct (IH (S k) (i + 1) ((newMessages ++ [m]) ++ [summaryMessage summaryText])
                    (summaryCount + 1) (emit e (set_world w cm)) Hdrop' Hk')
          as (evs & He & Hn & Hall & Hmsg & Hsk & Hapi & Hset & Hcnt & Hlen & _).
        exists (e :: evs). rewrite !length_app in Hlen. simpl in Hlen.
        repeat split; try done; try lia; try apply Hset.
        -- rewrite He. simpl. by rewrite <- app_assoc.
        -- change (e :: evs) with ([e] ++ evs).
           by rewrite summary_round_numbers_app, Hnum, Hn.
        -- by constructor.
        -- by inversion H.
        -- by inversion H.
        -- by inversion H.
Qed.

Lemma user_positions_length (l : list Message) (k : nat) :
  length (user_positions k l) = length (split_rounds l).2.
Proof.
  revert k. induction l as [|m l IH]; intros k; [done|]. simpl.
  specialize (IH (S k)). destruct (split_rounds l) as [tail rounds].
  destruct (decide (role m = "user")); simpl in *; by rewrite IH.
Qed.

Lemma estimateTokens_events (cm : CM) :
  exists evs,
    events (estimateTokens env cm).2 = events cm ++ evs /\
    Forall (fun e => is_summarization_event e = true) evs /\
    summary_round_numbers evs = [].
Proof.
  destruct (estimateTokens_state env cm) as [-> | ->].
  - exists []. by rewrite app_nil_r.
  - exists [tokenEstimationFallbacked]. split; [done|]. split; [by constructor | done].
Qed.

Lemma estimateTokens_value_messages (cm1 cm2 : CM) :
  messages cm1 = messages cm2 -> (estimateTokens env cm1).1 = (estimateTokens env cm2).1.
Proof.
  intros Heq. unfold estimateTokens, estimateTokensFallback. simpl. rewrite Heq.
  by destruct (tiktoken_count env (messages cm2)).
Qed.

Lemma estimateTokens_setup (cm : CM) : same_setup cm (estimateTokens env cm).2.
Proof. by destruct (estimateTokens_state env cm) as [-> | ->]. Qed.

(** A pass that finds a user message, as a whole. *)
Lemma check_and_summarize_pass (cm : CM) :
  shouldSummarize (estimateTokens env cm).1 cm = true ->
  userIndices_of (messages cm) <> [] ->
  let cm' := check_and_summarize env cm in
  exists evs newTokens summaryCount,
    events cm' =
      events cm ++ evs ++
      [summarizeMessagesFinished_ok
         "Summary completed and API token count will update on next LLM call."
         (estimateTokens env cm).1 newTokens
         (length (userIndices_of (messages cm))) summaryCount] /\
    Forall (fun e => is_summarization_event e = true) evs /\
    summary_round_numbers evs = nonempty_round_numbers 1 (rounds_of (messages cm)) /\
    length (messages cm') = 1 + length (userIndices_of (messages cm)) + summaryCount /\
    newTokens = (estimateTokens env cm').1 /\
    apiTotalTokens cm' = apiTotalTokens cm /\
    same_setup cm cm' /\
    (Forall (fun round : Message * list Message => round.2 = [])
       (rounds_of (messages cm)) ->
     world cm' = world cm /\ summaryCount = 0).
Proof.
  intros Hshould Hne cm'. subst cm'. unfold check_and_summarize.
  pose proof (estimateTokens_messages env cm) as Hmsgs.
  pose proof (estimateTokens_world env cm) as Hw.
  pose proof (estimateTokens_limits env cm) as [Hlim Hapi].
  pose proof (estimateTokens_setup cm) as Hset1.
  destruct (estimateTokens_events cm) as (fb1 & Hfb1 & Hfb1k & Hfb1n).
  destruct (estimateTokens env cm) as [estimatedTokens cm1] eqn:He.
  simpl in Hshould, Hmsgs, Hw, Hlim, Hapi, Hfb1, Hset1.
  assert (shouldSummarize estimatedTokens cm1 = true) as ->.
  { unfold shouldSummarize in *. by rewrite Hlim, Hapi. }
  cbn [negb]. cbn [messages emit]. rewrite Hmsgs.
  destruct (userIndices_of (messages cm)) as [|u us] eqn:Hui; [done|].
  cbn [length Nat.ltb Nat.leb]. rewrite <- Hui.
  assert (length (userIndices_of (messages cm)) = length (rounds_of (messages cm)))
    as Hcount.
  { rewrite userIndices_positions. apply user_positions_length. }
  rewrite Hui in Hcount. simpl in Hcount.
  rewrite userIndices_positions.
  assert (exists system rest, messages cm = system :: rest) as (system & rest & Hcm).
  { rewrite userIndices_positions in Hui.
    destruct (messages cm) as [|system rest]; [done|]. eauto. }
  unfold rounds_of in *. rewrite Hcm in *. change (drop 1 (system :: rest)) with rest in *.
  change ((system :: rest) !! 0) with (Some system).
  change (option_list (Some system)) with [system].
  set (cm2 := emit _ cm1).
  pose proof (summarize_rounds_effects (system :: rest) rest 1 0 [system] 0 cm2
                (drop_0 rest) ltac:(simpl; lia)) as Hloop.
  cbv zeta in Hloop.
  destruct (summarize_rounds env (system :: rest) (user_positions 1 rest) 0 [system] 0 cm2)
    as [[newMessages summaryCount] cm3].
  destruct Hloop as (evs & Hev & Hnum & Hkind & Hm3 & Hs3 & Ha3 & Hset3 & _ & Hlen & Hquiet).
  simpl in Hev, Hm3, Hs3, Ha3, Hset3, Hlen, Hquiet.
  match goal with
  | |- context [estimateTokens env ?c] =>
      pose proof (estimateTokens_messages env c) as Hm4;
      pose proof (estimateTokens_limits env c) as [_ Ha4];
      pose proof (estimateTokens_world env c) as Hw4;
      pose proof (estimateTokens_setup c) as Hset4;
      destruct (estimateTokens_events c) as (fb2 & Hfb2 & Hfb2k & Hfb2n);
      destruct (estimateTokens env c) as [newTokens cm5] eqn:He5
  end.
  simpl in Hm4, Ha4, Hw4, Hfb2, Hset4.
  exists (fb1 ++ [summarizeMessagesStarted estimatedTokens (apiTotalTokens cm1)
                    (tokenLimit cm1)] ++ evs ++ fb2), newTokens, summaryCount.
  cbn [events messages apiTotalTokens emit world].
  split; [|split; [|split; [|split; [|split; [|split; [|split]]]]]].
  - rewrite Hfb2, Hev. subst cm2. simpl. rewrite Hfb1.
    repeat (rewrite <- app_assoc; simpl). done.
  - repeat (apply Forall_app; split); try done. by constructor.
  - rewrite !summary_round_numbers_app, Hfb1n, Hfb2n, Hnum. simpl.
    by rewrite app_nil_r.
  - rewrite Hm4. rewrite Hlen. simpl. lia.
  - match type of He5 with
    | estimateTokens env ?c = _ =>
        rewrite (estimateTokens_value_messages _ c); [by rewrite He5|]
    end.
    simpl. by rewrite Hm4.
  - rewrite Ha4. simpl. rewrite Ha3. subst cm2. simpl. done.
  - destruct Hset1 as (? & ? & ?), Hset3 as (? & ? & ?), Hset4 as (? & ? & ?).
    subst cm2. simpl in *. unfold same_setup. simpl. repeat split; congruence.
  - intros Hall. destruct (Hquiet Hall) as (Hw3 & _ & Hsc).
    split; [|lia]. rewrite Hw4. simpl. rewrite Hw3. subst cm2. simpl. done.
Qed.
End SummarizeEffects.

Section PassFacts.
Import Schema Agent Rounds Observations.
Context {W : Type}.
Variable env : Env W.

Local Abbreviation CM := (ContextManager W).

Lemma split_rounds_roles (l : list Message) :
  Forall (fun round : Message * list Message => role round.1 = "user") (split_rounds l).2.
Proof.
  induction l as [|m l IH]; [constructor|]. simpl.
  destruct (split_rounds l) as [tail rounds].
  destruct (decide (role m = "user")); simpl in *; [by constructor | done].
Qed.

Lemma rebuilt_rounds_roles (rounds : list (Message * list Message)) :
  Forall (fun round : Message * list Message => role round.1 = "user") rounds ->
  forall roundNum w,
    Forall (fun m => role m = "user") (rebuilt_rounds env roundNum rounds w).
Proof.
  induction 1 as [|[user tail] rounds Hu _ IH]; intros roundNum w; [constructor|].
  simpl. destruct tail as [|t tail]; [by constructor|].
  destruct (round_summary env (t :: tail) roundNum w) as [text w'].
  destruct (String.eqb text EmptyString); repeat constructor; done.
Qed.

Lemma rebuilt_rounds_length (l : list Message) :
  forall roundNum w,
    length (split_rounds l).1 +
    length (rebuilt_rounds env roundNum (split_rounds l).2 w) <= length l.
Proof.
  induction l as [|m l IH]; intros roundNum w; [done|]. simpl.
  destruct (split_rounds l) as [tail rounds] eqn:Hs. simpl in IH.
  destruct (decide (role m = "user")); simpl.
  - destruct tail as [|t tail].
    + specialize (IH (S roundNum) w). simpl in *. lia.
    + destruct (round_summary env (t :: tail) roundNum w) as [text w'].
      specialize (IH (S roundNum) w').
      destruct (String.eqb text EmptyString); simpl in *; lia.
  - specialize (IH roundNum w). lia.
Qed.

Lemma split_rounds_all_users (l : list Message) :
  Forall (fun m => role m = "user") l ->
  split_rounds l = ([], map (fun m => (m, [])) l).
Proof.
  induction 1 as [|m l Hu _ IH]; [done|]. simpl. rewrite IH.
  by rewrite decide_True.
Qed.

Lemma rebuilt_rounds_bare (l : list Message) :
  forall roundNum w,
    rebuilt_rounds env roundNum (map (fun m => (m, [])) l) w = l.
Proof. induction l as [|m l IH]; intros roundNum w; [done|]. simpl. by rewrite IH. Qed.

(** Every call of [summarizeMessages] only adds summarization events and
    leaves the limit, the tools and the provider-reported total alone. *)
Lemma summarizeMessages_frame (cm : CM) :
  exists evs,
    events (summarizeMessages env cm) = events cm ++ evs /\
    Forall (fun e => is_summarization_event e = true) evs /\
    same_setup cm (summarizeMessages env cm) /\
    apiTotalTokens (summarizeMessages env cm) = apiTotalTokens cm.
Proof.
  unfold summarizeMessages. destruct (skipNextTokenCheck cm) eqn:Hskip.
  { exists []. simpl. by rewrite app_nil_r. }
  destruct (estimateTokens_events env cm) as (fb & Hfb & Hfbk & _).
  pose proof (estimateTokens_setup env cm) as Hset.
  pose proof (estimateTokens_limits env cm) as [_ Hapi].
  destruct (shouldSummarize (estimateTokens env cm).1 cm) eqn:Hshould.
  - destruct (userIndices_of (messages cm)) as [|u us] eqn:Hui.
    + rewrite check_insufficient by done. simpl. rewrite Hfb.
      exists (fb ++ [summarizeMessagesStarted (estimateTokens env cm).1
                       (apiTotalTokens cm) (tokenLimit cm);
                     summarizeMessagesFinished_failed
                       "Insufficient messages, cannot summarize."]).
      split; [by repeat (rewrite <- app_assoc; simpl)|].
      split; [|done]. apply Forall_app. split; [done|]. by repeat constructor.
    + destruct (check_and_summarize_pass env cm Hshould)
        as (evs & newTokens & summaryCount & Hev & Hkind & _ & _ & _ & Ha & Hs & _);
        [by rewrite Hui|].
      rewrite Hev. eexists. split; [reflexivity|].
      split; [|done]. apply Forall_app. split; [done|]. by repeat constructor.
  - rewrite check_no_trigger by done. by exists fb.
Qed.

Lemma summarizeMessages_length (cm : CM) :
  length (messages (summarizeMessages env cm)) <= length (messages cm).
Proof.
  unfold summarizeMessages. destruct (skipNextTokenCheck cm); [done|].
  destruct (shouldSummarize (estimateTokens env cm).1 cm) eqn:Hshould.
  - destruct (userIndices_of (messages cm)) as [|u us] eqn:Hui.
    + rewrite check_insufficient by done. simpl. by rewrite estimateTokens_messages.
    + destruct (check_and_summarize_rebuilt env cm Hshould) as (system & H0 & -> & _);
        [by rewrite Hui|].
      unfold rounds_of. destruct (messages cm) as [|m0 rest]; [done|].
      simpl. rewrite drop_0.
      pose proof (rebuilt_rounds_length rest 1 (world cm)). lia.
  - rewrite check_no_trigger by done. by rewrite estimateTokens_messages.
Qed.

Lemma summarizeMessages_first (cm : CM) :
  messages (summarizeMessages env cm) !! 0 = messages cm !! 0.
Proof.
  unfold summarizeMessages. destruct (skipNextTokenCheck cm); [done|].
  destruct (shouldSummarize (estimateTokens env cm).1 cm) eqn:Hshould.
  - destruct (userIndices_of (messages cm)) as [|u us] eqn:Hui.
    + rewrite check_insufficient by done. simpl. by rewrite estimateTokens_messages.
    + destruct (check_and_summarize_rebuilt env cm Hshould) as (system & H0 & -> & _);
        [by rewrite Hui|].
      by rewrite H0.
  - rewrite check_no_trigger by done. by rewrite estimateTokens_messages.
Qed.

Lemma reachable_first_message (cm : CM) :
  reachable env cm ->
  exists prompt,
    messages cm !! 0 = Some (mkMessage "system" (Text prompt) None None None None).
Proof.
  induction 1 as [| content cm _ IH | response cm _ IH | result id name cm _ IH
                  | response cm _ IH | cm _ IH | e cm _ IH | w cm _ IH]; try done.
  - unfold new_ContextManager. simpl. eauto.
  - destruct IH as [prompt IH]. exists prompt. simpl.
    by apply lookup_app_l_Some.
  - destruct IH as [prompt IH]. exists prompt. simpl.
    by apply lookup_app_l_Some.
  - destruct IH as [prompt IH]. exists prompt. simpl.
    by apply lookup_app_l_Some.
  - unfold updateApiTokens. by destruct (usage response).
  - by rewrite summarizeMessages_first.
Qed.
End PassFacts.

Section RunInvariant.
Import Schema Agent Observations.
Context {W : Type}.
Variable env : Env W.
Variable P : ContextManager W -> Prop.

Local Abbreviation CM := (ContextManager W).

Hypothesis P_addAssistantMessage : forall response cm, P cm -> P (addAssistantMessage response cm).
Hypothesis P_addToolMessage :
  forall result toolCallId name cm, P cm -> P (addToolMessage result toolCallId name cm).
Hypothesis P_updateApiTokens : forall response cm, P cm -> P (updateApiTokens response cm).
Hypothesis P_summarizeMessages : forall cm, P cm -> P (summarizeMessages env cm).
Hypothesis P_emit : forall e cm, P cm -> P (emit e cm).
Hypothesis P_set_world : forall w cm, P cm -> P (set_world w cm).

Lemma dispatch_invariant (cm : CM) (tc : ToolCall) :
  P cm -> P (dispatch_tool_call cm tc).1.
Proof.
  intros Hcm. unfold dispatch_tool_call.
  destruct (execute_tool _ _ _) as [w [result|error]]; simpl.
  - by apply P_addToolMessage, P_emit, P_set_world, P_emit.
  - by apply P_set_world, P_emit.
Qed.

Lemma dispatch_all_invariant (tcs : list ToolCall) :
  forall cm : CM, P cm -> P (dispatch_tool_calls cm tcs).1.
Proof.
  induction tcs as [|tc tcs IH]; intros cm Hcm; [done|].
  simpl. pose proof (dispatch_invariant cm tc Hcm) as Hone.
  destruct (dispatch_tool_call cm tc) as [cm' [error|]]; [done|]. by apply IH.
Qed.

Lemma run_step_invariant (maxSteps step : nat) (cm : CM) :
  P cm -> P (run_step env maxSteps step cm).2.
Proof.
  intros Hcm. unfold run_step.
  pose proof (P_emit (stepStarted (step + 1) maxSteps) _ (P_summarizeMessages cm Hcm)) as H0.
  destruct (generate env _ _ _) as [w [response|error]].
  - pose proof (P_addAssistantMessage response _
                  (P_updateApiTokens response _
                     (P_emit (llmResponseReceived response) _ (P_set_world w _ H0)))) as H1.
    destruct (resp_tool_calls response) as [[|tc tcs]|];
      [by apply P_emit | | by apply P_emit].
    pose proof (dispatch_all_invariant (tc :: tcs) _ H1) as Hall.
    by destruct (dispatch_tool_calls _ (tc :: tcs)) as [cm' [error|]].
  - destruct error as [| |[n m st|lastException attempts]]; simpl;
      by apply P_emit, P_set_world.
Qed.

Lemma run_loop_invariant (maxSteps fuel : nat) :
  forall (step : nat) (cm : CM), P cm -> P (run_loop env fuel maxSteps step cm).1.
Proof.
  induction fuel as [|fuel IH]; intros step cm Hcm; simpl.
  - by apply P_emit.
  - destruct (step <? maxSteps); [|by apply P_emit].
    pose proof (run_step_invariant maxSteps step cm Hcm) as Hstep.
    destruct (run_step env maxSteps step cm) as [[| |error] cm']; [done| |done].
    by apply IH.
Qed.

(** A property of the context manager that every method used by [run]
    keeps holds when the promise of [run] settles. *)
Lemma run_invariant (maxSteps : nat) (cm : CM) : P cm -> P (run env maxSteps cm).1.
Proof. apply run_loop_invariant. Qed.
End RunInvariant.

(** X8. In every state that the constructor and the methods can produce,
    the history starts with a message of role [system], and a run of the
    agent, with its appends and summarization passes, leaves that first
    message in place, also when the run is rejected. *)
Theorem history_always_starts_with_system_prompt :
  forall (W : Type) (env : Agent.Env W) (cm : Agent.ContextManager W),
    Agent.reachable env cm ->
    exists prompt,
      Agent.messages cm !! 0 =
        Some (Schema.mkMessage "system" (Schema.Text prompt) None None None None) /\
      forall maxSteps,
        Agent.messages (Agent.run env maxSteps cm).1 !! 0 = Agent.messages cm !! 0.
Proof.
  intros W env cm Hreach.
  destruct (reachable_first_message env cm Hreach) as [prompt Hp].
  exists prompt. split; [done|]. intros maxSteps. rewrite Hp.
  apply (run_invariant env
           (fun c => Agent.messages c !! 0 =
                     Some (Schema.mkMessage "system" (Schema.Text prompt)
                             None None None None))); try done.
  - intros response c Hc. simpl. by apply lookup_app_l_Some.
  - intros result toolCallId name c Hc. simpl. by apply lookup_app_l_Some.
  - intros response c Hc. unfold Agent.updateApiTokens.
    by destruct (Schema.usage response).
  - intros c Hc. by rewrite summarizeMessages_first.
Qed.

Lemma history_always_starts_with_system_prompt_witness :
  exists prompt,
    Agent.messages Scenarios.greeted !! 0 =
      Some (Schema.mkMessage "system" (Schema.Text prompt) None None None None) /\
    forall maxSteps,
      Agent.messages (Agent.run Examples.unreachable_llm maxSteps Scenarios.greeted).1 !! 0 =
      Agent.messages Scenarios.greeted !! 0.
Proof.
  apply history_always_starts_with_system_prompt.
  apply Agent.reach_addUserMessage, Agent.reach_new.
Defined.

(** X9. After a summarization pass that rebuilds the history, every
    message after the first has role [user]: no assistant or tool message
    is left. *)
Theorem summarization_leaves_only_user_messages :
  forall (W : Type) (env : Agent.Env W) (cm : Agent.ContextManager W),
    Agent.skipNextTokenCheck cm = false ->
    Agent.shouldSummarize (Agent.estimateTokens env cm).1 cm = true ->
    Agent.userIndices_of (Agent.messages cm) <> [] ->
    Forall (fun m => Schema.role m = "user")
      (drop 1 (Agent.messages (Agent.summarizeMessages env cm))).
Proof.
  intros W env cm Hskip Hshould Hne. unfold Agent.summarizeMessages. rewrite Hskip.
  destruct (check_and_summarize_rebuilt env cm Hshould Hne) as (system & _ & -> & _).
  simpl. rewrite drop_0. apply rebuilt_rounds_roles, split_rounds_roles.
Qed.

Lemma summarization_leaves_only_user_messages_witness :
  Forall (fun m => Schema.role m = "user")
    (drop 1 (Agent.messages (Agent.summarizeMessages Examples.terse_llm Examples.one_round))).
Proof.
  apply summarization_leaves_only_user_messages.
  - reflexivity.
  - reflexivity.
  - vm_compute. discriminate.
Defined.

(** X10. No call of [summarizeMessages] makes the history longer. *)
Theorem summarizeMessages_never_lengthens_history :
  forall (W : Type) (env : Agent.Env W) (cm : Agent.ContextManager W),
    length (Agent.messages (Agent.summarizeMessages env cm)) <= length (Agent.messages cm).
Proof. intros W env cm. apply summarizeMessages_length. Qed.

(** X11. A pass that rebuilds the history ends with a
    [summarizeMessagesFinished] event with [ok = true] that reports the old
    estimate, the estimate of the new history, the number of user messages
    kept and the number of summary messages added; the new history holds
    the first message, these user messages and these summaries and nothing
    else. *)
Theorem summarization_report_adds_up :
  forall (W : Type) (env : Agent.Env W) (cm : Agent.ContextManager W),
    Agent.skipNextTokenCheck cm = false ->
    Agent.shouldSummarize (Agent.estimateTokens env cm).1 cm = true ->
    Agent.userIndices_of (Agent.messages cm) <> [] ->
    let cm' := Agent.summarizeMessages env cm in
    exists summaryCount,
      last (Agent.events cm') =
        Some (Agent.summarizeMessagesFinished_ok
                "Summary completed and API token count will update on next LLM call."
                (Agent.estimateTokens env cm).1 (Agent.estimateTokens env cm').1
                (length (Agent.userIndices_of (Agent.messages cm))) summaryCount) /\
      length (Agent.messages cm') =
        1 + length (Agent.userIndices_of (Agent.messages cm)) + summaryCount.
Proof.
  intros W env cm Hskip Hshould Hne cm'. subst cm'.
  unfold Agent.summarizeMessages. rewrite Hskip.
  destruct (check_and_summarize_pass env cm Hshould Hne)
    as (evs & newTokens & summaryCount & Hev & _ & _ & Hlen & Hnew & _).
  exists summaryCount. split; [|done].
  rewrite Hev, app_assoc, last_snoc. by rewrite Hnew.
Qed.

Lemma summarization_report_adds_up_witness :
  let cm' := Agent.summarizeMessages Examples.terse_llm Examples.one_round in
  exists summaryCount,
    last (Agent.events cm') =
      Some (Agent.summarizeMessagesFinished_ok
              "Summary completed and API token count will update on next LLM call."
              20 50 1 summaryCount) /\
    length (Agent.messages cm') = 1 + 1 + summaryCount.
Proof.
  apply (summarization_report_adds_up unit Examples.terse_llm Examples.one_round).
  - reflexivity.
  - reflexivity.
  - vm_compute. discriminate.
Defined.

Lemma nonempty_round_numbers_bare (l : list Schema.Message) (roundNum : nat) :
  Observations.nonempty_round_numbers roundNum (map (fun m => (m, [])) l) = [].
Proof. revert roundNum. induction l as [|m l IH]; intros roundNum; [done|]. apply IH. Qed.

(** X12. A history in which every message after the first has role
    [user] is a fixed point of summarization: a triggered pass rebuilds the
    same history, calls no LLM and reports no summary. So is, in
    particular, a history that a pass has just rebuilt. *)
Theorem summarized_history_is_a_fixed_point :
  forall (W : Type) (env : Agent.Env W) (cm : Agent.ContextManager W),
    Agent.skipNextTokenCheck cm = false ->
    Agent.shouldSummarize (Agent.estimateTokens env cm).1 cm = true ->
    1 < length (Agent.messages cm) ->
    Forall (fun m => Schema.role m = "user") (drop 1 (Agent.messages cm)) ->
    let cm' := Agent.summarizeMessages env cm in
    Agent.messages cm' = Agent.messages cm /\
    Agent.world cm' = Agent.world cm /\
    Observations.summary_round_numbers (drop (length (Agent.events cm)) (Agent.events cm'))
      = [].
Proof.
  intros W env cm Hskip Hshould Hlen Hall cm'. subst cm'.
  assert (Agent.userIndices_of (Agent.messages cm) <> []) as Hne.
  { rewrite userIndices_positions.
    destruct (Agent.messages cm) as [|m0 [|m1 rest]]; simpl in Hlen; try lia.
    change (drop 1 (m0 :: m1 :: rest)) with (m1 :: rest) in *.
    inversion Hall; subst. simpl. by rewrite decide_True. }
  unfold Agent.summarizeMessages. rewrite Hskip.
  destruct (check_and_summarize_rebuilt env cm Hshould Hne) as (system & H0 & Hmsgs & _).
  destruct (check_and_summarize_pass env cm Hshould Hne)
    as (evs & newTokens & summaryCount & Hev & _ & Hnum & _ & _ & _ & _ & Hquiet).
  unfold Rounds.rounds_of in *. rewrite (split_rounds_all_users _ Hall) in *.
  simpl in Hmsgs, Hnum, Hquiet.
  rewrite rebuilt_rounds_bare in Hmsgs.
  destruct Hquiet as [Hw _]; [by apply Forall_fmap, Forall_true|].
  split; [|split; [done|]].
  - rewrite Hmsgs. destruct (Agent.messages cm) as [|m0 rest]; [done|].
    injection H0 as ->. simpl. by rewrite drop_0.
  - by rewrite Hev, drop_app_length, summary_round_numbers_app, Hnum,
      nonempty_round_numbers_bare.
Qed.

Lemma summarized_history_is_a_fixed_point_witness :
  let cm := Agent.set_skipNextTokenCheck false
              (Agent.summarizeMessages Examples.terse_llm Examples.one_round) in
  Agent.messages (Agent.summarizeMessages Examples.terse_llm cm) = Agent.messages cm.
Proof.
  intros cm.
  apply (summarized_history_is_a_fixed_point unit Examples.terse_llm cm).
  - reflexivity.
  - reflexivity.
  - vm_compute. lia.
  - vm_compute. repeat constructor.
Defined.

(** X13. A pass that rebuilds the history asks for one summary per round
    whose tail is not empty, in the order of the rounds, and numbers the
    requests by the position of the round, counted from 1. *)
Theorem one_summary_request_per_nonempty_round :
  forall (W : Type) (env : Agent.Env W) (cm : Agent.ContextManager W),
    Agent.skipNextTokenCheck cm = false ->
    Agent.shouldSummarize (Agent.estimateTokens env cm).1 cm = true ->
    Agent.userIndices_of (Agent.messages cm) <> [] ->
    Observations.summary_round_numbers
      (drop (length (Agent.events cm)) (Agent.events (Agent.summarizeMessages env cm))) =
    Observations.nonempty_round_numbers 1 (Rounds.rounds_of (Agent.messages cm)).
Proof.
  intros W env cm Hskip Hshould Hne.
  unfold Agent.summarizeMessages. rewrite Hskip.
  destruct (check_and_summarize_pass env cm Hshould Hne)
    as (evs & newTokens & summaryCount & Hev & _ & Hnum & _).
  rewrite Hev, drop_app_length, summary_round_numbers_app, Hnum. simpl.
  by rewrite app_nil_r.
Qed.

Lemma one_summary_request_per_nonempty_round_witness :
  Observations.summary_round_numbers
    (drop (length (Agent.events Examples.one_round))
       (Agent.events (Agent.summarizeMessages Examples.terse_llm Examples.one_round))) = [1].
Proof.
  rewrite (one_summary_request_per_nonempty_round unit Examples.terse_llm Examples.one_round).
  - reflexivity.
  - reflexivity.
  - reflexivity.
  - vm_compute. discriminate.
Defined.

(** X14. A call of [summarizeMessages] emits only events of
    summarization (token estimation fallback, summarize started and
    finished, create summary finished) and never changes the token limit,
    the tools, the registry or the provider-reported total. *)
Theorem summarizeMessages_touches_only_history :
  forall (W : Type) (env : Agent.Env W) (cm : Agent.ContextManager W),
    let cm' := Agent.summarizeMessages env cm in
    exists evs,
      Agent.events cm' = Agent.events cm ++ evs /\
      Forall (fun e => Observations.is_summarization_event e = true) evs /\
      Agent.tokenLimit cm' = Agent.tokenLimit cm /\
      Agent.tools cm' = Agent.tools cm /\
      Agent.toolDict cm' = Agent.toolDict cm /\
      Agent.apiTotalTokens cm' = Agent.apiTotalTokens cm.
Proof.
  intros W env cm cm'. subst cm'.
  destruct (summarizeMessages_frame env cm) as (evs & Hev & Hkind & (? & ? & ?) & ?).
  by exists evs.
Qed.

(** * Further properties of token estimation *)
Section TokenSum.
Import Schema Agent.
Context {W : Type}.
Variable env : Env W.
Variable encode : string -> option nat.

(** Adding [t] to a count that may have failed. *)
Local Abbreviation shift t o := ((fun n => t + n) <$> o).

Lemma add_encoded_shift (s : string) (t : nat) (o : option nat) :
  add_encoded encode s (shift t o) = shift t (add_encoded encode s o).
Proof.
  unfold add_encoded. destruct o as [a|]; simpl; [|done].
  destruct (encode s) as [n|]; simpl; [|done]. f_equal. lia.
Qed.

Lemma count_blocks_shift (blocks : list Json) (t : nat) :
  forall o : option nat,
    foldl (fun t block =>
             if is_object block then add_encoded encode (JSON_stringify env block) t
             else t) (shift t o) blocks =
    shift t (foldl (fun t block =>
                      if is_object block
                      then add_encoded encode (JSON_stringify env block) t
                      else t) o blocks).
Proof.
  induction blocks as [|b blocks IH]; intros o; [done|].
  cbn [foldl]. destruct (is_object b); [|apply IH].
  rewrite add_encoded_shift. apply IH.
Qed.

Lemma count_message_shift (msg : Message) (t : nat) (o : option nat) :
  count_message env encode (shift t o) msg = shift t (count_message env encode o msg).
Proof.
  unfold count_message.
  assert (match content msg with
          | Text s => add_encoded encode s (shift t o)
          | Blocks blocks =>
              foldl (fun t block =>
                       if is_object block
                       then add_encoded encode (JSON_stringify env block) t
                       else t) (shift t o) blocks
          end =
          shift t (match content msg with
                   | Text s => add_encoded encode s o
                   | Blocks blocks =>
                       foldl (fun t block =>
                                if is_object block
                                then add_encoded encode (JSON_stringify env block) t
                                else t) o blocks
                   end)) as ->.
  { destruct (content msg); [apply add_encoded_shift | apply count_blocks_shift]. }
  set (o1 := match content msg with
             | Text s => add_encoded encode s o
             | Blocks blocks => foldl _ o blocks
             end).
  assert (match thinking msg with
          | Some s => if String.eqb s EmptyString then shift t o1
                      else add_encoded encode s (shift t o1)
          | None => shift t o1
          end =
          shift t (match thinking msg with
                   | Some s => if String.eqb s EmptyString then o1
                               else add_encoded encode s o1
                   | None => o1
                   end)) as ->.
  { destruct (thinking msg) as [s|]; [|done].
    destruct (String.eqb s EmptyString); [done | apply add_encoded_shift]. }
  set (o2 := match thinking msg with
             | Some s => if String.eqb s EmptyString then o1 else add_encoded encode s o1
             | None => o1
             end).
  destruct (tool_calls msg) as [tcs|].
  - rewrite add_encoded_shift.
    destruct (add_encoded encode _ o2); simpl; [f_equal; lia | done].
  - destruct o2; simpl; [f_equal; lia | done].
Qed.

Lemma count_messages_shift (msgs : list Message) (t : nat) :
  forall o : option nat,
    foldl (count_message env encode) (shift t o) msgs =
    shift t (foldl (count_message env encode) o msgs).
Proof.
  induction msgs as [|m msgs IH]; intros o; [done|].
  cbn [foldl]. rewrite count_message_shift. apply IH.
Qed.

Lemma count_messages_none (msgs : list Message) :
  foldl (count_message env encode) None msgs = None.
Proof.
  induction msgs as [|m msgs IH]; [done|]. cbn [foldl].
  by rewrite count_message_none.
Qed.

Lemma count_messages_floor (msgs : list Message) :
  forall t t',
    foldl (count_message env encode) (Some t) msgs = Some t' ->
    t + 4 * length msgs <= t'.
Proof.
  induction msgs as [|m msgs IH]; intros t t' Hfold; cbn [foldl] in Hfold.
  - injection Hfold as <-. simpl. lia.
  - destruct (count_message env encode (Some t) m) as [t1|] eqn:Hm.
    + apply count_message_ge in Hm. apply IH in Hfold. simpl. lia.
    + by rewrite count_messages_none in Hfold.
Qed.
End TokenSum.

(** X15. On the tokenizer path the estimate of a history is the sum of
    the estimates of its parts, it fails as soon as one part fails, and it
    counts at least the overhead of 4 for every message. *)
Theorem tiktoken_count_is_additive :
  forall (W : Type) (env : Agent.Env W) (l1 l2 : list Schema.Message),
    Agent.tiktoken_count env (l1 ++ l2) =
      match Agent.tiktoken_count env l1, Agent.tiktoken_count env l2 with
      | Some t1, Some t2 => Some (t1 + t2)
      | _, _ => None
      end /\
    forall t, Agent.tiktoken_count env l1 = Some t -> 4 * length l1 <= t.
Proof.
  intros W env l1 l2. unfold Agent.tiktoken_count.
  destruct (Agent.get_encoding env) as [encode|]; [|done]. split.
  - rewrite foldl_app.
    destruct (foldl (Agent.count_message env encode) (Some 0) l1) as [t1|].
    + replace (Some t1) with ((fun n => t1 + n) <$> Some 0) by (simpl; f_equal; lia).
      rewrite count_messages_shift.
      by destruct (foldl (Agent.count_message env encode) (Some 0) l2).
    + by rewrite count_messages_none.
  - intros t Ht. by apply count_messages_floor in Ht.
Qed.

(** * Further properties of the agent loop *)
Section RunEvents.
Import Schema Agent Observations.
Context {W : Type}.
Variable env : Env W.

Local Abbreviation CM := (ContextManager W).

Lemma step_numbers_app (l1 l2 : list AgentEvent) :
  step_numbers (l1 ++ l2) = step_numbers l1 ++ step_numbers l2.
Proof. apply omap_app. Qed.

Lemma quiet_step_numbers (evs : list AgentEvent) :
  Forall (fun e => is_quiet e = true) evs -> step_numbers evs = [].
Proof.
  induction 1 as [|e evs He _ IH]; [done|].
  change (e :: evs) with ([e] ++ evs). rewrite step_numbers_app, IH.
  by destruct e.
Qed.

Lemma quiet_not_finished (evs : list AgentEvent) :
  Forall (fun e => is_quiet e = true) evs ->
  Forall (fun e => is_runFinished e = false) evs.
Proof. intros H. eapply Forall_impl; [exact H|]. intros e He. by destruct e. Qed.

Lemma summarization_events_quiet (evs : list AgentEvent) :
  Forall (fun e => is_summarization_event e = true) evs ->
  Forall (fun e => is_quiet e = true) evs.
Proof. intros H. eapply Forall_impl; [exact H|]. intros e He. by destruct e. Qed.

(** The error that leaves a tool call is the [TypeError] of reading the
    [name] of [null] or [undefined]. *)
Lemma dispatch_tool_call_error (cm : CM) (tc : ToolCall) (error : JsError) :
  (dispatch_tool_call cm tc).2 = Some error ->
  exists undefined, error = TypeError_reading undefined "name".
Proof.
  intros Herr. destruct (dispatch_tool_call_state cm tc) as [Hstate _].
  destruct (execute_tool _ _ cm).2 as [result|error'] eqn:Hex.
  - destruct Hstate as (Hnone & _). congruence.
  - destruct Hstate as (Hsome & _). rewrite Herr in Hsome. injection Hsome as ->.
    destruct (execute_tool_rejects _ _ _ _ Hex) as (tool & w & undefined & _ & _ & ->).
    by exists undefined.
Qed.

Lemma dispatch_all_events (tcs : list ToolCall) :
  forall cm : CM,
    exists evs,
      events (dispatch_tool_calls cm tcs).1 = events cm ++ evs /\
      Forall (fun e => is_quiet e = true) evs /\
      forall error, (dispatch_tool_calls cm tcs).2 = Some error ->
                    exists undefined, error = TypeError_reading undefined "name".
Proof.
  induction tcs as [|tc tcs IH]; intros cm.
  - exists []. simpl. by rewrite app_nil_r.
  - simpl. destruct (dispatch_tool_call_state cm tc) as [Hstate _].
    pose proof (dispatch_tool_call_error cm tc) as Herror.
    destruct (execute_tool _ _ cm).2 as [result|error'].
    + destruct Hstate as (Hnone & _ & He).
      destruct (dispatch_tool_call cm tc) as [cm' r]. simpl in *. subst r.
      destruct (IH cm') as (evs & Hev & Hq & Herr).
      rewrite Hev, He. eexists. split; [by rewrite <- app_assoc|].
      split; [|done]. apply Forall_app. split; [by repeat constructor | done].
    + destruct Hstate as (Hsome & _ & He).
      destruct (dispatch_tool_call cm tc) as [cm' r]. simpl in *. subst r.
      eexists. split; [exact He|]. split; [by repeat constructor|].
      intros error [= <-]. by apply Herror.
Qed.

(** The events of one step: the step's number first, then events that
    neither start a step nor finish the run, then, when the step returns,
    one [runFinished] event. *)
Lemma run_step_events (maxSteps step : nat) (cm : CM) :
  exists evs,
    events (run_step env maxSteps step cm).2 = events cm ++ evs /\
    step_numbers evs = [step + 1] /\
    match (run_step env maxSteps step cm).1 with
    | Returned =>
        exists evs' e, evs = evs' ++ [e] /\ is_runFinished e = true /\
                       Forall (fun e => is_runFinished e = false) evs'
    | NextStep => Forall (fun e => is_runFinished e = false) evs
    | Threw error =>
        Forall (fun e => is_runFinished e = false) evs /\
        exists undefined, error = TypeError_reading undefined "name"
    end.
Proof.
  destruct (summarizeMessages_frame env cm) as (sevs & Hs & Hkind & _).
  apply summarization_events_quiet in Hkind.
  pose proof (quiet_step_numbers _ Hkind) as Hsn.
  pose proof (quiet_not_finished _ Hkind) as Hsf.
  unfold run_step.
  destruct (generate env _ _ _) as [w [response|error]].
  - assert (events (addAssistantMessage response
                      (updateApiTokens response
                         (emit (llmResponseReceived response)
                            (set_world w (emit (stepStarted (step + 1) maxSteps)
                                            (summarizeMessages env cm)))))) =
            events cm ++ sevs ++ [stepStarted (step + 1) maxSteps;
                                  llmResponseReceived response]) as Hbase.
    { unfold updateApiTokens. destruct (usage response); simpl; rewrite Hs;
        by repeat (rewrite <- app_assoc; simpl). }
    assert (forall cm1 : CM,
               events cm1 = events cm ++ sevs ++ [stepStarted (step + 1) maxSteps;
                                                  llmResponseReceived response] ->
               exists evs,
                 events (emit (runFinished_ok (resp_content response)) cm1) =
                   events cm ++ evs /\
                 step_numbers evs = [step + 1] /\
                 exists evs' e, evs = evs' ++ [e] /\ is_runFinished e = true /\
                                Forall (fun e => is_runFinished e = false) evs') as Hdone.
    { intros cm1 Hcm1.
      exists ((sevs ++ [stepStarted (step + 1) maxSteps; llmResponseReceived response]) ++
              [runFinished_ok (resp_content response)]).
      split; [simpl; rewrite Hcm1; by rewrite <- !app_assoc|]. split.
      - by rewrite !step_numbers_app, Hsn.
      - eexists _, _. split; [done|]. split; [done|].
        apply Forall_app. split; [done | by repeat constructor]. }
    destruct (resp_tool_calls response) as [[|tc tcs]|] eqn:Hcalls;
      [by apply Hdone | | by apply Hdone].
    match goal with
    | |- context [dispatch_tool_calls ?c (tc :: tcs)] =>
        destruct (dispatch_all_events (tc :: tcs) c) as (tevs & Ht & Hq & Herr);
        destruct (dispatch_tool_calls c (tc :: tcs)) as [cm' r]
    end.
    cbn [fst snd] in Ht, Herr. rewrite Hbase in Ht.
    exists (sevs ++ [stepStarted (step + 1) maxSteps; llmResponseReceived response] ++ tevs).
    assert (Forall (fun e => is_runFinished e = false)
              (sevs ++ [stepStarted (step + 1) maxSteps; llmResponseReceived response] ++
               tevs)) as Hnf.
    { apply Forall_app. split; [done|]. apply Forall_app.
      split; [by repeat constructor | by apply quiet_not_finished]. }
    assert (step_numbers (sevs ++ [stepStarted (step + 1) maxSteps;
                                   llmResponseReceived response] ++ tevs) = [step + 1])
      as Hnum.
    { rewrite !step_numbers_app, Hsn, (quiet_step_numbers _ Hq). done. }
    destruct r as [error|]; cbn [fst snd].
    + split; [by rewrite Ht, <- !app_assoc|]. split; [done|]. split; [done|].
      by apply Herr.
    + split; [by rewrite Ht, <- !app_assoc|]. by split.
  - assert (forall msg,
               exists evs,
                 events (emit (runFinished_failed msg error)
                           (set_world w (emit (stepStarted (step + 1) maxSteps)
                                           (summarizeMessages env cm)))) =
                   events cm ++ evs /\
                 step_numbers evs = [step + 1] /\
                 exists evs' e, evs = evs' ++ [e] /\ is_runFinished e = true /\
                                Forall (fun e => is_runFinished e = false) evs') as Hfail.
    { intros msg.
      exists ((sevs ++ [stepStarted (step + 1) maxSteps]) ++ [runFinished_failed msg error]).
      split; [simpl; rewrite Hs; by rewrite <- !app_assoc|]. split.
      - by rewrite !step_numbers_app, Hsn.
      - eexists _, _. split; [done|]. split; [done|].
        apply Forall_app. split; [done | by repeat constructor]. }
    destruct error as [| |[n m st|lastException attempts]]; cbn [fst snd]; apply Hfail.
Qed.

(** The events of the loop from step [step] on. *)
Lemma run_loop_events (maxSteps fuel : nat) :
  forall (step : nat) (cm : CM),
    exists evs k,
      Forall (fun e => is_runFinished e = false) evs /\
      step_numbers evs = seq (step + 1) k /\
      k <= fuel /\ k <= maxSteps - step /\
      match (run_loop env fuel maxSteps step cm).2 with
      | None =>
          exists e, events (run_loop env fuel maxSteps step cm).1 =
                      events cm ++ evs ++ [e] /\
                    is_runFinished e = true
      | Some error =>
          events (run_loop env fuel maxSteps step cm).1 = events cm ++ evs /\
          exists undefined, error = TypeError_reading undefined "name"
      end.
Proof.
  induction fuel as [|fuel IH]; intros step cm.
  - exists [], 0. simpl. repeat split; try done; try lia. by eexists.
  - simpl. destruct (Nat.ltb_spec step maxSteps).
    2: { exists [], 0. simpl. repeat split; try done; try lia. by eexists. }
    destruct (run_step_events maxSteps step cm) as (evs & Hev & Hnum & Hend).
    destruct (run_step env maxSteps step cm) as [[| |error] cm'] eqn:Hstep;
      simpl in Hev, Hend.
    + destruct Hend as (evs' & e & -> & He & Hq).
      exists evs', 1. cbn [fst snd]. repeat split; try done; try lia.
      * rewrite step_numbers_app in Hnum.
        destruct e; try done; simpl in Hnum; by rewrite app_nil_r in Hnum.
      * by exists e.
    + destruct (IH (step + 1) cm') as (evs2 & k & Hq2 & Hnum2 & Hk & Hk' & Hend2).
      exists (evs ++ evs2), (S k).
      split; [by apply Forall_app|]. split.
      { rewrite step_numbers_app, Hnum, Hnum2. simpl.
        by replace (step + 1 + 1) with (S (step + 1)) by lia. }
      split; [lia|]. split; [lia|].
      destruct (run_loop env fuel maxSteps (step + 1) cm').2 as [error|].
      * destruct Hend2 as (Hev2 & Herr). split; [|done].
        by rewrite Hev2, Hev, <- !app_assoc.
      * destruct Hend2 as (e & Hev2 & He). exists e. split; [|done].
        by rewrite Hev2, Hev, <- !app_assoc.
    + destruct Hend as (Hq & Herr). exists evs, 1. cbn [fst snd].
      repeat split; try done; lia.
Qed.
End RunEvents.

(** *** Runs that are not rejected *)
Section Resolves.
Import Schema Agent Observations.
Context {W : Type}.
Variable env : Env W.

Local Abbreviation CM := (ContextManager W).

Lemma dispatch_resolves (cm : CM) (tc : ToolCall) :
  registry_throws_objects cm -> (dispatch_tool_call cm tc).2 = None.
Proof.
  intros Hreg. destruct (dispatch_tool_call cm tc).2 as [error|] eqn:Herr; [|done].
  destruct (dispatch_tool_call_state cm tc) as [Hstate _].
  destruct (execute_tool _ _ cm).2 as [result|error'] eqn:Hex.
  - destruct Hstate as (Hnone & _). congruence.
  - destruct (execute_tool_rejects _ _ _ _ Hex) as (tool & w & undefined & Htool & Hthrow & _).
    destruct (Hreg _ _ Htool (positionalArgs tool (fn_arguments (function tc)))
                (world cm) w) as [Hnull Hundef].
    by destruct undefined.
Qed.

(** A run keeps the registry of the context manager. *)
Lemma run_keeps_registry (maxSteps : nat) (cm : CM) :
  toolDict (run env maxSteps cm).1 = toolDict cm.
Proof.
  apply (run_invariant env (fun c => toolDict c = toolDict cm)); try done.
  - intros response c Hc. unfold updateApiTokens. by destruct (usage response).
  - intros c Hc. destruct (summarizeMessages_frame env c) as (_ & _ & _ & (_ & _ & Hd) & _).
    by rewrite Hd.
Qed.

Lemma dispatch_all_resolves (tcs : list ToolCall) :
  forall cm : CM,
    registry_throws_objects cm -> (dispatch_tool_calls cm tcs).2 = None.
Proof.
  induction tcs as [|tc tcs IH]; intros cm Hreg; [done|].
  simpl. pose proof (dispatch_resolves cm tc Hreg) as Hone.
  assert (toolDict (dispatch_tool_call cm tc).1 = toolDict cm) as Hdict.
  { unfold dispatch_tool_call. by destruct (execute_tool _ _ _) as [w [result|error]]. }
  destruct (dispatch_tool_call cm tc) as [cm' r]. simpl in *. subst r.
  apply IH. intros name tool Htool. apply (Hreg name). by rewrite <- Hdict.
Qed.

Lemma run_step_resolves (maxSteps step : nat) (cm : CM) :
  registry_throws_objects cm ->
  registry_throws_objects (run_step env maxSteps step cm).2 /\
  forall error, (run_step env maxSteps step cm).1 <> Threw error.
Proof.
  intros Hreg. split.
  - apply (run_step_invariant env registry_throws_objects); try done.
    + intros response c Hc. unfold updateApiTokens. by destruct (usage response).
    + intros c Hc name tool Htool. apply (Hc name).
      destruct (summarizeMessages_frame env c) as (_ & _ & _ & (_ & _ & Hd) & _).
      by rewrite <- Hd.
  - intros error. unfold run_step.
    destruct (generate env _ _ _) as [w [response|err]].
    + destruct (resp_tool_calls response) as [[|tc tcs]|]; [done| |done].
      match goal with
      | |- context [dispatch_tool_calls ?c (tc :: tcs)] =>
          assert (registry_throws_objects c) as Hc
      end.
      { intros name tool Htool. apply (Hreg name).
        destruct (summarizeMessages_frame env cm) as (_ & _ & _ & (_ & _ & Hd) & _).
        rewrite <- Hd. revert Htool. unfold updateApiTokens.
        by destruct (usage response). }
      pose proof (dispatch_all_resolves (tc :: tcs) _ Hc) as Hnone.
      by destruct (dispatch_tool_calls _ (tc :: tcs)) as [cm' [e|]].
    + by destruct err as [| |[n m st|lastException attempts]].
Qed.

Lemma run_loop_resolves (maxSteps fuel : nat) :
  forall (step : nat) (cm : CM),
    registry_throws_objects cm -> (run_loop env fuel maxSteps step cm).2 = None.
Proof.
  induction fuel as [|fuel IH]; intros step cm Hreg; [done|].
  simpl. destruct (step <? maxSteps); [|done].
  destruct (run_step_resolves maxSteps step cm Hreg) as [Hreg' Hnot].
  destruct (run_step env maxSteps step cm) as [[| |error] cm']; [done| |].
  - by apply IH.
  - by destruct (Hnot error).
Qed.

(** When the LLM answers every request with tool calls and no tool
    throws [null] or [undefined], the loop uses all the steps that are
    left. *)
Lemma run_loop_exhausts_budget (maxSteps fuel : nat) :
  (forall msgs tools w, exists w' response tc tcs,
      generate env msgs tools w = (w', inl response) /\
      resp_tool_calls response = Some (tc :: tcs)) ->
  forall (step : nat) (cm : CM),
    registry_throws_objects cm ->
    fuel = maxSteps - step ->
    exists evs,
      (run_loop env fuel maxSteps step cm).2 = None /\
      events (run_loop env fuel maxSteps step cm).1 =
        events cm ++ evs ++
        [runFinished_failed
           ("Task couldn't be completed after " +:+ pretty maxSteps +:+ " steps.")
           (Error_ "Error"
              ("Task couldn't be completed after " +:+ pretty maxSteps +:+ " steps.")
              None)] /\
      step_numbers evs = seq (step + 1) fuel.
Proof.
  intros Hllm. induction fuel as [|fuel IH]; intros step cm Hreg Hfuel.
  - exists []. done.
  - cbn [run_loop]. destruct (Nat.ltb_spec step maxSteps); [|lia].
    destruct (run_step_events env maxSteps step cm) as (evs & Hev & Hnum & Hend).
    destruct (run_step_resolves maxSteps step cm Hreg) as [Hreg' Hnot].
    assert ((run_step env maxSteps step cm).1 <> Returned) as Hgoes.
    { unfold run_step.
      destruct (Hllm (messages (emit (stepStarted (step + 1) maxSteps)
                                  (summarizeMessages env cm)))
                  (Some (tools (emit (stepStarted (step + 1) maxSteps)
                                  (summarizeMessages env cm))))
                  (world (emit (stepStarted (step + 1) maxSteps)
                            (summarizeMessages env cm))))
        as (w' & response & tc & tcs & -> & ->).
      by destruct (dispatch_tool_calls _ (tc :: tcs)) as [cm' [e|]]. }
    destruct (run_step env maxSteps step cm) as [[| |error] cm'];
      [done | | by destruct (Hnot error)].
    simpl in Hev, Hreg'.
    destruct (IH (step + 1) cm') as (evs2 & Hnone & Hev2 & Hnum2); [done | lia |].
    exists (evs ++ evs2). split; [done|]. rewrite Hev2, Hev.
    split; [by rewrite <- !app_assoc|].
    rewrite step_numbers_app, Hnum, Hnum2. simpl.
    by replace (step + 1 + 1) with (S (step + 1)) by lia.
Qed.
End Resolves.

Section DispatchFacts.
Import Schema Agent Observations.
Context {W : Type}.

Local Abbreviation CM := (ContextManager W).


Lemma sublist_into_filter {A : Type} (P : A -> Prop) `{forall x, Decision (P x)}
    (l1 l2 : list A) :
  l1 `sublist_of` l2 -> Forall P l1 -> l1 `sublist_of` filter P l2.
Proof.
  induction 1 as [|x l1 l2 Hsub IH|x l1 l2 Hsub IH]; intros Hall.
  - constructor.
  - inversion Hall; subst. rewrite filter_cons, decide_True by done.
    by apply sublist_skip, IH.
  - rewrite filter_cons. destruct (decide (P x)); [|by apply IH].
    by apply sublist_cons, IH.
Qed.

Lemma workshop_throws_objects : registry_throws_objects Examples.workshop.
Proof.
  intros name tool Hlook. unfold Examples.workshop in Hlook. simpl in Hlook.
  apply lookup_insert_Some in Hlook as [[_ <-]|[_ Hlook]].
  { intros args w w'. split; discriminate. }
  apply lookup_insert_Some in Hlook as [[_ <-]|[_ Hlook]].
  { intros args w w'. split; discriminate. }
  by rewrite lookup_empty in Hlook.
Qed.
End DispatchFacts.

Section UserMessages.
Import Schema Agent Rounds.
Context {W : Type}.
Variable env : Env W.

(** The user messages of the history survive any call of
    [summarizeMessages]. *)
Lemma summarizeMessages_users (cm : ContextManager W) :
  filter (fun m => role m = "user") (messages cm)
    `sublist_of` messages (summarizeMessages env cm).
Proof.
  unfold summarizeMessages.
  destruct (skipNextTokenCheck cm); [apply sublist_filter|].
  destruct (shouldSummarize (estimateTokens env cm).1 cm) eqn:Hshould.
  - destruct (userIndices_of (messages cm)) as [|u us] eqn:Hui.
    + rewrite check_insufficient by done. simpl.
      rewrite estimateTokens_messages. apply sublist_filter.
    + destruct (check_and_summarize_rebuilt env cm Hshould) as (system & H0 & -> & _);
        [by rewrite Hui|].
      destruct (messages cm) as [|m0 rest] eqn:Hcm; [done|].
      injection H0 as ->. unfold rounds_of. simpl drop. rewrite drop_0.
      rewrite filter_cons.
      assert (filter (fun m => role m = "user") rest `sublist_of`
              rebuilt_rounds env 1 (split_rounds rest).2 (world cm)) as Hrest.
      { rewrite <- split_rounds_users. apply rebuilt_rounds_users. }
      destruct (decide (role system = "user")).
      * by apply sublist_skip.
      * by apply sublist_cons.
  - rewrite check_no_trigger by done.
    rewrite estimateTokens_messages. apply sublist_filter.
Qed.

Lemma users_kept_by_summarizeMessages (users : list Message) (cm : ContextManager W) :
  Forall (fun m => role m = "user") users ->
  users `sublist_of` messages cm ->
  users `sublist_of` messages (summarizeMessages env cm).
Proof.
  intros Hall Hsub. etrans; [|apply summarizeMessages_users].
  by apply sublist_into_filter.
Qed.
End UserMessages.

Lemma tiktoken_count_is_additive_witness :
  4 * length (Agent.messages Examples.short_history) <= 10.
Proof.
  destruct (tiktoken_count_is_additive unit Examples.picky_tokenizer
              (Agent.messages Examples.short_history) []) as [_ Hfloor].
  apply Hfloor. reflexivity.
Defined.


(** X16. A run emits at most one [runFinished] event. When its promise
    is resolved it has emitted exactly one, as its last event; when it is
    rejected, which only the [TypeError] of a tool that throws [null] or
    [undefined] does, it has emitted none. Before that, the steps announce
    themselves with the numbers 1, 2, ... without a gap, and there are at
    most [maxSteps] of them. With a registry whose tools throw neither
    [null] nor [undefined] the run is not rejected. *)
Theorem run_finishes_once :
  forall (W : Type) (env : Agent.Env W) (maxSteps : nat) (cm : Agent.ContextManager W),
    (exists evs k,
        Forall (fun e => Observations.is_runFinished e = false) evs /\
        Observations.step_numbers evs = seq 1 k /\
        k <= maxSteps /\
        match (Agent.run env maxSteps cm).2 with
        | None =>
            exists e,
              Agent.events (Agent.run env maxSteps cm).1 = Agent.events cm ++ evs ++ [e] /\
              Observations.is_runFinished e = true
        | Some error =>
            Agent.events (Agent.run env maxSteps cm).1 = Agent.events cm ++ evs /\
            exists undefined, error = TypeError_reading undefined "name"
        end) /\
    (Observations.registry_throws_objects cm -> (Agent.run env maxSteps cm).2 = None).
Proof.
  intros W env maxSteps cm. unfold Agent.run. split.
  - destruct (run_loop_events env maxSteps maxSteps 0 cm)
      as (evs & k & Hq & Hnum & Hk & _ & Hend).
    by exists evs, k.
  - apply run_loop_resolves.
Qed.

Lemma run_finishes_once_witness :
  (Agent.run Examples.asks_for_foo 3 Examples.workshop).2 = None.
Proof.
  destruct (run_finishes_once _ Examples.asks_for_foo 3 Examples.workshop) as [_ Hresolves].
  apply Hresolves, workshop_throws_objects.
Defined.

(** X17. When the LLM answers every request with tool calls and no tool
    of the registry throws [null] or [undefined], the run takes exactly
    [maxSteps] steps and ends with the failure
    ["Task couldn't be completed after <maxSteps> steps."]; with
    [maxSteps = 0] it ends so without calling the LLM. *)
Theorem run_stops_at_step_budget :
  forall (W : Type) (env : Agent.Env W) (maxSteps : nat) (cm : Agent.ContextManager W),
    (forall msgs tools w, exists w' response tc tcs,
        Agent.generate env msgs tools w = (w', inl response) /\
        Schema.resp_tool_calls response = Some (tc :: tcs)) ->
    Observations.registry_throws_objects cm ->
    exists evs,
      (Agent.run env maxSteps cm).2 = None /\
      Agent.events (Agent.run env maxSteps cm).1 =
        Agent.events cm ++ evs ++
        [Agent.runFinished_failed
           ("Task couldn't be completed after " +:+ pretty maxSteps +:+ " steps.")
           (Error_ "Error"
              ("Task couldn't be completed after " +:+ pretty maxSteps +:+ " steps.")
              None)] /\
      Observations.step_numbers evs = seq 1 maxSteps /\
      (maxSteps = 0 -> Agent.world (Agent.run env maxSteps cm).1 = Agent.world cm).
Proof.
  intros W env maxSteps cm Hllm Hreg. unfold Agent.run.
  destruct (run_loop_exhausts_budget env maxSteps maxSteps Hllm 0 cm Hreg)
    as (evs & Hnone & Hev & Hnum); [lia|].
  exists evs. split; [done|]. split; [done|]. split; [done|]. by intros ->.
Qed.

Lemma run_stops_at_step_budget_witness :
  exists evs,
    (Agent.run Examples.asks_for_foo 3 Examples.workshop).2 = None /\
    Agent.events (Agent.run Examples.asks_for_foo 3 Examples.workshop).1 =
      Agent.events Examples.workshop ++ evs ++
      [Agent.runFinished_failed "Task couldn't be completed after 3 steps."
         (Error_ "Error" "Task couldn't be completed after 3 steps." None)] /\
    Observations.step_numbers evs = [1; 2; 3] /\
    (3 = 0 -> Agent.world (Agent.run Examples.asks_for_foo 3 Examples.workshop).1 =
              Agent.world Examples.workshop).
Proof.
  apply (run_stops_at_step_budget _ Examples.asks_for_foo 3 Examples.workshop).
  - intros msgs tools w. by eexists w, _, Examples.foo_call, [].
  - apply workshop_throws_objects.
Defined.

(** X18. A step ends the run with success when the LLM's answer carries
    no tool call: the answer, with its reasoning and tool-call fields as
    received, is the last message of the history and [runFinished] reports
    its text. A step ends the run with ["LLM call failed."] when the LLM
    call throws a value that is not a [RetryExhaustedError], [null] and
    [undefined] included; nothing is appended to the history then. *)
Theorem run_ends_without_tool_calls :
  forall (W : Type) (env : Agent.Env W) (cm : Agent.ContextManager W)
         (maxSteps step fuel : nat) (w : W),
    step < maxSteps ->
    let cm0 := Agent.emit (Agent.stepStarted (step + 1) maxSteps)
                 (Agent.summarizeMessages env cm) in
    (forall response,
        Agent.generate env (Agent.messages cm0) (Some (Agent.tools cm0)) (Agent.world cm0) =
          (w, inl response) ->
        Schema.resp_tool_calls response = None \/ Schema.resp_tool_calls response = Some [] ->
        let cm' := (Agent.run_loop env (S fuel) maxSteps step cm).1 in
        (Agent.run_loop env (S fuel) maxSteps step cm).2 = None /\
        Agent.messages cm' =
          Agent.messages cm0 ++
          [Schema.mkMessage "assistant" (Schema.Text (Schema.resp_content response))
             (Schema.resp_thinking response) (Schema.resp_tool_calls response) None None] /\
        Agent.events cm' =
          Agent.events cm0 ++
          [Agent.llmResponseReceived response;
           Agent.runFinished_ok (Schema.resp_content response)] /\
        Agent.world cm' = w) /\
    (forall error,
        Agent.generate env (Agent.messages cm0) (Some (Agent.tools cm0)) (Agent.world cm0) =
          (w, inr error) ->
        (forall lastException attempts,
            error <> thrown (RetryExhaustedError lastException attempts)) ->
        Agent.run_loop env (S fuel) maxSteps step cm =
          (Agent.emit (Agent.runFinished_failed "LLM call failed." error)
             (Agent.set_world w cm0), None)).
Proof.
  intros W env cm maxSteps step fuel w Hstep cm0. split.
  - intros response Hgen Hcalls cm'. subst cm'.
    rewrite (run_loop_returned env fuel maxSteps step cm
               (Agent.emit (Agent.runFinished_ok (Schema.resp_content response))
                  (Agent.addAssistantMessage response
                     (Agent.updateApiTokens response
                        (Agent.emit (Agent.llmResponseReceived response)
                           (Agent.set_world w cm0)))))); [|done|].
    + unfold Agent.updateApiTokens.
      destruct (Schema.usage response); simpl; by rewrite <- app_assoc.
    + unfold Agent.run_step. fold cm0. rewrite Hgen.
      by destruct Hcalls as [-> | ->].
  - intros error Hgen Hother. apply run_loop_returned; [done|].
    unfold Agent.run_step. fold cm0. rewrite Hgen.
    destruct error as [| |[n m st|lastException attempts]]; try done.
    by destruct (Hother lastException attempts).
Qed.

Lemma run_ends_without_tool_calls_witness :
  let cm' := (Agent.run Scenarios.hello_llm 5 Examples.fresh_conversation).1 in
  (Agent.run Scenarios.hello_llm 5 Examples.fresh_conversation).2 = None /\
  Agent.messages cm' =
    [Schema.mkMessage "system" (Schema.Text "S") None None None None;
     Schema.mkMessage "user" (Schema.Text "hi") None None None None;
     Schema.mkMessage "assistant" (Schema.Text "hello") (Some "greet back") None None None] /\
  Agent.events cm' =
    [Agent.stepStarted 1 5;
     Agent.llmResponseReceived
       (Schema.mkLLMResponse "hello" (Some "greet back") None "stop"
          (Some (Schema.mkTokenUsage 7 2 9)));
     Agent.runFinished_ok "hello"] /\
  Agent.world cm' = 1.
Proof.
  destruct (run_ends_without_tool_calls nat Scenarios.hello_llm
              Examples.fresh_conversation 5 0 4 1 ltac:(lia)) as [Hok _].
  exact (Hok (Schema.mkLLMResponse "hello" (Some "greet back") None "stop"
                (Some (Schema.mkTokenUsage 7 2 9))) eq_refl (or_introl eq_refl)).
Defined.


(** X20. For a tool whose schema declares [properties], the arguments
    passed to [execute] depend neither on the order in which the call
    lists its arguments nor on arguments that the schema does not declare:
    these are dropped. *)
Theorem declared_arguments_ignore_order_and_extras :
  forall (W : Type) (tool : Schema.Tool W) (props callArgs callArgs' extra : Schema.JsObject),
    Schema.properties (Schema.parameters tool) = Some props ->
    (callArgs ≡ₚ callArgs' -> NoDup (Schema.Object_keys callArgs) ->
     Agent.positionalArgs tool callArgs = Agent.positionalArgs tool callArgs') /\
    ((forall key, key ∈ Schema.Object_keys props -> key ∉ Schema.Object_keys extra) ->
     Agent.positionalArgs tool (callArgs ++ extra) = Agent.positionalArgs tool callArgs).
Proof.
  intros W tool props callArgs callArgs' extra Hprops.
  unfold Agent.positionalArgs. rewrite Hprops. split.
  - intros Hperm Hnd. apply map_ext. intros key. unfold Schema.js_get.
    rewrite (own_property_permutation key callArgs callArgs'); [done | done |].
    by rewrite <- Object_keys_Permutation.
  - intros Hextra. apply map_ext_in. intros key Hin. unfold Schema.js_get.
    rewrite own_property_app, (own_property_missing key extra).
    + by destruct (Schema.own_property key callArgs).
    + rewrite <- Object_keys_Permutation. apply Hextra. by apply list_elem_of_In.
Qed.

Lemma declared_arguments_ignore_order_and_extras_witness :
  Agent.positionalArgs Examples.recording_tool
    [("content", JStr "x"); ("path", JStr "a.txt")] =
  Agent.positionalArgs Examples.recording_tool
    [("path", JStr "a.txt"); ("content", JStr "x")] /\
  Agent.positionalArgs Examples.recording_tool
    ([("path", JStr "a.txt")] ++ [("verbose", JBool true)]) =
  Agent.positionalArgs Examples.recording_tool [("path", JStr "a.txt")].
Proof.
  split.
  - destruct (declared_arguments_ignore_order_and_extras _ Examples.recording_tool _
                [("content", JStr "x"); ("path", JStr "a.txt")]
                [("path", JStr "a.txt"); ("content", JStr "x")] [] eq_refl) as [Horder _].
    apply Horder; [apply Permutation_swap|].
    refine (bool_decide_unpack _ _). vm_compute. exact I.
  - destruct (declared_arguments_ignore_order_and_extras _ Examples.recording_tool _
                [("path", JStr "a.txt")] [] [("verbose", JBool true)] eq_refl)
      as [_ Hextra].
    apply Hextra. intros key Hkey Hin. apply list_elem_of_singleton in Hin. subst key.
    repeat (apply elem_of_cons in Hkey as [Hkey | Hkey]; [discriminate|]).
    by apply elem_of_nil in Hkey.
Defined.

(** X21. A run of the agent never loses a user message: the messages of
    role [user] present before the run are all in the history after it,
    unchanged and in the same order, also when the run is rejected. *)
Theorem run_keeps_user_messages :
  forall (W : Type) (env : Agent.Env W) (maxSteps : nat) (cm : Agent.ContextManager W),
    filter (fun m => Schema.role m = "user") (Agent.messages cm)
      `sublist_of` Agent.messages (Agent.run env maxSteps cm).1.
Proof.
  intros W env maxSteps cm.
  apply (run_invariant env
           (fun c => filter (fun m => Schema.role m = "user") (Agent.messages cm)
                       `sublist_of` Agent.messages c)).
  - intros response c Hc. simpl. by apply sublist_inserts_r.
  - intros result toolCallId name c Hc. simpl. by apply sublist_inserts_r.
  - intros response c Hc. unfold Agent.updateApiTokens.
    by destruct (Schema.usage response).
  - intros c Hc. apply users_kept_by_summarizeMessages; [|done].
    apply Forall_forall. intros m Hm. by apply list_elem_of_filter in Hm as [? _].
  - done.
  - done.
  - apply sublist_filter.
Qed.

Lemma new_ContextManager_starts_with_system_prompt_witness :
  Agent.messages
    (Agent.new_ContextManager "Current Workspace: /srv" ([] : list (Schema.Tool unit))
       "/work" 80000%Z tt) =
    [Schema.mkMessage "system" (Schema.Text "Current Workspace: /srv") None None None None] /\
  Agent.messages
    (Agent.new_ContextManager "Be brief." ([] : list (Schema.Tool unit)) "/work" 80000%Z tt) =
    [Schema.mkMessage "system"
       (Schema.Text
          ("Be brief." +:+ nl +:+ nl +:+ "## Current Workspace" +:+ nl +:+
           "You are currently working in: `/work`" +:+ nl +:+
           "All relative paths will be resolved relative to this directory."))
       None None None None].
Proof.
  split.
  - destruct (new_ContextManager_starts_with_system_prompt unit "Current Workspace: /srv"
                [] "/work" 80000%Z tt) as (prompt & Hmsgs & _ & _ & Hkeep & _).
    rewrite Hmsgs, Hkeep; [reflexivity|]. vm_compute. discriminate.
  - destruct (new_ContextManager_starts_with_system_prompt unit "Be brief."
                [] "/work" 80000%Z tt) as (prompt & Hmsgs & _ & _ & _ & Happend & _).
    rewrite Hmsgs, Happend; reflexivity.
Defined.

(** X22. In every state that the constructor and the methods can
    produce, the suppression flag is set only while the history holds a
    user message after the first message. *)
Theorem flag_is_set_only_with_a_user_message :
  forall (W : Type) (env : Agent.Env W) (cm : Agent.ContextManager W),
    Agent.reachable env cm ->
    Agent.skipNextTokenCheck cm = true ->
    exists i m, 0 < i /\ Agent.messages cm !! i = Some m /\ Schema.role m = "user".
Proof.
  intros W env cm Hreach Hset.
  pose proof (reachable_flag env cm Hreach Hset) as Hne.
  destruct (Agent.userIndices_of (Agent.messages cm)) as [|i others] eqn:Hui; [done|].
  assert (i ∈ Agent.userIndices_of (Agent.messages cm)) as Hin
    by (rewrite Hui; apply list_elem_of_here).
  unfold Agent.userIndices_of in Hin.
  apply list_elem_of_fmap in Hin as ([m j] & -> & Hin).
  apply list_elem_of_filter in Hin as [[Hrole Hpos] Hin].
  apply elem_of_lookup_imap in Hin as (j' & m' & Heq & Hlook).
  injection Heq as -> ->. simpl in *. eauto.
Qed.

Lemma flag_is_set_only_with_a_user_message_witness :
  exists i m,
    0 < i /\
    Agent.messages (Agent.summarizeMessages Examples.unreachable_llm
                      (Agent.updateApiTokens
                         (Schema.mkLLMResponse "x" None None "stop"
                            (Some (Schema.mkTokenUsage 90000 1 90001)))
                         Scenarios.greeted)) !! i = Some m /\
    Schema.role m = "user".
Proof.
  apply (flag_is_set_only_with_a_user_message nat Examples.unreachable_llm).
  - apply Agent.reach_summarizeMessages, Agent.reach_updateApiTokens,
      Agent.reach_addUserMessage, Agent.reach_new.
  - reflexivity.
Defined.

(** X23. Tool dispatch goes on after a failure that the [catch] block
    can report. A tool call whose name is not in the registry yields a
    failed result, and the appended tool-role message reads
    ["Error: Unknown tool: <name>"]; a tool whose [execute] throws a value
    other than [null] and [undefined] yields a failed result whose error
    text holds the error's name, message and stack. With a registry whose
    tools throw neither [null] nor [undefined], every tool call appends one
    tool-role message and a step with tool calls goes on to the next
    step. *)
Theorem tool_dispatch_reports_failures :
  forall (W : Type) (env : Agent.Env W),
    (forall (cm : Agent.ContextManager W) (tc : Schema.ToolCall),
        let name := Schema.fn_name (Schema.function tc) in
        Agent.toolDict cm !! name = None ->
        let result :=
          Schema.mkToolResult false EmptyString (Some ("Unknown tool: " +:+ name)) in
        (Agent.dispatch_tool_call cm tc).2 = None /\
        Agent.messages (Agent.dispatch_tool_call cm tc).1 =
          Agent.messages cm ++
          [Agent.tool_message ("Error: Unknown tool: " +:+ name) (Schema.id tc) name] /\
        Agent.events (Agent.dispatch_tool_call cm tc).1 =
          Agent.events cm ++
          [Agent.toolCallStarted (Schema.id tc) name (Schema.fn_arguments (Schema.function tc));
           Agent.toolCallFinished false (Schema.id tc) name result] /\
        Agent.world (Agent.dispatch_tool_call cm tc).1 = Agent.world cm) /\
    (forall (cm : Agent.ContextManager W) (tc : Schema.ToolCall)
            (tool : Schema.Tool W) (w : W) (err : JsError),
        let name := Schema.fn_name (Schema.function tc) in
        let callArgs := Schema.fn_arguments (Schema.function tc) in
        Agent.toolDict cm !! name = Some tool ->
        Schema.execute tool (Agent.positionalArgs tool callArgs) (Agent.world cm) =
          (w, inr (thrown err)) ->
        let error :=
          "Tool execution failed: " +:+ (error_name err +:+ ": " +:+ error_message err) +:+
          nl +:+ nl +:+ "Traceback:" +:+ nl +:+ default EmptyString (error_stack err) in
        (Agent.dispatch_tool_call cm tc).2 = None /\
        Agent.messages (Agent.dispatch_tool_call cm tc).1 =
          Agent.messages cm ++ [Agent.tool_message ("Error: " +:+ error) (Schema.id tc) name] /\
        Agent.events (Agent.dispatch_tool_call cm tc).1 =
          Agent.events cm ++
          [Agent.toolCallStarted (Schema.id tc) name callArgs;
           Agent.toolCallFinished false (Schema.id tc) name
             (Schema.mkToolResult false EmptyString (Some error))] /\
        Agent.world (Agent.dispatch_tool_call cm tc).1 = w) /\
    (forall (cm : Agent.ContextManager W) (tc : Schema.ToolCall),
        Observations.registry_throws_objects cm ->
        (Agent.dispatch_tool_call cm tc).2 = None /\
        exists content,
          Agent.messages (Agent.dispatch_tool_call cm tc).1 =
            Agent.messages cm ++
            [Agent.tool_message content (Schema.id tc) (Schema.fn_name (Schema.function tc))]) /\
    (forall (cm : Agent.ContextManager W) (maxSteps step fuel : nat) (w : W)
            (response : Schema.LLMResponse) (tc : Schema.ToolCall)
            (tcs : list Schema.ToolCall),
        step < maxSteps ->
        Observations.registry_throws_objects cm ->
        let cm0 := Agent.emit (Agent.stepStarted (step + 1) maxSteps)
                     (Agent.summarizeMessages env cm) in
        Agent.generate env (Agent.messages cm0) (Some (Agent.tools cm0)) (Agent.world cm0) =
          (w, inl response) ->
        Schema.resp_tool_calls response = Some (tc :: tcs) ->
        let cm1 :=
          (Agent.dispatch_tool_calls
             (Agent.addAssistantMessage response
                (Agent.updateApiTokens response
                   (Agent.emit (Agent.llmResponseReceived response) (Agent.set_world w cm0))))
             (tc :: tcs)).1 in
        Agent.run_step env maxSteps step cm = (Agent.NextStep, cm1) /\
        Agent.run_loop env (S fuel) maxSteps step cm =
          Agent.run_loop env fuel maxSteps (step + 1) cm1).
Proof.
  intros W env. split; [|split; [|split]].
  - intros cm tc name Hnone result.
    destruct (dispatch_tool_call_state cm tc) as (Hstate & Hw). rewrite Hw.
    revert Hstate. unfold Agent.execute_tool. fold name. rewrite Hnone. simpl.
    intros (Hn & Hm & He). by rewrite Hn, Hm, He.
  - intros cm tc tool w err name callArgs Htool Hthrow error.
    destruct (dispatch_tool_call_state cm tc) as (Hstate & Hw). rewrite Hw.
    revert Hstate. unfold Agent.execute_tool. fold name callArgs.
    rewrite Htool, Hthrow. simpl.
    intros (Hn & Hm & He). by rewrite Hn, Hm, He.
  - intros cm tc Hreg. pose proof (dispatch_resolves cm tc Hreg) as Hnone.
    split; [done|].
    destruct (dispatch_tool_call_state cm tc) as (Hstate & _).
    destruct (Agent.execute_tool _ _ cm).2 as [result|error].
    + destruct Hstate as (_ & Hm & _). eauto.
    + destruct Hstate as (Hsome & _). congruence.
  - intros cm maxSteps step fuel w response tc tcs Hstep Hreg cm0 Hgen Hcalls cm1.
    assert (Agent.run_step env maxSteps step cm = (Agent.NextStep, cm1)) as Hrun.
    { pose proof (run_step_resolves env maxSteps step cm Hreg) as [_ Hnot].
      revert Hnot. subst cm1. unfold Agent.run_step. fold cm0. rewrite Hgen, Hcalls.
      destruct (Agent.dispatch_tool_calls _ (tc :: tcs)) as [cm' [error|]]; [|done].
      intros Hnot. by destruct (Hnot error). }
    split; [done|]. by apply run_loop_next.
Qed.

Lemma tool_dispatch_reports_failures_witness :
  Agent.messages (Agent.dispatch_tool_call Examples.workshop Examples.foo_call).1 =
    Agent.messages Examples.workshop ++
    [Agent.tool_message "Error: Unknown tool: foo" "call_1" "foo"] /\
  Agent.messages (Agent.dispatch_tool_call Examples.workshop Examples.explode_call).1 =
    Agent.messages Examples.workshop ++
    [Agent.tool_message
       ("Error: Tool execution failed: TypeError: bad input" +:+ nl +:+ nl +:+
        "Traceback:" +:+ nl +:+ "at explode (tool.js:1)") "call_2" "explode"] /\
  (Agent.dispatch_tool_call Examples.workshop Examples.write_call).2 = None /\
  (Agent.run_step Examples.asks_for_foo 3 0 Examples.workshop).1 = Agent.NextStep /\
  Agent.run_loop Examples.asks_for_foo 3 3 0 Examples.workshop =
    Agent.run_loop Examples.asks_for_foo 2 3 1
      (Agent.run_step Examples.asks_for_foo 3 0 Examples.workshop).2.
Proof.
  destruct (tool_dispatch_reports_failures _ Examples.asks_for_foo)
    as (Hunknown & Hthrows & Hone & Hnext).
  split; [|split; [|split]].
  - apply (Hunknown Examples.workshop Examples.foo_call). reflexivity.
  - apply (Hthrows Examples.workshop Examples.explode_call Examples.throwing_tool []
             (Error_ "TypeError" "bad input" (Some "at explode (tool.js:1)")));
      reflexivity.
  - apply (Hone Examples.workshop Examples.write_call), workshop_throws_objects.
  - destruct (Hnext Examples.workshop 3 0 2 []
                (Schema.mkLLMResponse EmptyString None (Some [Examples.foo_call])
                   "tool_calls" None)
                Examples.foo_call []) as [Hstep Hloop].
    + lia.
    + apply workshop_throws_objects.
    + reflexivity.
    + reflexivity.
    + rewrite Hloop, Hstep. split; reflexivity.
Defined.

(** X24. With [maxRetries = n], an operation that throws a value other
    than [null] and [undefined] at every attempt, retried with a callback
    that does not throw, is called [n + 1] times, and
    [RetryExhaustedError] is raised with the last underlying error and the
    attempt count [n + 1]; when the LLM call of [Agent.run] raises this
    error, the run ends at once with a [runFinished] event whose [ok] is
    false and which reports that count. *)
Theorem exhausted_retries_end_the_run :
  (forall (W A : Type) (Math_pow : float -> Z -> float) (n : nat)
          (config : Retry.RetryConfig)
          (onRetry : option (Thrown -> Z -> W -> W * option Thrown))
          (originalMethod : W -> W * (A + Thrown)) (w : W),
      Retry.maxRetries config = Z.of_nat n ->
      (forall w0, exists w1 e, originalMethod w0 = (w1, inr (thrown e))) ->
      match onRetry with
      | Some callback => forall exception attempt w0, (callback exception attempt w0).2 = None
      | None => True
      end ->
      exists w' log lastException,
        Retry.asyncRetry Math_pow config onRetry originalMethod w =
          (w', log, inr (thrown (RetryExhaustedError lastException (Z.of_nat (n + 1))))) /\
        Retry.invocations log = n + 1 /\
        last (Retry.thrown_errors log) = Some (thrown lastException)) /\
  (forall (W : Type) (env : Agent.Env W) (cm : Agent.ContextManager W)
          (maxSteps step fuel : nat) (w : W) (lastException : JsError) (attempts : Z),
      step < maxSteps ->
      let cm0 := Agent.emit (Agent.stepStarted (step + 1) maxSteps)
                   (Agent.summarizeMessages env cm) in
      Agent.generate env (Agent.messages cm0) (Some (Agent.tools cm0)) (Agent.world cm0) =
        (w, inr (thrown (RetryExhaustedError lastException attempts))) ->
      Agent.run_loop env (S fuel) maxSteps step cm =
        (Agent.emit
           (Agent.runFinished_failed
              ("LLM call failed after " +:+ num_to_string attempts +:+ " retries.")
              (thrown (RetryExhaustedError lastException attempts)))
           (Agent.set_world w cm0), None)).
Proof.
  split.
  - intros W A Math_pow n config onRetry originalMethod w Hn Hfail Hquiet.
    unfold Retry.asyncRetry.
    destruct (retry_loop_exhausted Math_pow config onRetry originalMethod
                (Z.to_nat (Retry.maxRetries config + 1)) Hfail Hquiet 0%Z None w [])
      as (w' & log & e & Heq & Hinv & Hlast); [lia | f_equal; lia |].
    exists w', log, e. rewrite Heq. simpl.
    replace (Retry.maxRetries config + 1)%Z with (Z.of_nat (n + 1)) in * by lia.
    split; [done|]. split; [|done]. rewrite Hinv. lia.
  - intros W env cm maxSteps step fuel w lastException attempts Hstep cm0 Hgen.
    apply run_loop_returned; [done|].
    unfold Agent.run_step. fold cm0. by rewrite Hgen.
Qed.

Lemma exhausted_retries_end_the_run_witness :
  (exists w' log lastException,
      Retry.asyncRetry Examples.repeated_product Retry.default_config None
        (@Examples.failing_request Schema.LLMResponse "boom") 0 =
        (w', log, inr (thrown (RetryExhaustedError lastException 4))) /\
      Retry.invocations log = 4 /\
      last (Retry.thrown_errors log) = Some (thrown lastException)) /\
  Agent.events (Agent.run Examples.unreachable_llm 5 Examples.fresh_conversation).1 =
    [Agent.stepStarted 1 5;
     Agent.runFinished_failed "LLM call failed after 4 retries."
       (thrown (RetryExhaustedError (Error_ "Error" "boom" None) 4))] /\
  Agent.world (Agent.run Examples.unreachable_llm 5 Examples.fresh_conversation).1 = 4 /\
  Agent.messages (Agent.run Examples.unreachable_llm 5 Examples.fresh_conversation).1 =
    Agent.messages Examples.fresh_conversation.
Proof.
  destruct exhausted_retries_end_the_run as [Hretry Hrun]. split.
  - apply (Hretry nat Schema.LLMResponse Examples.repeated_product 3 Retry.default_config
             None (Examples.failing_request "boom") 0).
    + reflexivity.
    + intros w0. by exists (S w0), (Error_ "Error" "boom" None).
    + exact I.
  - unfold Agent.run.
    rewrite (Hrun nat Examples.unreachable_llm Examples.fresh_conversation 5 0 4 4
               (Error_ "Error" "boom" None) 4%Z).
    + repeat split; reflexivity.
    + lia.
    + reflexivity.
Defined.
